(** * The scrape manager: priority queue, worker slots and the job pipeline

    A shallow embedding of [src/services/scrapeManager.js]: the in-memory
    job queue, the active and completed job maps, the dispatcher
    [processNextJob], the worker [processJob] cut at its [await] points,
    [queueJob], [cancelJob] and [init].

    The JavaScript is asynchronous.  Every [async] function runs
    synchronously up to its next [await]; there it is suspended and the
    event loop is free to run any other ready continuation.  The model
    follows that: a state holds the suspended invocations, a label says
    which one the event loop resumes and what the awaited promise settled
    to, and one step executes the code up to the next [await].

    Job objects are shared and mutated in place (the queue, [activeJobs],
    [completedJobs] and the worker all hold the same object), so they live
    in a heap and are passed by reference.  The repository, the discovery
    service, the extractors and the socket server are outside: their calls
    are logged and their answers come with the labels.  Line numbers refer
    to the source of the manager. *)

From stdpp Require Import gmap strings list fin_maps.
From Stdlib Require Import ZArith Lia DecimalString.

Local Open Scope string_scope.
Set Warnings "-register-all".

(** ** JavaScript values

    Extractor outputs, query results and the assembled results are plain
    JavaScript objects; the code only tests them for truthiness, reads a
    few properties for a log line and puts them under a key. *)

Inductive jsval : Type :=
| JUndefined
| JNull
| JBool (b : bool)
| JNum (n : Z)
| JStr (s : string)
| JArr (xs : list jsval)
| JObj (fields : list (string * jsval)).

(** Truthiness, as used by [x || d], [if (x)] and [x ? a : b]. *)
Definition truthy (v : jsval) : bool :=
  match v with
  | JUndefined | JNull => false
  | JBool b => b
  | JNum n => negb (n =? 0)%Z
  | JStr s => negb (String.eqb s "")
  | JArr _ | JObj _ => true
  end.

(** [a || b] *)
Definition js_or (a b : jsval) : jsval := if truthy a then a else b.

Definition nullish (v : jsval) : bool :=
  match v with JUndefined | JNull => true | _ => false end.

Fixpoint assoc (k : string) (fs : list (string * jsval)) : option jsval :=
  match fs with
  | [] => None
  | (k', v) :: fs' => if String.eqb k k' then Some v else assoc k fs'
  end.

(** [v.k]: [None] is the TypeError raised on [null] and [undefined]; a
    missing property reads as [undefined]. *)
Definition get_field (k : string) (v : jsval) : option jsval :=
  match v with
  | JUndefined | JNull => None
  | JObj fs => Some (default JUndefined (assoc k fs))
  | JArr xs =>
      Some (if String.eqb k "length" then JNum (Z.of_nat (length xs)) else JUndefined)
  | JStr s =>
      Some (if String.eqb k "length" then JNum (Z.of_nat (String.length s)) else JUndefined)
  | JBool _ | JNum _ => Some JUndefined
  end.

(** [v?.k] *)
Definition get_field_opt (k : string) (v : jsval) : jsval :=
  default JUndefined (get_field k v).

(** [a.k1.k2] along a path; [None] when some step raises. *)
Fixpoint get_path (ks : list string) (v : jsval) : option jsval :=
  match ks with
  | [] => Some v
  | k :: ks' => match get_field k v with
                | Some v' => get_path ks' v'
                | None => None
                end
  end.

(** ** Jobs *)

Inductive Status := queued | processing | complete | failed | cancelled.

Global Instance Status_eq_dec : EqDecision Status.
Proof. solve_decision. Defined.

Record Job := mkJob {
  jobId : string;
  domain : string;
  depth : nat;
  priority : string;
  maxPages : option nat;
  status : Status;
  progress : nat;
  message : string;
  startedAt : option string;
  completedAt : option string
}.

Definition with_status (st : Status) (j : Job) : Job :=
  mkJob (jobId j) (domain j) (depth j) (priority j) (maxPages j)
        st (progress j) (message j) (startedAt j) (completedAt j).
Definition with_progress (p : nat) (j : Job) : Job :=
  mkJob (jobId j) (domain j) (depth j) (priority j) (maxPages j)
        (status j) p (message j) (startedAt j) (completedAt j).
Definition with_message (m : string) (j : Job) : Job :=
  mkJob (jobId j) (domain j) (depth j) (priority j) (maxPages j)
        (status j) (progress j) m (startedAt j) (completedAt j).
Definition with_startedAt (t : string) (j : Job) : Job :=
  mkJob (jobId j) (domain j) (depth j) (priority j) (maxPages j)
        (status j) (progress j) (message j) (Some t) (completedAt j).
Definition with_completedAt (t : string) (j : Job) : Job :=
  mkJob (jobId j) (domain j) (depth j) (priority j) (maxPages j)
        (status j) (progress j) (message j) (startedAt j) (Some t).

(** ** The three tiers of [jobQueue]

    The tiers hold references to job objects: the same object is later put
    in [activeJobs] and [completedJobs] and mutated in place. *)

Inductive Tier := high | normal | low.

Global Instance Tier_eq_dec : EqDecision Tier.
Proof. solve_decision. Defined.

(** [jobQueue[key]]: only the three own properties hold an array. *)
Definition tier_of_key (key : string) : option Tier :=
  if String.eqb key "high" then Some high
  else if String.eqb key "normal" then Some normal
  else if String.eqb key "low" then Some low
  else None.

Record Queue := mkQueue {
  q_high : list nat;
  q_normal : list nat;
  q_low : list nat
}.

Definition tier (t : Tier) (q : Queue) : list nat :=
  match t with high => q_high q | normal => q_normal q | low => q_low q end.

Definition set_tier (t : Tier) (l : list nat) (q : Queue) : Queue :=
  match t with
  | high => mkQueue l (q_normal q) (q_low q)
  | normal => mkQueue (q_high q) l (q_low q)
  | low => mkQueue (q_high q) (q_normal q) l
  end.

(** [jobQueue[t].push(job)] *)
Definition push (t : Tier) (r : nat) (q : Queue) : Queue :=
  set_tier t (tier t q ++ [r]) q.

(** The choice made at the head of [processNextJob]: [shift] the first
    non-empty tier, looking at them in the order high, normal, low. *)
Definition shift_next (q : Queue) : option (Tier * nat * Queue) :=
  match q_high q with
  | r :: rest => Some (high, r, mkQueue rest (q_normal q) (q_low q))
  | [] =>
      match q_normal q with
      | r :: rest => Some (normal, r, mkQueue (q_high q) rest (q_low q))
      | [] =>
          match q_low q with
          | r :: rest => Some (low, r, mkQueue (q_high q) (q_normal q) rest)
          | [] => None
          end
      end
  end.

Definition queue_length (q : Queue) : nat :=
  length (q_high q) + length (q_normal q) + length (q_low q).

(** All queued references in dispatch order. *)
Definition queue_order (q : Queue) : list nat :=
  q_high q ++ q_normal q ++ q_low q.

(** ** The collaborators

    The repository, the discovery service, the extractors and the socket
    server are other modules.  The manager calls them and awaits their
    promises; the model records each call and takes the settlement of the
    promise from the label of the step that resumes the caller. *)

Record Page := mkPage { url : string; title : jsval }.

(** An element of [pagesWithContent] (lines 349-353). *)
Record PageWithContent := mkPageWithContent {
  pwc_url : string;
  pwc_title : jsval;
  pwc_content : jsval
}.

(** The options object passed to [discoverPages] (lines 199-203). *)
Record DiscoverOptions := mkDiscoverOptions {
  opt_maxPages : nat;
  bypassCooldown : bool;
  cooldownMinutes : nat
}.

(** The six extractors [processJob] runs, in the order it runs them. *)
Inductive Extractor :=
| enhancedImageExtractor
| socialMediaExtractor
| blogExtractor
| colorExtractor
| generalExtractor
| isbnExtractor.

Global Instance Extractor_eq_dec : EqDecision Extractor.
Proof. solve_decision. Defined.

Inductive Call :=
| GetPendingJobs
| SaveJob (j : Job)
| UpdateJobStatus (id : string) (st : Status) (started completed : option string)
| CanResumeJob (id : string)
| QuerySelectDomainInfo (dom : string)
| QueryInsertDomainInfo (dom : string)
| QueryUpdateDomainInfo (results : jsval) (id : jsval)
| DiscoverPages (dom : string) (dep : nat) (id : string) (opts : DiscoverOptions)
| ExtractPageContent (u : string)
| Extract (e : Extractor) (pages : list PageWithContent) (domainId : option jsval)
| SaveResults (id : string) (results : jsval).

(** What an awaited promise settles to. *)
Inductive Response :=
| throws (msg : string)
| resolves (v : jsval)
| resolves_rows (rows : list jsval)
| resolves_pages (ps : list Page).

(** The payload of a [job-update] event. *)
Record Event := mkEvent {
  ev_jobId : string;
  ev_status : Status;
  ev_progress : nat;
  ev_message : string
}.

(** One delivered [global.io.to(room).emit(event, data)]. *)
Record Publication := mkPublication {
  pub_room : string;
  pub_event : string;
  pub_data : Event
}.

(** The [logger.error] lines, by the place that writes them. *)
Inductive ErrorLog :=
| err_init (msg : string)               (* line 65 *)
| err_emit (room : string)              (* line 79 *)
| err_queue (msg : string)              (* line 103 *)
| err_update_status (msg : string)      (* line 151 *)
| err_domain_info (msg : string)        (* line 195 *)
| err_minimal (msg : string)            (* line 299 *)
| err_extractor (e : Extractor) (msg : string)  (* lines 369, 381, 391, 401, 411, 421 *)
| err_store_data (msg : string)         (* line 489 *)
| err_process (msg : string)            (* line 517 *)
| err_cancel (msg : string).            (* line 595 *)

(** ** Suspended invocations of [processJob]

    The program counter names the [await] an invocation is parked at. *)

Inductive PC :=
| at_updateJobStatus_processing   (* line 149 *)
| at_canResumeJob                 (* line 157 *)
| at_query_select                 (* line 178 *)
| at_query_insert                 (* line 186 *)
| at_discoverPages                (* line 199 *)
| at_saveResults                  (* line 272 *)
| at_updateJobStatus_minimal      (* line 282 *)
| at_extractPageContent           (* line 321 *)
| at_extract (e : Extractor)      (* lines 363, 378, 388, 398, 408, 418 *)
| at_query_update                 (* line 482 *)
| at_updateJobStatus_complete     (* line 500 *)
| returned                        (* the promise of processJob resolved *)
| rejected (msg : string).        (* line 518: the promise rejected *)

Record Worker := mkWorker {
  w_job : nat;                    (* the job object it was called with *)
  w_pc : PC;
  domainInfoId : jsval;
  pages : list Page;
  pageContents : list jsval;
  enhancedImageData : jsval;
  socialMediaData : jsval;
  blogData : jsval;
  colorData : jsval;
  generalData : jsval;
  isbnData : jsval;
  results : jsval                 (* [minimalResults] or [results] once built *)
}.

Definition new_worker (r : nat) : Worker :=
  mkWorker r at_updateJobStatus_processing JNull [] []
           JNull JNull JNull JNull JNull JNull JUndefined.

Definition at_pc (pc : PC) (w : Worker) : Worker :=
  mkWorker (w_job w) pc (domainInfoId w) (pages w) (pageContents w)
           (enhancedImageData w) (socialMediaData w) (blogData w)
           (colorData w) (generalData w) (isbnData w) (results w).
Definition with_domainInfoId (v : jsval) (w : Worker) : Worker :=
  mkWorker (w_job w) (w_pc w) v (pages w) (pageContents w)
           (enhancedImageData w) (socialMediaData w) (blogData w)
           (colorData w) (generalData w) (isbnData w) (results w).
Definition with_pages (ps : list Page) (w : Worker) : Worker :=
  mkWorker (w_job w) (w_pc w) (domainInfoId w) ps (pageContents w)
           (enhancedImageData w) (socialMediaData w) (blogData w)
           (colorData w) (generalData w) (isbnData w) (results w).
Definition with_pageContents (cs : list jsval) (w : Worker) : Worker :=
  mkWorker (w_job w) (w_pc w) (domainInfoId w) (pages w) cs
           (enhancedImageData w) (socialMediaData w) (blogData w)
           (colorData w) (generalData w) (isbnData w) (results w).
Definition with_results (v : jsval) (w : Worker) : Worker :=
  mkWorker (w_job w) (w_pc w) (domainInfoId w) (pages w) (pageContents w)
           (enhancedImageData w) (socialMediaData w) (blogData w)
           (colorData w) (generalData w) (isbnData w) v.

(** The variable an extractor's output is assigned to. *)
Definition extractor_data (e : Extractor) (w : Worker) : jsval :=
  match e with
  | enhancedImageExtractor => enhancedImageData w
  | socialMediaExtractor => socialMediaData w
  | blogExtractor => blogData w
  | colorExtractor => colorData w
  | generalExtractor => generalData w
  | isbnExtractor => isbnData w
  end.

Definition with_extractor_data (e : Extractor) (v : jsval) (w : Worker) : Worker :=
  mkWorker (w_job w) (w_pc w) (domainInfoId w) (pages w) (pageContents w)
    (if decide (e = enhancedImageExtractor) then v else enhancedImageData w)
    (if decide (e = socialMediaExtractor) then v else socialMediaData w)
    (if decide (e = blogExtractor) then v else blogData w)
    (if decide (e = colorExtractor) then v else colorData w)
    (if decide (e = generalExtractor) then v else generalData w)
    (if decide (e = isbnExtractor) then v else isbnData w)
    (results w).

(** ** Suspended invocations of [cancelJob]

    [cancelJob] awaits one [updateJobStatus] in each of its three
    branches. *)

Inductive CancelPC :=
| cancel_active (id : string) (r : nat)   (* line 557 *)
| cancel_queued                           (* line 580 *)
| cancel_unknown                          (* line 587 *)
| cancel_returned (success : bool) (msg : string).

(** ** The state of the module *)

Record State := mkState {
  heap : list Job;                     (* job objects, by reference *)
  jobQueue : Queue;
  activeJobs : gmap string nat;        (* jobId -> job object *)
  completedJobs : gmap string nat;
  workers : list Worker;               (* invocations of processJob *)
  cancels : list CancelPC;             (* invocations of cancelJob *)
  published : list Publication;        (* events delivered, oldest first *)
  calls : list Call;                   (* calls to collaborators, oldest first *)
  errors : list ErrorLog;              (* logger.error lines, oldest first *)
  now : string                         (* new Date().toISOString() *)
}.

Definition initial_state : State :=
  mkState [] (mkQueue [] [] []) ∅ ∅ [] [] [] [] [] "".

Definition set_heap (h : list Job) (s : State) : State :=
  mkState h (jobQueue s) (activeJobs s) (completedJobs s) (workers s)
          (cancels s) (published s) (calls s) (errors s) (now s).
Definition set_jobQueue (q : Queue) (s : State) : State :=
  mkState (heap s) q (activeJobs s) (completedJobs s) (workers s)
          (cancels s) (published s) (calls s) (errors s) (now s).
Definition set_activeJobs (m : gmap string nat) (s : State) : State :=
  mkState (heap s) (jobQueue s) m (completedJobs s) (workers s)
          (cancels s) (published s) (calls s) (errors s) (now s).
Definition set_completedJobs (m : gmap string nat) (s : State) : State :=
  mkState (heap s) (jobQueue s) (activeJobs s) m (workers s)
          (cancels s) (published s) (calls s) (errors s) (now s).
Definition set_workers (ws : list Worker) (s : State) : State :=
  mkState (heap s) (jobQueue s) (activeJobs s) (completedJobs s) ws
          (cancels s) (published s) (calls s) (errors s) (now s).
Definition set_cancels (cs : list CancelPC) (s : State) : State :=
  mkState (heap s) (jobQueue s) (activeJobs s) (completedJobs s) (workers s)
          cs (published s) (calls s) (errors s) (now s).
Definition set_published (ps : list Publication) (s : State) : State :=
  mkState (heap s) (jobQueue s) (activeJobs s) (completedJobs s) (workers s)
          (cancels s) ps (calls s) (errors s) (now s).
Definition set_now (t : string) (s : State) : State :=
  mkState (heap s) (jobQueue s) (activeJobs s) (completedJobs s) (workers s)
          (cancels s) (published s) (calls s) (errors s) t.

(** Call a collaborator: the call is issued now, its promise settles later. *)
Definition call (c : Call) (s : State) : State :=
  mkState (heap s) (jobQueue s) (activeJobs s) (completedJobs s) (workers s)
          (cancels s) (published s) (calls s ++ [c]) (errors s) (now s).

(** [logger.error(...)] *)
Definition log_error (e : ErrorLog) (s : State) : State :=
  mkState (heap s) (jobQueue s) (activeJobs s) (completedJobs s) (workers s)
          (cancels s) (published s) (calls s) (errors s ++ [e]) (now s).

(** Mutate the job object behind a reference. *)
Definition modify_job (r : nat) (f : Job -> Job) (s : State) : State :=
  match heap s !! r with
  | Some j => set_heap (<[r := f j]> (heap s)) s
  | None => s
  end.

(** Allocate a job object; its reference is the old length of the heap. *)
Definition alloc (j : Job) (s : State) : State :=
  set_heap (heap s ++ [j]) s.

(** [array.findIndex(pred)], [None] for [-1]. *)
Fixpoint findIndex {A} (pred : A -> bool) (l : list A) : option nat :=
  match l with
  | [] => None
  | x :: l' => if pred x then Some 0 else S <$> findIndex pred l'
  end.

(** [`${n}`] for a count. *)
Definition show_nat (n : nat) : string :=
  NilEmpty.string_of_uint (Nat.to_uint n).

(** ** The fixed values of the pipeline *)

(** The message V8 gives the TypeError of [jobQueue[key].push] when
    [jobQueue[key]] is [undefined]. *)
Definition push_TypeError : string :=
  "Cannot read properties of undefined (reading 'push')".

(** [jobQueue] is an object literal, so besides its three own properties
    it has those it inherits from [Object.prototype].  Under these keys
    [jobQueue[key]] is a function or an object, and none has a [push]. *)
Definition Object_prototype_keys : list string :=
  ["constructor"; "__defineGetter__"; "__defineSetter__"; "hasOwnProperty";
   "__lookupGetter__"; "__lookupSetter__"; "isPrototypeOf";
   "propertyIsEnumerable"; "toString"; "valueOf"; "__proto__";
   "toLocaleString"].

(** The message V8 gives the TypeError of line 90 when [jobQueue[key]] is
    defined and its [push] is not. *)
Definition push_not_a_function : string :=
  "jobQueue[job.priority].push is not a function".

(** The message of the TypeError [jobQueue[key].push(job)] raises for a
    [key] that names no tier. *)
Definition push_error (key : string) : string :=
  if bool_decide (key ∈ Object_prototype_keys)
  then push_not_a_function else push_TypeError.

(** The message V8 gives the TypeError of [pages.length] (line 204) when
    [pages] is [null] or [undefined]. *)
Definition length_TypeError (pages : jsval) : string :=
  match pages with
  | JUndefined => "Cannot read properties of undefined (reading 'length')"
  | _ => "Cannot read properties of null (reading 'length')"
  end.

(** The message recorded for a TypeError raised by a log line. *)
Definition log_TypeError : string := "TypeError".

Definition default_colors : jsval :=
  JObj [("primaryColor", JStr "#4285f4");
        ("secondaryColors", JArr [JStr "#ea4335"; JStr "#fbbc05"; JStr "#34a853"]);
        ("palette", JArr [JStr "#4285f4"; JStr "#ea4335"; JStr "#fbbc05";
                          JStr "#34a853"; JStr "#ffffff"; JStr "#000000"])].

Definition default_blog : jsval :=
  JObj [("hasBlog", JBool false); ("blogUrl", JNull); ("articles", JArr [])].

Definition default_isbn : jsval :=
  JObj [("isbns", JArr []); ("isbnImages", JArr [])].

Definition default_navigation : jsval :=
  JObj [("mainNav", JArr []); ("footerNav", JArr [])].

(** Lines 441-452. *)
Definition default_general (dom : string) : jsval :=
  JObj [("siteStructure",
         JObj [("title", JStr dom); ("meta", JObj []); ("sections", JArr [])]);
        ("prominentLinks", JArr []);
        ("navigationStructure", default_navigation)].

(** Lines 458-463. *)
Definition default_images : jsval :=
  JObj [("all", JArr []); ("byCategory", JObj []);
        ("heroImages", JArr []); ("brandImages", JArr [])].

(** Lines 469-472. *)
Definition default_socialMedia : jsval :=
  JObj [("links", JArr []); ("content", JObj [])].

(** The value [processJob] falls back to for an extractor's section. *)
Definition section_default (dom : string) (e : Extractor) : jsval :=
  match e with
  | enhancedImageExtractor => default_images
  | socialMediaExtractor => default_socialMedia
  | blogExtractor => default_blog
  | colorExtractor => default_colors
  | generalExtractor => default_general dom
  | isbnExtractor => default_isbn
  end.

(** The key of [results] an extractor's section is stored under. *)
Definition section_key (e : Extractor) : string :=
  match e with
  | enhancedImageExtractor => "images"
  | socialMediaExtractor => "socialMedia"
  | blogExtractor => "blog"
  | colorExtractor => "colors"
  | generalExtractor => "general"
  | isbnExtractor => "isbn"
  end.

(** [minimalResults], lines 211-257. *)
Definition minimalResults (dom : string) (scrapedAt : string) : jsval :=
  JObj [("domain", JStr dom);
        ("scrapedAt", JStr scrapedAt);
        ("general",
         JObj [("siteStructure",
                JObj [("title", JStr (dom +:+ " Website"));
                      ("meta", JObj [("description", JStr ("Website for " +:+ dom));
                                     ("keywords", JStr dom)]);
                      ("sections", JArr [])]);
               ("prominentLinks", JArr []);
               ("navigationStructure", default_navigation)]);
        ("blog", default_blog);
        ("images",
         JObj [("all", JArr []); ("byCategory", JObj []);
               ("heroImages", JArr []); ("brandImages", JArr []);
               ("productImages", JArr []); ("contentImages", JArr []);
               ("backgroundImages", JArr []); ("bannerImages", JArr []);
               ("galleryImages", JArr []); ("socialProofImages", JArr []);
               ("teamImages", JArr []); ("otherImages", JArr [])]);
        ("colors", default_colors);
        ("isbn", default_isbn)].

(** [results], lines 437-477, from the six variables of the worker. *)
Definition build_results (dom : string) (scrapedAt : string) (w : Worker) : jsval :=
  JObj [("domain", JStr dom);
        ("scrapedAt", JStr scrapedAt);
        ("pageCount", JNum (Z.of_nat (length (pages w))));
        ("general", js_or (generalData w) (default_general dom));
        ("blog", js_or (blogData w) default_blog);
        ("images", js_or (enhancedImageData w) default_images);
        ("colors", js_or (colorData w) default_colors);
        ("socialMedia", js_or (socialMediaData w) default_socialMedia);
        ("isbn", js_or (isbnData w) default_isbn)].

(** [pagesWithContent], lines 349-353. *)
Definition pagesWithContent (w : Worker) : list PageWithContent :=
  imap (fun index page =>
          mkPageWithContent (url page) (title page)
            (js_or (get_field_opt "content" (default JUndefined (pageContents w !! index)))
                   (JStr "")))
       (pages w).

(** The options of the [discoverPages] call, lines 200-202. *)
Definition discover_options (j : Job) : DiscoverOptions :=
  mkDiscoverOptions
    (match maxPages j with
     | Some n => if (n =? 0)%nat then 25 else n
     | None => 25
     end)
    true
    5.

(** Whether the success log line after an extractor raises a TypeError
    (lines 367, 379, 389, 399, 419; the general extractor's line 409 reads
    nothing).  The line stands inside the [try], after the assignment. *)
Definition raises (o : option jsval) : bool :=
  match o with None => true | Some _ => false end.

Definition keys_raises (o : option jsval) : bool :=
  match o with None => true | Some v => nullish v end.

Definition info_line_raises (e : Extractor) (v : jsval) : bool :=
  match e with
  | enhancedImageExtractor =>
      raises (get_path ["all"; "length"] v) || keys_raises (get_field "byCategory" v)
  | socialMediaExtractor => keys_raises (get_field "links" v)
  | blogExtractor =>
      match get_field "hasBlog" v with
      | None => true
      | Some h => if truthy h then raises (get_path ["articles"; "length"] v) else false
      end
  | colorExtractor =>
      raises (get_field "primaryColor" v) || raises (get_path ["secondaryColors"; "length"] v)
  | generalExtractor => false
  | isbnExtractor =>
      raises (get_path ["isbns"; "length"] v) || raises (get_path ["isbnImages"; "length"] v)
  end.

Definition next_extractor (e : Extractor) : option Extractor :=
  match e with
  | enhancedImageExtractor => Some socialMediaExtractor
  | socialMediaExtractor => Some blogExtractor
  | blogExtractor => Some colorExtractor
  | colorExtractor => Some generalExtractor
  | generalExtractor => Some isbnExtractor
  | isbnExtractor => None
  end.

(** The second argument of [extract]: only the image extractor gets
    [{domainId, saveToDatabase: true}]. *)
Definition extract_options (e : Extractor) (w : Worker) : option jsval :=
  match e with
  | enhancedImageExtractor => Some (domainInfoId w)
  | _ => None
  end.

(** ** The manager *)

Section Manager.

(** [MAX_CONCURRENT_JOBS], line 33: the environment variable read as an
    integer, 5 when it is not set.  (A value [parseInt] cannot read gives
    [NaN]; that case is left out.) *)
Variable MAX_CONCURRENT_JOBS : Z.

(** [global.io]: not installed, or a socket server; [emit room data] says
    whether [global.io.to(room).emit(event, data)] returns ([true]) or
    throws ([false]). *)
Variable global_io : option (string -> Event -> bool).

(** [Math.floor((done / total) * 30)], line 325.  The source computes it in
    double precision; the manager only adds 30 and caps the sum at 60. *)
Variable floor_share : nat -> nat -> nat.

(** Lines 73-81. *)
Definition emitSocketEvent (room event : string) (data : Event) (s : State) : State :=
  match global_io with
  | Some emit =>
      if emit room data
      then set_published (published s ++ [mkPublication room event data]) s
      else log_error (err_emit room) s
  | None => s
  end.

(** The block repeated after every milestone (lines 167-172, 264-269, ...):
    the payload is read from the job object at the time of the call.  The
    page loop passes its own message (line 332). *)
Definition job_update (r : nat) (msg : option string) (s : State) : State :=
  match heap s !! r with
  | Some j =>
      emitSocketEvent ("job-" +:+ jobId j) "job-update"
        (mkEvent (jobId j) (status j) (progress j) (default (message j) msg)) s
  | None => s
  end.

(** [activeJobs.size] *)
Definition active_count (s : State) : Z := Z.of_nat (size (activeJobs s)).

(** [processJob], lines 139-149: the part run synchronously by the caller,
    up to the first [await]. *)
Definition processJob_start (r : nat) (s : State) : State :=
  match heap s !! r with
  | Some job =>
      let job' := with_startedAt (now s) (with_status processing job) in
      let s1 := set_activeJobs (<[jobId job' := r]> (activeJobs s))
                  (set_heap (<[r := job']> (heap s)) s) in
      let s2 := call (UpdateJobStatus (jobId job') processing (startedAt job') None) s1 in
      set_workers (workers s2 ++ [new_worker r]) s2
  | None => s
  end.

(** [processNextJob], lines 109-135.  It has no [await]: the recursion runs
    to its end within one step.  Every recursive call follows a [shift], so
    the length of the queue bounds the depth. *)
Fixpoint processNextJob_rec (fuel : nat) (s : State) : State :=
  match fuel with
  | 0 => s
  | S fuel' =>
      if (active_count s >=? MAX_CONCURRENT_JOBS)%Z then s
      else
        match shift_next (jobQueue s) with
        | None => s
        | Some (_, nextJob, q') =>
            let s1 := processJob_start nextJob (set_jobQueue q' s) in
            if (active_count s1 <? MAX_CONCURRENT_JOBS)%Z
            then processNextJob_rec fuel' s1
            else s1
        end
  end.

Definition processNextJob (s : State) : State :=
  processNextJob_rec (S (queue_length (jobQueue s))) s.

(** *** [queueJob], lines 84-106

    The result is the reply or the message of the error thrown.  The
    [await] of [saveJob] sits before any access to the queue, so the call
    is one step of the model.  Line 90 pushes the caller's object; the
    model takes every call to pass an object of its own and lets that
    object enter the heap here, so a caller that submits one object twice
    is outside it, as it is outside the data model, where a [jobId] names
    one job. *)

Record QueueReply := mkQueueReply {
  reply_jobId : string;
  reply_status : Status;
  reply_estimatedTime : string
}.

Definition queueJob (job : Job) (saved : Response) (s : State)
  : State * (string + QueueReply) :=
  let s0 := call (SaveJob job) s in
  match saved with
  | throws msg =>
      (log_error (err_queue msg) s0, inl ("Failed to queue job: " +:+ msg))
  | _ =>
      match tier_of_key (priority job) with
      | None =>
          (log_error (err_queue (push_error (priority job))) s0,
           inl ("Failed to queue job: " +:+ push_error (priority job)))
      | Some t =>
          let r := length (heap s0) in
          let s1 := set_jobQueue (push t r (jobQueue s0)) (alloc job s0) in
          let s2 := if (active_count s1 <? MAX_CONCURRENT_JOBS)%Z
                    then processNextJob s1 else s1 in
          (s2, inr (mkQueueReply (jobId job)
                      (default (status job) (status <$> heap s2 !! r)) "30s"))
      end
  end.

(** *** [init], lines 36-70 *)

(** The body of the [forEach], lines 46-58. *)
Definition restore (s : State) (job : Job) : State :=
  let job' := if decide (status job = processing) then with_status queued job else job in
  let t := default normal (tier_of_key (priority job')) in
  set_jobQueue (push t (length (heap s)) (jobQueue s)) (alloc job' s).

Definition init (pending : string + list Job) (s : State) : State * bool :=
  let s0 := call GetPendingJobs s in
  match pending with
  | inr pendingJobs => (processNextJob (foldl restore s0 pendingJobs), true)
  | inl msg => (processNextJob (log_error (err_init msg) s0), false)
  end.

(** *** [cancelJob], lines 544-598 *)

(** [jobQueue[t].findIndex(job => job.jobId === jobId)] *)
Definition find_queued (id : string) (t : Tier) (s : State) : option nat :=
  findIndex (fun r => match heap s !! r with
                      | Some job => String.eqb (jobId job) id
                      | None => false
                      end)
            (tier t (jobQueue s)).

(** The [for] loop of lines 570-584: the first tier, in the order high,
    normal, low, that holds a job with this id. *)
Definition search_queue (id : string) (s : State) : option (Tier * nat) :=
  match find_queued id high s with
  | Some i => Some (high, i)
  | None =>
      match find_queued id normal s with
      | Some i => Some (normal, i)
      | None =>
          match find_queued id low s with
          | Some i => Some (low, i)
          | None => None
          end
      end
  end.

Definition add_cancel (c : CancelPC) (s : State) : State :=
  set_cancels (cancels s ++ [c]) s.

(** Up to the [await] of [updateJobStatus]. *)
Definition cancelJob (id : string) (s : State) : State :=
  match activeJobs s !! id with
  | Some r =>
      let s1 := modify_job r
                  (fun job => with_completedAt (now s)
                                (with_message "Job cancelled by user"
                                   (with_progress 0 (with_status cancelled job)))) s in
      match heap s1 !! r with
      | Some job =>
          add_cancel (cancel_active id r)
            (call (UpdateJobStatus (jobId job) cancelled (startedAt job) (completedAt job)) s1)
      | None => s1
      end
  | None =>
      match search_queue id s with
      | Some (t, index) =>
          match tier t (jobQueue s) !! index with
          | Some r =>
              let s1 := set_jobQueue
                          (set_tier t (delete index (tier t (jobQueue s))) (jobQueue s)) s in
              add_cancel cancel_queued
                (call (UpdateJobStatus
                         (default id (jobId <$> heap s !! r)) cancelled None (Some (now s)))
                      s1)
          | None => s
          end
      | None =>
          add_cancel cancel_unknown
            (call (UpdateJobStatus id cancelled None (Some (now s))) s)
      end
  end.

Definition cancel_return (k : nat) (success : bool) (msg : string) (s : State) : State :=
  set_cancels (<[k := cancel_returned success msg]> (cancels s)) s.

(** The [catch] of lines 594-597. *)
Definition cancel_failed (k : nat) (msg : string) (s : State) : State :=
  cancel_return k false ("Error cancelling job: " +:+ msg) (log_error (err_cancel msg) s).

(** From the [await] of [updateJobStatus] to the [return]. *)
Definition cancelJob_resume (k : nat) (resp : Response) (s : State) : option State :=
  match cancels s !! k with
  | Some (cancel_active id r) =>
      match resp with
      | throws msg => Some (cancel_failed k msg s)
      | _ =>
          let s1 := set_completedJobs (<[id := r]> (completedJobs s))
                      (set_activeJobs (delete id (activeJobs s)) s) in
          Some (cancel_return k true "Job cancelled successfully" (processNextJob s1))
      end
  | Some cancel_queued =>
      match resp with
      | throws msg => Some (cancel_failed k msg s)
      | _ => Some (cancel_return k true "Job cancelled successfully" s)
      end
  | Some cancel_unknown =>
      match resp with
      | throws msg => Some (cancel_failed k msg s)
      | resolves result =>
          if truthy result
          then Some (cancel_return k true "Job cancelled successfully" s)
          else Some (cancel_return k false "Job not found" s)
      | _ => Some (cancel_return k true "Job cancelled successfully" s)
      end
  | Some (cancel_returned _ _) | None => None
  end.

(** *** [processJob], lines 138-520, from one [await] to the next *)

Definition put_worker (k : nat) (w : Worker) (s : State) : State :=
  set_workers (<[k := w]> (workers s)) s.

(** The outer [catch], lines 516-519: log and rethrow.  Nothing else. *)
Definition reject (k : nat) (w : Worker) (msg : string) (s : State) : State :=
  put_worker k (at_pc (rejected ("Failed to process job: " +:+ msg)) w)
             (log_error (err_process msg) s).

(** [job.progress = p; job.message = m] *)
Definition set_progress (r : nat) (p : nat) (m : string) (s : State) : State :=
  modify_job r (fun job => with_message m (with_progress p job)) s.

(** Lines 157: the call the worker parks at after the first status write. *)
Definition ask_canResume (k : nat) (w : Worker) (s : State) : State :=
  match heap s !! w_job w with
  | Some job => put_worker k (at_pc at_canResumeJob w) (call (CanResumeJob (jobId job)) s)
  | None => s
  end.

(** Lines 199-203. *)
Definition start_discovery (k : nat) (w : Worker) (s : State) : State :=
  match heap s !! w_job w with
  | Some job =>
      put_worker k (at_pc at_discoverPages w)
        (call (DiscoverPages (domain job) (depth job) (jobId job) (discover_options job)) s)
  | None => s
  end.

(** The inner [catch] of lines 194-196, then on to discovery with
    [domainInfoId] still [null]. *)
Definition domain_info_failed (k : nat) (w : Worker) (msg : string) (s : State) : State :=
  start_discovery k w (log_error (err_domain_info msg) s).

(** Lines 276-282 and 494-500: the job is marked complete in memory, then
    the status write is issued. *)
Definition mark_complete (msg : string) (r : nat) (s : State) : State :=
  let s1 := modify_job r
              (fun job => with_completedAt (now s)
                            (with_message msg (with_progress 100 (with_status complete job)))) s in
  match heap s1 !! r with
  | Some job => call (UpdateJobStatus (jobId job) complete (startedAt job) (completedAt job)) s1
  | None => s1
  end.

(** Lines 285-297 and 503-515: publish, free the slot, dispatch. *)
Definition finish (k : nat) (w : Worker) (s : State) : State :=
  let s1 := job_update (w_job w) None s in
  let s2 := match heap s1 !! w_job w with
            | Some job =>
                set_completedJobs (<[jobId job := w_job w]> (completedJobs s1))
                  (set_activeJobs (delete (jobId job) (activeJobs s1)) s1)
            | None => s1
            end in
  processNextJob (put_worker k (at_pc returned w) s2).

(** Lines 207-272: no page was discovered. *)
Definition minimal_path (k : nat) (w : Worker) (s : State) : State :=
  match heap s !! w_job w with
  | Some job =>
      let w1 := with_results (minimalResults (domain job) (now s)) w in
      let s1 := job_update (w_job w) None
                  (set_progress (w_job w) 90 "Saving minimal results" s) in
      put_worker k (at_pc at_saveResults w1)
        (call (SaveResults (jobId job) (results w1)) s1)
  | None => s
  end.

(** Lines 360-363 and alike: [let data = null], then the call inside the
    [try]. *)
Definition run_extractor (k : nat) (e : Extractor) (w : Worker) (s : State) : State :=
  put_worker k (at_pc (at_extract e) (with_extractor_data e JNull w))
    (call (Extract e (pagesWithContent w) (extract_options e w)) s).

(** Lines 493-500. *)
Definition complete_job (k : nat) (w : Worker) (s : State) : State :=
  put_worker k (at_pc at_updateJobStatus_complete w)
    (mark_complete "Scrape completed" (w_job w) s).

(** Lines 424-491: after the last extractor. *)
Definition assemble (k : nat) (w : Worker) (s : State) : State :=
  match heap s !! w_job w with
  | Some job =>
      let s1 := job_update (w_job w) None
                  (set_progress (w_job w) 80 "Building final results" s) in
      let w1 := with_results (build_results (domain job) (now s) w) w in
      if truthy (domainInfoId w1)
      then put_worker k (at_pc at_query_update w1)
             (call (QueryUpdateDomainInfo (results w1) (domainInfoId w1)) s1)
      else complete_job k w1 s1
  | None => s
  end.

(** After an extractor's [try]/[catch]: the next one, or the assembly. *)
Definition after_extractor (k : nat) (e : Extractor) (w : Worker) (s : State) : State :=
  match next_extractor e with
  | Some e' => run_extractor k e' w s
  | None => assemble k w s
  end.

(** The continuation of worker [k] on the settlement [resp] of the
    promise it awaits.  The repository's queries resolve to rows.
    [discoverPages] resolves to an array of pages, as its contract says,
    or to one of the falsy values the guard of line 207 provides for.  A
    settlement no branch takes is a value of a shape the callee does not
    produce. *)
Definition processJob_resume (k : nat) (resp : Response) (s : State) : option State :=
  match workers s !! k with
  | None => None
  | Some w =>
      let r := w_job w in
      match w_pc w, resp with
      (* line 149, inside its own try *)
      | at_updateJobStatus_processing, throws msg =>
          Some (ask_canResume k w (log_error (err_update_status msg) s))
      | at_updateJobStatus_processing, resolves _ =>
          Some (ask_canResume k w s)
      (* line 157 *)
      | at_canResumeJob, throws msg => Some (reject k w msg s)
      | at_canResumeJob, resolves _ =>
          let s1 := job_update r None (set_progress r 10 "Discovering pages" s) in
          match heap s1 !! r with
          | Some job =>
              Some (put_worker k (at_pc at_query_select (with_domainInfoId JNull w))
                      (call (QuerySelectDomainInfo (domain job)) s1))
          | None => None
          end
      (* line 178 *)
      | at_query_select, throws msg => Some (domain_info_failed k w msg s)
      | at_query_select, resolves_rows [] =>
          match heap s !! r with
          | Some job =>
              Some (put_worker k (at_pc at_query_insert w)
                      (call (QueryInsertDomainInfo (domain job)) s))
          | None => None
          end
      | at_query_select, resolves_rows (row :: _) =>
          match get_field "id" row with
          | Some id => Some (start_discovery k (with_domainInfoId id w) s)
          | None => Some (domain_info_failed k w log_TypeError s)
          end
      (* line 186 *)
      | at_query_insert, throws msg => Some (domain_info_failed k w msg s)
      | at_query_insert, resolves result =>
          match get_field "insertId" result with
          | Some id => Some (start_discovery k (with_domainInfoId id w) s)
          | None => Some (domain_info_failed k w log_TypeError s)
          end
      (* line 199 *)
      | at_discoverPages, throws msg => Some (reject k w msg s)
      (* no array: line 204 reads [pages.length] before line 207 tests
         [!pages], so [null] and [undefined] throw and only the other
         falsy values reach the guard *)
      | at_discoverPages, resolves v =>
          if nullish v then Some (reject k w (length_TypeError v) s)
          else if truthy v then None
          else Some (minimal_path k (with_pages [] w) s)
      | at_discoverPages, resolves_pages [] => Some (minimal_path k (with_pages [] w) s)
      | at_discoverPages, resolves_pages (page :: ps) =>
          let s1 := job_update r None (set_progress r 30 "Extracting content" s) in
          Some (put_worker k
                  (at_pc at_extractPageContent
                     (with_pageContents [] (with_pages (page :: ps) w)))
                  (call (ExtractPageContent (url page)) s1))
      (* line 272, inside the try of lines 271-301 *)
      | at_saveResults, throws msg =>
          Some (reject k w ("Failed to save minimal results: " +:+ msg)
                  (log_error (err_minimal msg) s))
      | at_saveResults, resolves _ =>
          Some (put_worker k (at_pc at_updateJobStatus_minimal w)
                  (mark_complete "Scrape completed with minimal results" r s))
      (* line 282, inside the same try *)
      | at_updateJobStatus_minimal, throws msg =>
          Some (reject k w ("Failed to save minimal results: " +:+ msg)
                  (log_error (err_minimal msg) s))
      | at_updateJobStatus_minimal, resolves _ => Some (finish k w s)
      (* line 321, the body of the page loop *)
      | at_extractPageContent, throws msg => Some (reject k w msg s)
      | at_extractPageContent, resolves content =>
          let w1 := with_pageContents (pageContents w ++ [content]) w in
          let done := length (pageContents w1) in
          let total := length (pages w1) in
          let s1 := modify_job r
                      (with_progress (Nat.min (30 + floor_share done total) 60)) s in
          let s2 := job_update r
                      (Some ("Extracted content from " +:+ show_nat done +:+ " of "
                             +:+ show_nat total +:+ " pages")) s1 in
          match pages w1 !! done with
          | Some page =>
              Some (put_worker k w1 (call (ExtractPageContent (url page)) s2))
          | None =>
              let s3 := job_update r None
                          (set_progress r 60 "Extracting detailed information" s2) in
              Some (run_extractor k enhancedImageExtractor w1 s3)
          end
      (* lines 361-422: the six try/catch blocks *)
      | at_extract e, throws msg =>
          Some (after_extractor k e w (log_error (err_extractor e msg) s))
      | at_extract e, resolves v =>
          let w1 := with_extractor_data e v w in
          let s1 := if info_line_raises e v
                    then log_error (err_extractor e log_TypeError) s else s in
          Some (after_extractor k e w1 s1)
      (* line 482, inside its own try *)
      | at_query_update, throws msg =>
          Some (complete_job k w (log_error (err_store_data msg) s))
      | at_query_update, resolves _ => Some (complete_job k w s)
      | at_query_update, resolves_rows _ => Some (complete_job k w s)
      (* line 500 *)
      | at_updateJobStatus_complete, throws msg => Some (reject k w msg s)
      | at_updateJobStatus_complete, resolves _ => Some (finish k w s)
      | _, _ => None
      end
  end.

(** ** The event loop

    A label is one thing the event loop does: a request handler calls an
    exported function, or a suspended invocation is resumed with the
    settlement of the promise it awaits. *)

Inductive Label :=
| tick (t : string)                              (* the clock moves *)
| do_init (pending : string + list Job)
| do_queueJob (job : Job) (saved : Response)
| do_cancelJob (id : string)
| resume_cancelJob (k : nat) (resp : Response)
| resume_processJob (k : nat) (resp : Response).

Definition step (l : Label) (s : State) : option State :=
  match l with
  | tick t => Some (set_now t s)
  | do_init pending => Some (fst (init pending s))
  | do_queueJob job saved => Some (fst (queueJob job saved s))
  | do_cancelJob id => Some (cancelJob id s)
  | resume_cancelJob k resp => cancelJob_resume k resp s
  | resume_processJob k resp => processJob_resume k resp s
  end.

(** Run a schedule; [None] if some label was not enabled. *)
Fixpoint run (ls : list Label) (s : State) : option State :=
  match ls with
  | [] => Some s
  | l :: ls' => match step l s with
                | Some s' => run ls' s'
                | None => None
                end
  end.

Inductive reachable : State -> Prop :=
| reachable_initial : reachable initial_state
| reachable_step l s s' : reachable s -> step l s = Some s' -> reachable s'.

(** The callers keep to the data model: a submitted job is created with
    status [queued], and a [jobId] names one job only, whether the job
    is submitted or reloaded from the store. *)
Definition fresh_id (id : string) (s : State) : Prop :=
  forall job, job ∈ heap s -> jobId job <> id.

Definition admissible (l : Label) (s : State) : Prop :=
  match l with
  | do_queueJob job _ => status job = queued /\ fresh_id (jobId job) s
  | do_init (inr pendingJobs) =>
      NoDup (jobId <$> pendingJobs) /\
      forall job, job ∈ pendingJobs -> fresh_id (jobId job) s
  | _ => True
  end.

Inductive reachable_unique : State -> Prop :=
| reachable_unique_initial : reachable_unique initial_state
| reachable_unique_step l s s' :
    reachable_unique s -> admissible l s -> step l s = Some s' ->
    reachable_unique s'.

End Manager.


(** ** Jobs that read [processing] *)

(** The number of job objects whose status is [processing]. *)
Definition processing_count (s : State) : nat :=
  length (filter (fun job => status job = processing) (heap s)).

(** The ids and the statuses of the job objects, by reference. *)
Definition ids (s : State) : list string := jobId <$> heap s.
Definition statuses (s : State) : list Status := status <$> heap s.

(** The two awaits a worker reaches only after it has marked its job
    complete (lines 282 and 500). *)
Definition ends (pc : PC) : bool :=
  match pc with
  | at_updateJobStatus_minimal | at_updateJobStatus_complete => true
  | _ => false
  end.

(** How queue, active-job map, workers and pending cancellations hang
    together in a manager whose jobs have distinct ids. *)
Record consistent (s : State) : Prop := mkConsistent {
  ids_nodup : NoDup (ids s);
  processing_active :
    forall r, statuses s !! r = Some processing ->
              exists id, ids s !! r = Some id /\ activeJobs s !! id = Some r;
  queue_nodup : NoDup (queue_order (jobQueue s));
  queue_valid : forall r, r ∈ queue_order (jobQueue s) -> r < length (ids s);
  workers_started :
    forall k w, workers s !! k = Some w ->
                w_job w < length (ids s) /\ (w_job w ∉ queue_order (jobQueue s));
  workers_ending :
    forall k w, workers s !! k = Some w -> ends (w_pc w) = true ->
                statuses s !! w_job w <> Some processing;
  active_started :
    forall id r, activeJobs s !! id = Some r ->
                 (r ∉ queue_order (jobQueue s)) /\ ids s !! r = Some id;
  cancels_started :
    forall k id r, cancels s !! k = Some (cancel_active id r) ->
                   (r ∉ queue_order (jobQueue s)) /\ ids s !! r = Some id /\
                   statuses s !! r <> Some processing
}.

(** A job object no queue, worker, map entry or pending cancellation
    refers to. *)
Definition parked (r : nat) (s : State) : Prop :=
  r < length (heap s) /\
  (r ∉ queue_order (jobQueue s)) /\
  (forall k w, workers s !! k = Some w -> w_job w <> r) /\
  (forall id r', activeJobs s !! id = Some r' -> r' <> r) /\
  (forall k id r', cancels s !! k = Some (cancel_active id r') -> r' <> r).

(** ** Schedules of the extractor stage *)

Definition all_extractors : list Extractor :=
  [enhancedImageExtractor; socialMediaExtractor; blogExtractor;
   colorExtractor; generalExtractor; isbnExtractor].

(** Worker [k] is resumed six times, each extractor [e] settling to
    [outs e]. *)
Definition extractor_stage (k : nat) (outs : Extractor -> Response) : list Label :=
  (fun e => resume_processJob k (outs e)) <$> all_extractors.

(** A promise either rejects or resolves to a value. *)
Definition settles (resp : Response) : Prop :=
  match resp with throws _ | resolves _ => True | _ => False end.

(** What an extractor leaves in its variable. *)
Definition outcome (resp : Response) : jsval :=
  match resp with resolves v => v | _ => JNull end.

(** The worker after the [try]/[catch] around extractor [e]. *)
Definition absorb (e : Extractor) (resp : Response) (w : Worker) : Worker :=
  match resp with
  | resolves v => with_extractor_data e v w
  | _ => w
  end.

(** One round of the extractor stage on the variables of the worker:
    [let data = null], the call, the [try]/[catch]. *)
Definition round (e : Extractor) (resp : Response) (w : Worker) : Worker :=
  absorb e resp (at_pc (at_extract e) (with_extractor_data e JNull w)).

(** The error line, if any, the [try]/[catch] around extractor [e] writes. *)
Definition note (e : Extractor) (resp : Response) (s : State) : State :=
  match resp with
  | throws msg => log_error (err_extractor e msg) s
  | resolves v =>
      if info_line_raises e v then log_error (err_extractor e log_TypeError) s else s
  | _ => s
  end.

(** The rank of a tier in the order [processNextJob] looks at them. *)
Definition tier_rank (t : Tier) : nat :=
  match t with high => 0 | normal => 1 | low => 2 end.

(** ** The discovery service and its cooldown

    [processJob] only calls [discoverPages]; the service itself is another
    module of the repository. *)

(** Modelled from the spec: what the discovery service keeps between
    crawls (section 4.3): per domain the time of the last crawl, in
    minutes, and the page set it stored; and the urls it has fetched over
    the network so far. *)
Record Discovery := mkDiscovery {
  lastCrawl : gmap string nat;
  storedPages : gmap string (list Page);
  fetched : list string
}.

(** Modelled from the spec: the domain was crawled within
    [cooldownMinutes] (section 4.3). *)
Definition in_cooldown (opts : DiscoverOptions) (dom : string) (nowMin : nat)
    (d : Discovery) : bool :=
  match lastCrawl d !! dom with
  | Some t => (nowMin - t <? cooldownMinutes opts)%nat
  | None => false
  end.

(** Modelled from the spec: [discoverPages] of the discovery service
    (src/services/discoveryService.js is not among the sources).  Section
    4.3: if the domain was crawled within [cooldownMinutes] and
    [bypassCooldown] is false, discovery yields the previously stored page
    set, or an empty set if none, rather than re-fetching; otherwise it
    crawls.  [crawl] is the crawler proper, bounded by depth and
    [maxPages]. *)
Definition discoverPages (crawl : string -> nat -> nat -> list Page)
    (dom : string) (dep : nat) (opts : DiscoverOptions) (nowMin : nat)
    (d : Discovery) : list Page * Discovery :=
  if negb (bypassCooldown opts) && in_cooldown opts dom nowMin d
  then (default [] (storedPages d !! dom), d)
  else
    let ps := crawl dom dep (opt_maxPages opts) in
    (ps, mkDiscovery (<[dom := nowMin]> (lastCrawl d))
                     (<[dom := ps]> (storedPages d))
                     (fetched d ++ map url ps)).

(** A call that, if it is a [discoverPages], asks to bypass the cooldown. *)
Definition bypasses (c : Call) : Prop :=
  match c with
  | DiscoverPages _ _ _ opts => bypassCooldown opts = true /\ cooldownMinutes opts = 5
  | _ => True
  end.

(** ** Sample runs *)

(** A socket server that delivers everything. *)
Definition delivering_io : option (string -> Event -> bool) :=
  Some (fun _ _ => true).

(** The share of line 325 in exact arithmetic. *)
Definition exact_share (done total : nat) : nat := done * 30 / total.

Definition sample_job (id tierName : string) : Job :=
  mkJob id (id +:+ ".example") 2 tierName None queued 0 "" None None.

Definition settled : Response := resolves JUndefined.

(** The labels that carry worker [k] from its dispatch to the end of the
    run of a domain on which discovery finds nothing. *)
Definition complete_minimal (k : nat) : list Label :=
  [resume_processJob k settled;                       (* updateJobStatus *)
   resume_processJob k (resolves (JBool false));      (* canResumeJob *)
   resume_processJob k (resolves_rows [JObj [("id", JNum 7)]]);
   resume_processJob k (resolves_pages []);           (* discoverPages *)
   resume_processJob k settled;                       (* saveResults *)
   resume_processJob k settled].                      (* updateJobStatus *)

(** H1 (high), N1 (normal), H2 (high) are submitted in this order to a
    manager with one slot, and each job is completed once dispatched. *)
Definition three_submissions : list Label :=
  [do_queueJob (sample_job "H1" "high") settled;
   do_queueJob (sample_job "N1" "normal") settled;
   do_queueJob (sample_job "H2" "high") settled].

Definition priority_schedule : list Label :=
  three_submissions ++ complete_minimal 0 ++ complete_minimal 1 ++ complete_minimal 2.

(** L1 (low) takes the only slot; N1 (normal), L2 (low), H1 (high) and
    N2 (normal) are submitted in this order while it runs; then each job
    is completed once dispatched. *)
Definition five_submissions : list Label :=
  [do_queueJob (sample_job "L1" "low") settled;
   do_queueJob (sample_job "N1" "normal") settled;
   do_queueJob (sample_job "L2" "low") settled;
   do_queueJob (sample_job "H1" "high") settled;
   do_queueJob (sample_job "N2" "normal") settled].

Definition tiered_schedule : list Label :=
  five_submissions ++ complete_minimal 0 ++ complete_minimal 1 ++
  complete_minimal 2 ++ complete_minimal 3 ++ complete_minimal 4.

(** The ids of the jobs in the order [processJob] was called on them. *)
Definition dispatch_order (s : State) : list string :=
  omap (fun w => jobId <$> heap s !! w_job w) (workers s).

(** Jobs A and B on one slot; no page is found for A and the store refuses
    A's results (line 272 throws). *)
Definition store_failure_schedule : list Label :=
  [do_queueJob (sample_job "A" "normal") settled;
   do_queueJob (sample_job "B" "normal") settled;
   resume_processJob 0 settled;
   resume_processJob 0 (resolves (JBool false));
   resume_processJob 0 (resolves_rows [JObj [("id", JNum 7)]]);
   resume_processJob 0 (resolves_pages []);
   resume_processJob 0 (throws "db down")].

Definition sample_page : Page := mkPage "https://a.example/" (JStr "Home").

(** Job A is dispatched and awaits discovery. *)
Definition before_cancel : list Label :=
  [do_queueJob (sample_job "A" "normal") settled;
   resume_processJob 0 settled;
   resume_processJob 0 (resolves (JBool false));
   resume_processJob 0 (resolves_rows [JObj [("id", JNum 7)]])].

(** A is cancelled and [cancelJob] returns. *)
Definition cancel_A : list Label :=
  [do_cancelJob "A"; resume_cancelJob 0 settled].

(** Then discovery settles with one page and every later promise
    resolves. *)
Definition after_cancel : list Label :=
  [resume_processJob 0 (resolves_pages [sample_page]);
   resume_processJob 0 (resolves (JObj [("content", JStr "<html></html>")]));
   resume_processJob 0 (resolves (JObj [("all", JArr []); ("byCategory", JObj [])]));
   resume_processJob 0 (resolves (JObj [("links", JObj [])]));
   resume_processJob 0 (resolves (JObj [("hasBlog", JBool false)]));
   resume_processJob 0 (resolves default_colors);
   resume_processJob 0 (resolves (JObj []));
   resume_processJob 0 (resolves default_isbn);
   resume_processJob 0 settled;                       (* UPDATE domain_info *)
   resume_processJob 0 settled].                      (* updateJobStatus *)


(** The extractors called so far, in call order. *)
Definition extractors_called (s : State) : list Extractor :=
  omap (fun c => match c with Extract e _ _ => Some e | _ => None end) (calls s).

(** The events delivered for a job. *)
Definition events_of (id : string) (s : State) : list Event :=
  pub_data <$> filter (fun p => pub_room p = "job-" +:+ id) (published s).

(** The domain of job A was crawled at minute 100 and its page set is
    stored. *)
Definition recent_crawl : Discovery :=
  mkDiscovery {["A.example" := 100]} {["A.example" := [sample_page]]} [].

Definition fresh_page : Page := mkPage "https://a.example/new" (JStr "New").

(** Job A holds the only slot in use and awaits discovery. *)
Definition discovering_job : Job :=
  mkJob "A" "A.example" 2 "normal" None processing 10 "Discovering pages"
        (Some "2024-05-01T10:00:00.000Z") None.

Definition discovering_state : State :=
  mkState [discovering_job] (mkQueue [] [] []) {["A" := 0]} ∅
          [at_pc at_discoverPages (new_worker 0)] [] [] [] []
          "2024-05-01T10:00:05.000Z".

(** Job A has one page fetched and is about to run the extractors. *)
Definition extracting_job : Job :=
  mkJob "A" "A.example" 2 "normal" None processing 60
        "Extracting detailed information" (Some "2024-05-01T10:00:00.000Z") None.

Definition extracting_worker : Worker :=
  with_pageContents [JObj [("content", JStr "<html></html>")]]
    (with_pages [sample_page] (with_domainInfoId (JNum 7) (new_worker 0))).

Definition extracting_state : State :=
  mkState [extracting_job] (mkQueue [] [] []) {["A" := 0]} ∅
          [at_pc at_extractPageContent extracting_worker] [] [] [] []
          "2024-05-01T10:00:09.000Z".

(** The color extractor throws, the other five return objects. *)
Definition color_fails (e : Extractor) : Response :=
  match e with
  | enhancedImageExtractor =>
      resolves (JObj [("all", JArr [JStr "logo.png"]); ("byCategory", JObj [])])
  | socialMediaExtractor => resolves (JObj [("links", JObj [])])
  | blogExtractor => resolves (JObj [("hasBlog", JBool true); ("articles", JArr [])])
  | colorExtractor => throws "malformed css"
  | generalExtractor => resolves (JObj [("prominentLinks", JArr [])])
  | isbnExtractor => resolves (JObj [("isbns", JArr []); ("isbnImages", JArr [])])
  end.

Definition sample_crawl (dom : string) (dep maxp : nat) : list Page :=
  [sample_page; fresh_page].

(** ** [getJobStatus], lines 523-541

    The two maps are looked at before the repository is asked; a job found
    in memory is returned as the object itself.  The [logger.error] line of
    the [catch] is left out. *)

Inductive JobStatusReply :=
| job_object (r : nat)            (* lines 527 and 531 *)
| stored_status (v : jsval).      (* line 536 *)

(** [stored] is what the promise of [domainDataRepository.getJobStatus]
    settles to, should the call be made: the message of the rejection, or
    the value. *)
Definition getJobStatus (id : string) (stored : string + jsval) (s : State)
  : string + JobStatusReply :=
  match activeJobs s !! id with
  | Some r => inr (job_object r)
  | None =>
      match completedJobs s !! id with
      | Some r => inr (job_object r)
      | None =>
          match stored with
          | inr jobStatus => inr (stored_status jobStatus)
          | inl msg => inl ("Failed to get job status: " +:+ msg)
          end
      end
  end.

(** ** [extractContent], lines 613-671

    Nine blocks of the same shape: if [extractors] includes a name, call a
    module on [pages] and store what it resolves to.  One [try] spans all
    of them, and its [catch] logs and rethrows. *)

Inductive ContentExtractor :=
| pipeline_extractor (e : Extractor)   (* one of the six [processJob] runs *)
| videoExtractor
| appExtractor
| podcastExtractor.

(** [extractors.includes(name)] on an array of strings. *)
Definition includes (name : string) (extractors : list string) : bool :=
  bool_decide (name ∈ extractors).

(** One block: the names that ask for it, the module it calls, and the
    assignments to [results]; [None] is the TypeError of reading a
    property of [null] or [undefined]. *)
Record Selection := mkSelection {
  sel_names : list string;
  sel_module : ContentExtractor;
  sel_store : jsval -> option (list (string * jsval))
}.

(** [results.key = value] *)
Definition store_under (key : string) (value : jsval) : option (list (string * jsval)) :=
  Some [(key, value)].

(** Lines 651-653: [results.isbnData = isbnData.isbns] and
    [results.isbnImages = isbnData.images]. *)
Definition store_isbn (isbnData : jsval) : option (list (string * jsval)) :=
  match get_field "isbns" isbnData, get_field "images" isbnData with
  | Some isbns, Some images => Some [("isbnData", isbns); ("isbnImages", images)]
  | _, _ => None
  end.

(** The blocks in the order of the source. *)
Definition selections : list Selection :=
  [mkSelection ["general"] (pipeline_extractor generalExtractor)
               (store_under "general");                         (* 620-622 *)
   mkSelection ["blog"] (pipeline_extractor blogExtractor)
               (store_under "blog");                            (* 625-627 *)
   mkSelection ["images"] (pipeline_extractor enhancedImageExtractor)
               (store_under "images");                          (* 630-632 *)
   mkSelection ["colors"] (pipeline_extractor colorExtractor)
               (store_under "colors");                          (* 635-637 *)
   mkSelection ["social"] (pipeline_extractor socialMediaExtractor)
               (store_under "socialMedia");                     (* 640-642 *)
   mkSelection ["videos"] videoExtractor (store_under "videos");  (* 645-647 *)
   mkSelection ["isbn"] (pipeline_extractor isbnExtractor) store_isbn;  (* 650-654 *)
   mkSelection ["apps"] appExtractor (store_under "apps");      (* 657-659 *)
   mkSelection ["rss"; "podcast"] podcastExtractor
               (store_under "podcastInfo")].                    (* 662-664 *)

Definition wanted (extractors : list string) (sel : Selection) : bool :=
  existsb (fun name => includes name extractors) (sel_names sel).

(** The blocks [sels] run one after the other on the [results] built so
    far; [called] lists the modules called.  The outcome is the message of
    the error the [catch] rethrows, or the properties of [results]. *)
Fixpoint extractContent_blocks (sels : list Selection) (extractors : list string)
    (outs : ContentExtractor -> string + jsval)
    (called : list ContentExtractor) (results : list (string * jsval))
  : list ContentExtractor * (string + list (string * jsval)) :=
  match sels with
  | [] => (called, inr results)
  | sel :: sels' =>
      if wanted extractors sel then
        match outs (sel_module sel) with
        | inl msg => ((called ++ [sel_module sel])%list, inl msg)
        | inr v =>
            match sel_store sel v with
            | Some fields =>
                extractContent_blocks sels' extractors outs
                  (called ++ [sel_module sel])%list (results ++ fields)%list
            | None => ((called ++ [sel_module sel])%list, inl log_TypeError)
            end
        end
      else extractContent_blocks sels' extractors outs called results
  end.

(** [outs m] is what the promise of module [m] settles to; every module
    is called on [pages].  The result lists the modules called and gives
    the error thrown or the object returned. *)
Definition extractContent (dom : string) (extractors : list string)
    (outs : ContentExtractor -> string + jsval)
  : list ContentExtractor * (string + jsval) :=
  let (called, outcome) :=
    extractContent_blocks selections extractors outs [] [("domain", JStr dom)] in
  (called, match outcome with
           | inl msg => inl msg
           | inr results => inr (JObj results)
           end).

(** ** The manager without its logs *)

(** A state with the list of delivered events and the error log blanked:
    what is left is all the manager itself ever reads. *)
Definition quiet (s : State) : State :=
  mkState (heap s) (jobQueue s) (activeJobs s) (completedJobs s) (workers s)
          (cancels s) [] (calls s) [] (now s).

(** ** Milestones of the progress figure *)

(** The highest [progress] the worker has written to its job by the time
    it is parked at an [await] (at the first two awaits: the figure it is
    about to write). *)
Definition milestone (floor_share : nat -> nat -> nat) (w : Worker) : nat :=
  match w_pc w with
  | at_updateJobStatus_processing | at_canResumeJob
  | at_query_select | at_query_insert | at_discoverPages => 10
  | at_extractPageContent =>
      match pageContents w with
      | [] => 30
      | _ => Nat.min (30 + floor_share (length (pageContents w)) (length (pages w))) 60
      end
  | at_extract _ => 60
  | at_query_update => 80
  | at_saveResults => 90
  | at_updateJobStatus_minimal | at_updateJobStatus_complete
  | returned | rejected _ => 100
  end.

(** The job object as [init] enqueues it (lines 47-51), and the tier it
    goes to (lines 54-57). *)
Definition requeued (job : Job) : Job :=
  if decide (status job = processing) then with_status queued job else job.

Definition restore_tier (job : Job) : Tier :=
  default normal (tier_of_key (priority job)).

(** The job objects waiting in a tier, front to back. *)
Definition waiting (t : Tier) (s : State) : list Job :=
  omap (fun r => heap s !! r) (tier t (jobQueue s)).

(** An event a worker may publish: on the channel of its job, under the
    name [job-update], with one of the three statuses a started job can
    have. *)
Definition well_addressed (p : Publication) : Prop :=
  pub_event p = "job-update" /\ pub_room p = "job-" +:+ ev_jobId (pub_data p).

Definition started_status (st : Status) : Prop :=
  st = processing \/ st = cancelled \/ st = complete.

(** What [completedJobs] holds is no longer queued. *)
Definition completed_started (s : State) : Prop :=
  forall id r, completedJobs s !! id = Some r ->
               (r ∉ queue_order (jobQueue s)) /\ ids s !! r = Some id.

(** The awaits of [processJob] that stand inside a [try] of their own
    (lines 148-153, 176-196, 361-422 and 480-490). *)
Definition guarded (pc : PC) : bool :=
  match pc with
  | at_updateJobStatus_processing | at_query_select | at_query_insert
  | at_extract _ | at_query_update => true
  | _ => false
  end.

(** Every invocation of [processJob] holds a job object, and the status
    of that object is one a started job can have. *)
Definition workers_hold_started_jobs (s : State) : Prop :=
  forall k w, workers s !! k = Some w ->
              exists st, statuses s !! w_job w = Some st /\ started_status st.

Definition event_ok (p : Publication) : Prop :=
  well_addressed p /\ started_status (ev_status (pub_data p)).

(** [modify_job] on the job objects alone. *)
Definition heap_modify (r : nat) (f : Job -> Job) (h : list Job) : list Job :=
  match h !! r with
  | Some j => <[r := f j]> h
  | None => h
  end.

(** The job objects that wait or have been handed to [processJob], and
    what the manager keeps of them: no object occurs twice, and each is
    an object of the heap. *)
Definition handled (s : State) : list nat :=
  queue_order (jobQueue s) ++ (w_job <$> workers s).

Definition handled_once (s : State) : Prop :=
  NoDup (handled s) /\ forall r, r ∈ handled s -> r < length (heap s).

(** The ids of these job objects, in the same order. *)
Definition handled_ids (s : State) : list string :=
  omap (fun r => ids s !! r) (handled s).

(** ** The polling loop of [queue-domain.js], lines 41-84

    [pollJobStatus] asks the service for the status of a job every five
    seconds.  An answer is the message of the error thrown by [fetch] or
    by the parsing of the body, or [data], the parsed body. *)

(** Line 59: the statuses that end the polling. *)
Definition ends_polling (st : jsval) : bool :=
  match st with
  | JStr st => String.eqb st "complete" || String.eqb st "failed"
               || String.eqb st "cancelled"
  | _ => false
  end.

(** Line 62. *)
Definition is_complete (st : jsval) : bool :=
  match st with
  | JStr st => String.eqb st "complete"
  | _ => false
  end.

Record PollResult := mkPollResult {
  attempts : nat;                  (* [attempts] when the loop is left *)
  final_status : option jsval;     (* the status that ended it; [None]: line 82 *)
  results_fetched : bool           (* [getJobResults] was called, line 64 *)
}.

Definition maxAttempts : nat := 60.

(** The [while] of lines 48-79, with [left] for [maxAttempts - attempts]:
    every turn adds one to [attempts], in the [try] (line 73) or in the
    [catch] (line 76).  [answers i] is the answer to the poll made when
    [attempts] is [i]. *)
Fixpoint pollJobStatus_loop (left attempts : nat) (answers : nat -> string + jsval)
  : PollResult :=
  match left with
  | 0 => mkPollResult attempts None false
  | S left' =>
      match answers attempts with
      | inl _ => pollJobStatus_loop left' (S attempts) answers
      | inr data =>
          match get_field "status" data with
          | None => pollJobStatus_loop left' (S attempts) answers   (* line 57 throws *)
          | Some st =>
              if ends_polling st
              then mkPollResult (S attempts) (Some st) (is_complete st)
              else pollJobStatus_loop left' (S attempts) answers
          end
      end
  end.

Definition pollJobStatus (answers : nat -> string + jsval) : PollResult :=
  pollJobStatus_loop maxAttempts 0 answers.

(** The status with which an answer ends the polling, if it does. *)
Definition ending (a : string + jsval) : option jsval :=
  match a with
  | inl _ => None
  | inr data =>
      match get_field "status" data with
      | Some st => if ends_polling st then Some st else None
      | None => None
      end
  end.

(** ** The polling loop of the test script, lines 39-65

    [testScraping] polls in the same rhythm, but its loop stands in no
    [try] of its own, ends on [complete] and [failed] only, and counts
    the polls that did not end it. *)

(** Line 53. *)
Definition ends_test (st : jsval) : bool :=
  match st with
  | JStr st => String.eqb st "complete" || String.eqb st "failed"
  | _ => false
  end.

Inductive TestOutcome :=
| test_failed (msg : string)                 (* the outer [catch] *)
| timed_out                                  (* lines 62-65 *)
| results_requested (st : jsval) (polled : nat).  (* on to step 3 *)

Fixpoint testScraping_loop (left attempts : nat) (answers : nat -> string + jsval)
  : TestOutcome :=
  match left with
  | 0 => timed_out
  | S left' =>
      match answers attempts with
      | inl msg => test_failed msg
      | inr status =>
          match get_field "status" status with
          | None => test_failed log_TypeError              (* line 47 throws *)
          | Some st =>
              if ends_test st then results_requested st attempts
              else testScraping_loop left' (S attempts) answers
          end
      end
  end.

Definition testScraping_poll (answers : nat -> string + jsval) : TestOutcome :=
  testScraping_loop maxAttempts 0 answers.

(** An answer after which the test polls again. *)
Definition polls_again (a : string + jsval) : bool :=
  match a with
  | inl _ => false
  | inr status =>
      match get_field "status" status with
      | Some st => negb (ends_test st)
      | None => false
      end
  end.

(** What the test does on an answer after which it does not poll again. *)
Definition test_outcome (a : string + jsval) (polled : nat) : TestOutcome :=
  match a with
  | inl msg => test_failed msg
  | inr status =>
      match get_field "status" status with
      | Some st => results_requested st polled
      | None => test_failed log_TypeError
      end
  end.

(** ** More sample data *)

(** Three jobs as the store returns them after a restart: A was running
    when the service stopped, and the priority of C names no tier. *)
Definition pending_jobs : list Job :=
  [with_status processing (sample_job "A" "low");
   sample_job "B" "high";
   sample_job "C" "urgent"].

(** The manager after the loop of [init] over [pending_jobs], before the
    dispatcher runs. *)
Definition reloaded : State := foldl restore initial_state pending_jobs.

Definition two_submissions : list Label :=
  [do_queueJob (sample_job "H1" "high") settled;
   do_queueJob (sample_job "N1" "normal") settled].

(** Every module returns an empty object, except that the color
    extractor throws. *)
Definition all_resolve (m : ContentExtractor) : string + jsval := inr (JObj []).

Definition colors_throw (m : ContentExtractor) : string + jsval :=
  match m with
  | pipeline_extractor colorExtractor => inl "malformed css"
  | _ => inr (JObj [])
  end.

(** Job A has run to its end: it is in [completedJobs], its worker has
    returned and the slot is free. *)
Definition finished_job : Job :=
  mkJob "A" "A.example" 2 "normal" None complete 100
        "Scrape completed with minimal results"
        (Some "2024-05-01T10:00:00.000Z") (Some "2024-05-01T10:00:10.000Z").

Definition finished_state : State :=
  mkState [finished_job] (mkQueue [] [] []) ∅ {["A" := 0]}
          [at_pc returned (new_worker 0)] [] [] [] []
          "2024-05-01T10:00:11.000Z".

(** What a job asks for: the fields a caller sets and the pipeline
    reads. *)
Definition request (job : Job) : string * string * nat * string * option nat :=
  (jobId job, domain job, depth job, priority job, maxPages job).

Definition requests (s : State) : list (string * string * nat * string * option nat) :=
  request <$> heap s.

(** Job A awaits discovery on one of two slots, and its object stands in
    the normal tier once more. *)
Definition resubmitted_state : State :=
  mkState [discovering_job] (mkQueue [] [0] []) {["A" := 0]} ∅
          [at_pc at_discoverPages (new_worker 0)] [] [] [] []
          "2024-05-01T10:00:05.000Z".

(** A service that answers [processing] twice and then [st]. *)
Definition then_status (st : string) (i : nat) : string + jsval :=
  inr (JObj [("status", JStr (if (i <? 2)%nat then "processing" else st))]).

(** * Properties *)

(** ** What each operation leaves alone *)

Section Frames.

Variable global_io : option (string -> Event -> bool).

Local Abbreviation emitSocketEvent := (emitSocketEvent global_io).
Local Abbreviation job_update := (job_update global_io).


(** Publishing touches the list of delivered events and the error log,
    nothing else: whatever the socket server does, the caller goes on. *)
Lemma emitSocketEvent_frame room event data s :
  let s' := emitSocketEvent room event data s in
  heap s' = heap s /\ jobQueue s' = jobQueue s /\ activeJobs s' = activeJobs s /\
  completedJobs s' = completedJobs s /\ workers s' = workers s /\
  cancels s' = cancels s /\ calls s' = calls s /\ now s' = now s.
Proof.
  unfold emitSocketEvent. destruct global_io as [emit|]; simpl.
  - destruct (emit room data); simpl; repeat split.
  - repeat split.
Qed.

Lemma job_update_frame r msg s :
  let s' := job_update r msg s in
  heap s' = heap s /\ jobQueue s' = jobQueue s /\ activeJobs s' = activeJobs s /\
  completedJobs s' = completedJobs s /\ workers s' = workers s /\
  cancels s' = cancels s /\ calls s' = calls s /\ now s' = now s.
Proof.
  unfold job_update. destruct (heap s !! r) as [j|].
  - apply emitSocketEvent_frame.
  - simpl. repeat split.
Qed.

Lemma job_update_heap r msg s : heap (job_update r msg s) = heap s.
Proof. apply job_update_frame. Qed.
Lemma job_update_jobQueue r msg s : jobQueue (job_update r msg s) = jobQueue s.
Proof. apply job_update_frame. Qed.
Lemma job_update_activeJobs r msg s : activeJobs (job_update r msg s) = activeJobs s.
Proof. apply job_update_frame. Qed.
Lemma job_update_completedJobs r msg s :
  completedJobs (job_update r msg s) = completedJobs s.
Proof. apply job_update_frame. Qed.
Lemma job_update_workers r msg s : workers (job_update r msg s) = workers s.
Proof. apply job_update_frame. Qed.
Lemma job_update_cancels r msg s : cancels (job_update r msg s) = cancels s.
Proof. apply job_update_frame. Qed.
Lemma job_update_calls r msg s : calls (job_update r msg s) = calls s.
Proof. apply job_update_frame. Qed.
Lemma job_update_now r msg s : now (job_update r msg s) = now s.
Proof. apply job_update_frame. Qed.

Lemma modify_job_eq r f s j :
  heap s !! r = Some j -> modify_job r f s = set_heap (<[r := f j]> (heap s)) s.
Proof. intros H. unfold modify_job. rewrite H. reflexivity. Qed.

Lemma modify_job_heap r f s j :
  heap s !! r = Some j -> heap (modify_job r f s) = <[r := f j]> (heap s).
Proof. intros H. rewrite (modify_job_eq _ _ _ _ H). reflexivity. Qed.

Lemma modify_job_lookup r f s j :
  heap s !! r = Some j -> heap (modify_job r f s) !! r = Some (f j).
Proof.
  intros H. rewrite (modify_job_heap _ _ _ _ H).
  apply list_lookup_insert_eq. eapply lookup_lt_Some; eauto.
Qed.

Lemma modify_job_frame r f s :
  let s' := modify_job r f s in
  jobQueue s' = jobQueue s /\ activeJobs s' = activeJobs s /\
  completedJobs s' = completedJobs s /\ workers s' = workers s /\
  cancels s' = cancels s /\ published s' = published s /\
  calls s' = calls s /\ errors s' = errors s /\ now s' = now s.
Proof. unfold modify_job. destruct (heap s !! r); simpl; repeat split. Qed.

Lemma modify_job_jobQueue r f s : jobQueue (modify_job r f s) = jobQueue s.
Proof. apply modify_job_frame. Qed.
Lemma modify_job_activeJobs r f s : activeJobs (modify_job r f s) = activeJobs s.
Proof. apply modify_job_frame. Qed.
Lemma modify_job_completedJobs r f s :
  completedJobs (modify_job r f s) = completedJobs s.
Proof. apply modify_job_frame. Qed.
Lemma modify_job_workers r f s : workers (modify_job r f s) = workers s.
Proof. apply modify_job_frame. Qed.
Lemma modify_job_cancels r f s : cancels (modify_job r f s) = cancels s.
Proof. apply modify_job_frame. Qed.
Lemma modify_job_published r f s : published (modify_job r f s) = published s.
Proof. apply modify_job_frame. Qed.
Lemma modify_job_calls r f s : calls (modify_job r f s) = calls s.
Proof. apply modify_job_frame. Qed.
Lemma modify_job_errors r f s : errors (modify_job r f s) = errors s.
Proof. apply modify_job_frame. Qed.
Lemma modify_job_now r f s : now (modify_job r f s) = now s.
Proof. apply modify_job_frame. Qed.

Lemma modify_job_length r f s : length (heap (modify_job r f s)) = length (heap s).
Proof.
  unfold modify_job. destruct (heap s !! r); [|reflexivity].
  simpl. apply length_insert.
Qed.

End Frames.

Lemma note_frame e resp s :
  let s' := note e resp s in
  heap s' = heap s /\ jobQueue s' = jobQueue s /\ activeJobs s' = activeJobs s /\
  completedJobs s' = completedJobs s /\ workers s' = workers s /\
  cancels s' = cancels s /\ published s' = published s /\
  calls s' = calls s /\ now s' = now s.
Proof.
  unfold note. destruct resp; try destruct (info_line_raises e v); simpl;
    repeat split.
Qed.

Lemma note_heap e resp s : heap (note e resp s) = heap s.
Proof. apply note_frame. Qed.
Lemma note_workers e resp s : workers (note e resp s) = workers s.
Proof. apply note_frame. Qed.
Lemma note_now e resp s : now (note e resp s) = now s.
Proof. apply note_frame. Qed.
Lemma note_calls e resp s : calls (note e resp s) = calls s.
Proof. apply note_frame. Qed.
Lemma note_published e resp s : published (note e resp s) = published s.
Proof. apply note_frame. Qed.

Lemma round_w_job e resp w : w_job (round e resp w) = w_job w.
Proof. destruct resp; reflexivity. Qed.
Lemma round_domainInfoId e resp w : domainInfoId (round e resp w) = domainInfoId w.
Proof. destruct resp; reflexivity. Qed.
Lemma round_pages e resp w : pages (round e resp w) = pages w.
Proof. destruct resp; reflexivity. Qed.

(** A round assigns the variable of its own extractor and no other. *)
Lemma round_extractor_data e e' resp w :
  extractor_data e (round e' resp w) =
  if decide (e = e') then outcome resp else extractor_data e w.
Proof. destruct e, e', resp; reflexivity. Qed.

Lemma run_extractor_heap k e w s : heap (run_extractor k e w s) = heap s.
Proof. reflexivity. Qed.
Lemma run_extractor_now k e w s : now (run_extractor k e w s) = now s.
Proof. reflexivity. Qed.
Lemma run_extractor_length k e w s :
  length (workers (run_extractor k e w s)) = length (workers s).
Proof. apply length_insert. Qed.

Create Rewrite HintDb frame.
#[global] Hint Rewrite note_heap note_workers note_now note_calls note_published
  round_w_job round_domainInfoId round_pages round_extractor_data
  run_extractor_heap run_extractor_now run_extractor_length : frame.

#[global] Hint Rewrite job_update_heap job_update_jobQueue job_update_activeJobs
  job_update_completedJobs job_update_workers job_update_cancels
  job_update_calls job_update_now
  modify_job_jobQueue modify_job_activeJobs modify_job_completedJobs
  modify_job_workers modify_job_cancels modify_job_published modify_job_calls
  modify_job_errors modify_job_now modify_job_length : frame.

(** Project a field out of a composition of the operations above. *)
Ltac frame :=
  unfold set_progress;
  repeat (progress
    (cbn [heap jobQueue activeJobs completedJobs workers cancels published
          calls errors now
          set_heap set_jobQueue set_activeJobs set_completedJobs set_workers
          set_cancels set_published set_now call log_error alloc
          put_worker add_cancel cancel_return cancel_failed reject];
     autorewrite with frame)).

Ltac unfold_worker :=
  unfold ask_canResume, domain_info_failed, start_discovery, minimal_path,
    run_extractor, after_extractor, assemble, complete_job, mark_complete.


Section Properties.

Variable MAX_CONCURRENT_JOBS : Z.
Variable global_io : option (string -> Event -> bool).
Variable floor_share : nat -> nat -> nat.

Local Abbreviation emitSocketEvent := (emitSocketEvent global_io).
Local Abbreviation job_update := (job_update global_io).
Local Abbreviation processNextJob_rec := (processNextJob_rec MAX_CONCURRENT_JOBS).
Local Abbreviation processNextJob := (processNextJob MAX_CONCURRENT_JOBS).
Local Abbreviation queueJob := (queueJob MAX_CONCURRENT_JOBS).
Local Abbreviation init := (init MAX_CONCURRENT_JOBS).
Local Abbreviation cancelJob_resume := (cancelJob_resume MAX_CONCURRENT_JOBS).
Local Abbreviation finish := (finish MAX_CONCURRENT_JOBS global_io).
Local Abbreviation minimal_path := (minimal_path global_io).
Local Abbreviation assemble := (assemble global_io).
Local Abbreviation after_extractor := (after_extractor global_io).
Local Abbreviation processJob_resume :=
  (processJob_resume MAX_CONCURRENT_JOBS global_io floor_share).
Local Abbreviation step := (step MAX_CONCURRENT_JOBS global_io floor_share).
Local Abbreviation run := (run MAX_CONCURRENT_JOBS global_io floor_share).
Local Abbreviation reachable := (reachable MAX_CONCURRENT_JOBS global_io floor_share).

(** Starting a job publishes nothing and leaves every [progress] as it is. *)
Lemma processJob_start_published r s : published (processJob_start r s) = published s.
Proof. unfold processJob_start. destruct (heap s !! r); reflexivity. Qed.

Lemma processJob_start_progress r s x :
  progress <$> heap (processJob_start r s) !! x = progress <$> heap s !! x.
Proof.
  unfold processJob_start. destruct (heap s !! r) as [job|] eqn:E; [|reflexivity].
  simpl. destruct (decide (r = x)) as [->|Hne].
  - rewrite list_lookup_insert_eq by (eapply lookup_lt_Some; eauto).
    rewrite E. reflexivity.
  - rewrite list_lookup_insert_ne by assumption. reflexivity.
Qed.

Lemma processNextJob_rec_published fuel s :
  published (processNextJob_rec fuel s) = published s.
Proof.
  revert s. induction fuel as [|fuel IH]; intros s; simpl; [reflexivity|].
  destruct (active_count s >=? MAX_CONCURRENT_JOBS)%Z; [reflexivity|].
  destruct (shift_next (jobQueue s)) as [[[t r] q']|]; [|reflexivity].
  destruct (active_count _ <? MAX_CONCURRENT_JOBS)%Z.
  - rewrite IH, processJob_start_published. reflexivity.
  - rewrite processJob_start_published. reflexivity.
Qed.

Lemma processNextJob_rec_progress fuel s x :
  progress <$> heap (processNextJob_rec fuel s) !! x = progress <$> heap s !! x.
Proof.
  revert s. induction fuel as [|fuel IH]; intros s; simpl; [reflexivity|].
  destruct (active_count s >=? MAX_CONCURRENT_JOBS)%Z; [reflexivity|].
  destruct (shift_next (jobQueue s)) as [[[t r] q']|]; [|reflexivity].
  destruct (active_count _ <? MAX_CONCURRENT_JOBS)%Z.
  - rewrite IH, processJob_start_progress. reflexivity.
  - rewrite processJob_start_progress. reflexivity.
Qed.

(** ** Submission *)

(** C8. If the store write of [queueJob] fails, the call throws
    "Failed to queue job: ..." and the job is not enqueued: the three
    tiers, the active-job map, the job objects and the running workers are
    what they were. *)
Theorem queueJob_store_failure (job : Job) (msg : string) (s : State) :
  snd (queueJob job (throws msg) s) = inl ("Failed to queue job: " +:+ msg) /\
  jobQueue (fst (queueJob job (throws msg) s)) = jobQueue s /\
  activeJobs (fst (queueJob job (throws msg) s)) = activeJobs s /\
  heap (fst (queueJob job (throws msg) s)) = heap s /\
  workers (fst (queueJob job (throws msg) s)) = workers s.
Proof. simpl. repeat split. Qed.

(** ** Cancellation *)







(** ** One step of a worker

    Unless it is the last one of a successful run, a step of [processJob]
    touches its own variables, the job object, the event and call logs and
    nothing else. *)

Lemma worker_step_frame k resp s s' :
  processJob_resume k resp s = Some s' ->
  (exists w v, workers s !! k = Some w /\ resp = resolves v /\
             (w_pc w = at_updateJobStatus_minimal \/
              w_pc w = at_updateJobStatus_complete) /\
             s' = finish k w s) \/
  (jobQueue s' = jobQueue s /\ activeJobs s' = activeJobs s /\
   completedJobs s' = completedJobs s /\ cancels s' = cancels s).
Proof.
  unfold processJob_resume. intros H.
  destruct (workers s !! k) as [w|] eqn:Hw; [|discriminate].
  destruct (w_pc w) eqn:Hpc; destruct resp; try discriminate;
    repeat case_match; simplify_eq.
  all: try (left; eauto 10; fail).
  all: right; unfold_worker; repeat case_match; frame; repeat split.
Qed.

(** ** The capacity limit *)

Lemma size_insert_le (m : gmap string nat) (i : string) (x : nat) :
  size (<[i := x]> m) <= S (size m).
Proof. rewrite map_size_insert. destruct (m !! i); simpl; lia. Qed.

Lemma size_delete_le (m : gmap string nat) (i : string) :
  size (delete i m) <= size m.
Proof. rewrite map_size_delete. destruct (m !! i); simpl; lia. Qed.

Lemma processJob_start_active r s :
  (active_count (processJob_start r s) <= active_count s + 1)%Z.
Proof.
  unfold processJob_start, active_count.
  destruct (heap s !! r) as [job|]; simpl; [|lia].
  pose proof (size_insert_le (activeJobs s) (jobId job) r). lia.
Qed.

(** [processNextJob] checks the capacity before every start: it never
    takes the active-job map beyond the limit. *)
Lemma processNextJob_rec_bounded fuel s :
  (active_count s <= MAX_CONCURRENT_JOBS)%Z ->
  (active_count (processNextJob_rec fuel s) <= MAX_CONCURRENT_JOBS)%Z.
Proof.
  revert s. induction fuel as [|fuel IH]; intros s Hs; simpl; [assumption|].
  destruct (active_count s >=? MAX_CONCURRENT_JOBS)%Z eqn:Hfull; [assumption|].
  destruct (shift_next (jobQueue s)) as [[[t r] q']|]; [|assumption].
  pose proof (processJob_start_active r (set_jobQueue q' s)) as Hstart.
  change (active_count (set_jobQueue q' s)) with (active_count s) in Hstart.
  destruct (active_count (processJob_start r (set_jobQueue q' s))
            <? MAX_CONCURRENT_JOBS)%Z eqn:Hroom.
  - apply IH. lia.
  - lia.
Qed.

Lemma processNextJob_bounded s :
  (active_count s <= MAX_CONCURRENT_JOBS)%Z ->
  (active_count (processNextJob s) <= MAX_CONCURRENT_JOBS)%Z.
Proof. apply processNextJob_rec_bounded. Qed.

Lemma restore_activeJobs s job : activeJobs (restore s job) = activeJobs s.
Proof. reflexivity. Qed.

Lemma foldl_restore_activeJobs jobs s :
  activeJobs (foldl restore s jobs) = activeJobs s.
Proof.
  revert s. induction jobs as [|job jobs IH]; intros s; simpl; [reflexivity|].
  rewrite IH. apply restore_activeJobs.
Qed.

Lemma cancelJob_activeJobs id s : activeJobs (cancelJob id s) = activeJobs s.
Proof. unfold cancelJob. repeat case_match; frame; reflexivity. Qed.

Lemma active_count_delete id s :
  (active_count (set_activeJobs (delete id (activeJobs s)) s) <= active_count s)%Z.
Proof.
  unfold active_count. simpl.
  pose proof (size_delete_le (activeJobs s) id). lia.
Qed.

Lemma step_bounded l s s' :
  (active_count s <= MAX_CONCURRENT_JOBS)%Z ->
  step l s = Some s' ->
  (active_count s' <= MAX_CONCURRENT_JOBS)%Z.
Proof.
  intros Hs Hstep. destruct l as [t|pending|job saved|id|k resp|k resp];
    simpl in Hstep.
  - (* the clock *)
    injection Hstep as <-. exact Hs.
  - (* init *)
    injection Hstep as <-. destruct pending as [msg|jobs]; simpl.
    + apply processNextJob_bounded. exact Hs.
    + apply processNextJob_bounded. unfold active_count.
      rewrite foldl_restore_activeJobs. exact Hs.
  - (* queueJob *)
    injection Hstep as <-. unfold queueJob.
    destruct saved; try exact Hs;
      (destruct (tier_of_key (priority job)); [|exact Hs]);
      cbn [fst];
      (destruct (active_count _ <? MAX_CONCURRENT_JOBS)%Z;
       [apply processNextJob_bounded|]; exact Hs).
  - (* cancelJob, up to its await *)
    injection Hstep as <-. unfold active_count.
    rewrite cancelJob_activeJobs. exact Hs.
  - (* cancelJob, from its await *)
    unfold cancelJob_resume in Hstep.
    destruct (cancels s !! k) as [[id r| | |]|]; [| | |discriminate..];
      destruct resp; try (destruct (truthy _)); injection Hstep as <-;
      try exact Hs;
      unfold active_count; frame; fold (active_count (processNextJob
        (set_completedJobs (<[id:=r]> (completedJobs s))
           (set_activeJobs (delete id (activeJobs s)) s))));
      apply processNextJob_bounded;
      pose proof (active_count_delete id s); unfold active_count in *;
      simpl in *; lia.
  - (* processJob *)
    destruct (worker_step_frame _ _ _ _ Hstep) as
      [(w & v & Hw & -> & Hpc & ->)|(_ & Hact & _)].
    + unfold finish. apply processNextJob_bounded.
      unfold active_count. frame.
      destruct (heap _ !! w_job w) as [job|]; frame; [|exact Hs].
      pose proof (size_delete_le (activeJobs s) (jobId job)).
      unfold active_count in Hs. lia.
    + unfold active_count. rewrite Hact. exact Hs.
Qed.

(** In every state the manager can reach, whatever the callers do, the
    size of [activeJobs] is at most [MAX_CONCURRENT_JOBS] (a limit that is
    not negative). *)
Lemma reachable_bounded s :
  (0 <= MAX_CONCURRENT_JOBS)%Z ->
  reachable s ->
  (active_count s <= MAX_CONCURRENT_JOBS)%Z.
Proof.
  intros Hmax Hreach. induction Hreach as [|l s s' _ IH Hstep].
  - unfold active_count, initial_state. simpl. rewrite map_size_empty. lia.
  - eapply step_bounded; eauto.
Qed.


Lemma mark_complete_spec msg r s job :
  heap s !! r = Some job ->
  exists job',
    heap (mark_complete msg r s) !! r = Some job' /\
    status job' = complete /\ progress job' = 100 /\ message job' = msg /\
    domain job' = domain job /\ jobId job' = jobId job /\
    workers (mark_complete msg r s) = workers s /\
    now (mark_complete msg r s) = now s /\
    published (mark_complete msg r s) = published s /\
    calls (mark_complete msg r s) =
      (calls s ++ [UpdateJobStatus (jobId job) complete (startedAt job) (Some (now s))])%list.
Proof.
  intros Hjob. unfold mark_complete.
  rewrite (modify_job_eq _ _ _ _ Hjob). cbn [heap set_heap].
  assert (Hlt : r < length (heap s)) by (eapply lookup_lt_Some; eauto).
  rewrite list_lookup_insert_eq by assumption.
  eexists. split.
  { cbn [heap call set_heap]. apply list_lookup_insert_eq. assumption. }
  repeat split.
Qed.

Lemma set_progress_lookup r p m s job :
  heap s !! r = Some job ->
  heap (set_progress r p m s) !! r = Some (with_message m (with_progress p job)).
Proof.
  intros H. unfold set_progress.
  exact (modify_job_lookup r (fun j => with_message m (with_progress p j)) s job H).
Qed.

Lemma complete_job_spec k w s job :
  k < length (workers s) ->
  heap s !! w_job w = Some job ->
  exists job',
    workers (complete_job k w s) !! k = Some (at_pc at_updateJobStatus_complete w) /\
    heap (complete_job k w s) !! w_job w = Some job' /\
    status job' = complete /\ progress job' = 100 /\
    message job' = "Scrape completed" /\ domain job' = domain job.
Proof.
  intros Hk Hjob. unfold complete_job.
  destruct (mark_complete_spec "Scrape completed" _ _ _ Hjob)
    as (job' & Hl & Hst & Hp & Hm & Hd & _ & Hw & _).
  exists job'. cbn [workers heap put_worker set_workers].
  rewrite list_lookup_insert_eq by (rewrite Hw; assumption).
  auto 10.
Qed.

Lemma assemble_completes k w s job rq :
  k < length (workers s) ->
  heap s !! w_job w = Some job ->
  settles rq ->
  exists s' w' job',
    run (if truthy (domainInfoId w) then [resume_processJob k rq] else [])
        (assemble k w s) = Some s' /\
    workers s' !! k = Some w' /\
    w_pc w' = at_updateJobStatus_complete /\
    heap s' !! w_job w = Some job' /\
    status job' = complete /\ progress job' = 100 /\ domain job' = domain job /\
    results w' = build_results (domain job) (now s) w /\
    forall e, extractor_data e w' = extractor_data e w.
Proof.
  intros Hk Hjob Hrq. unfold assemble. rewrite Hjob.
  pose proof (set_progress_lookup _ 80 "Building final results" _ _ Hjob) as H80.
  rewrite <- (job_update_heap global_io (w_job w) None) in H80.
  set (s1 := job_update (w_job w) None
               (set_progress (w_job w) 80 "Building final results" s)) in *.
  assert (Hk1 : k < length (workers s1)) by (subst s1; frame; assumption).
  set (w1 := with_results (build_results (domain job) (now s) w) w).
  change (domainInfoId w1) with (domainInfoId w).
  destruct (truthy (domainInfoId w)) eqn:Hid.
  - cbn [run step]. unfold processJob_resume.
    cbn [workers put_worker set_workers call].
    rewrite list_lookup_insert_eq by assumption. cbn [w_pc at_pc].
    destruct rq as [msg|v| |]; try contradiction.
    + edestruct (complete_job_spec k (at_pc at_query_update w1)
        (log_error (err_store_data msg)
           (put_worker k (at_pc at_query_update w1)
              (call (QueryUpdateDomainInfo (results w1) (domainInfoId w)) s1))))
        as (job' & Hw' & Hl & Hst & Hp & _ & Hd).
      { frame. rewrite length_insert. eassumption. }
      { exact H80. }
      eexists _, _, job'. split; [reflexivity|].
      split; [exact Hw'|]. repeat split; auto.
    + edestruct (complete_job_spec k (at_pc at_query_update w1)
           (put_worker k (at_pc at_query_update w1)
              (call (QueryUpdateDomainInfo (results w1) (domainInfoId w)) s1)))
        as (job' & Hw' & Hl & Hst & Hp & _ & Hd).
      { frame. rewrite length_insert. eassumption. }
      { exact H80. }
      eexists _, _, job'. split; [reflexivity|].
      split; [exact Hw'|]. repeat split; auto.
  - cbn [run].
    destruct (complete_job_spec k w1 s1 _ Hk1 H80)
      as (job' & Hw' & Hl & Hst & Hp & _ & Hd).
    eexists _, _, job'. split; [reflexivity|].
    split; [exact Hw'|]. repeat split; auto.
Qed.

Lemma build_results_section dom t w e :
  get_field (section_key e) (build_results dom t w) =
  Some (js_or (extractor_data e w) (section_default dom e)).
Proof. destruct e; reflexivity. Qed.

(** One [try]/[catch] of the extractor stage: whatever the extractor does,
    the worker goes on to the next one. *)
Lemma stage_step k e resp w s :
  k < length (workers s) -> settles resp ->
  processJob_resume k resp (run_extractor k e w s) =
  Some (after_extractor k e (round e resp w) (note e resp (run_extractor k e w s))).
Proof.
  intros Hk Hresp. unfold processJob_resume.
  unfold run_extractor at 1 2 3. cbn [workers put_worker set_workers].
  rewrite list_lookup_insert_eq by assumption. cbn [w_pc at_pc].
  destruct resp; try contradiction; reflexivity.
Qed.

(** The extractor stage as a whole, from the call of the first extractor
    to the status write of the finished job, for arbitrary outcomes. *)
Lemma extractor_stage_completes k s0 w0 job (outs : Extractor -> Response) rq :
  k < length (workers s0) ->
  heap s0 !! w_job w0 = Some job ->
  (forall e, settles (outs e)) ->
  settles rq ->
  exists s' w' job',
    run (extractor_stage k outs ++
         (if truthy (domainInfoId w0) then [resume_processJob k rq] else []))
        (run_extractor k enhancedImageExtractor w0 s0) = Some s' /\
    workers s' !! k = Some w' /\
    w_pc w' = at_updateJobStatus_complete /\
    heap s' !! w_job w0 = Some job' /\
    status job' = complete /\ progress job' = 100 /\ domain job' = domain job /\
    (forall e, get_field (section_key e) (results w') =
               Some (js_or (outcome (outs e)) (section_default (domain job) e))).
Proof.
  intros Hk Hjob Hok Hrq.
  unfold extractor_stage, all_extractors. cbn [fmap list_fmap app run step].
  do 6 (rewrite stage_step by (autorewrite with frame; auto);
        unfold after_extractor at 1; cbn [next_extractor]).
  match goal with
  | |- context [assemble ?k ?w ?s] => set (w6 := w); set (s6 := s)
  end.
  assert (Hr6 : w_job w6 = w_job w0) by (subst w6; autorewrite with frame; reflexivity).
  assert (Hid6 : domainInfoId w6 = domainInfoId w0)
    by (subst w6; autorewrite with frame; reflexivity).
  assert (Hjob6 : heap s6 !! w_job w6 = Some job).
  { rewrite Hr6. subst s6. autorewrite with frame. exact Hjob. }
  assert (Hk6 : k < length (workers s6)).
  { subst s6. autorewrite with frame. exact Hk. }
  assert (Hdata : forall e, extractor_data e w6 = outcome (outs e)).
  { intros e. subst w6. autorewrite with frame.
    destruct e; reflexivity. }
  rewrite <- Hid6, <- Hr6.
  destruct (assemble_completes k w6 s6 job rq Hk6 Hjob6 Hrq)
    as (s' & w' & job' & Hrun & Hw' & Hpc & Hl & Hst & Hp & Hd & Hres & _).
  exists s', w', job'. repeat (split; [assumption|]).
  intros e. rewrite Hres, build_results_section, Hdata. reflexivity.
Qed.

(** C1. The page set is not empty and the worker has reached the extractor
    stage.  If exactly one extractor throws and each of the others resolves
    to an object (a truthy value), the worker gets to the final status write
    with the job marked complete at progress 100, and the assembled results
    hold, section by section, the output of every extractor that succeeded
    and the fallback literal for the one that threw.  The schedule runs the
    six extractors and, when a [domain_info] row is known, the UPDATE query,
    whose outcome does not matter. *)
Theorem one_extractor_failure_is_isolated
    k s0 w0 job (outs : Extractor -> Response) failed_e rq :
  k < length (workers s0) ->
  heap s0 !! w_job w0 = Some job ->
  (exists msg, outs failed_e = throws msg) ->
  (forall e, e <> failed_e -> exists v, outs e = resolves v /\ truthy v = true) ->
  settles rq ->
  exists s' w' job',
    run (extractor_stage k outs ++
         (if truthy (domainInfoId w0) then [resume_processJob k rq] else []))
        (run_extractor k enhancedImageExtractor w0 s0) = Some s' /\
    workers s' !! k = Some w' /\
    w_pc w' = at_updateJobStatus_complete /\
    heap s' !! w_job w0 = Some job' /\
    status job' = complete /\ progress job' = 100 /\
    get_field (section_key failed_e) (results w') =
      Some (section_default (domain job) failed_e) /\
    (forall e v, e <> failed_e -> outs e = resolves v ->
                 get_field (section_key e) (results w') = Some v).
Proof.
  intros Hk Hjob [msg Hfail] Hok Hrq.
  assert (Hsettle : forall e, settles (outs e)).
  { intros e. destruct (decide (e = failed_e)) as [->|Hne].
    - rewrite Hfail. exact I.
    - destruct (Hok e Hne) as (v & -> & _). exact I. }
  destruct (extractor_stage_completes k s0 w0 job outs rq Hk Hjob Hsettle Hrq)
    as (s' & w' & job' & Hrun & Hw' & Hpc & Hl & Hst & Hp & _ & Hsec).
  exists s', w', job'. repeat (split; [assumption|]). split.
  - rewrite Hsec, Hfail. reflexivity.
  - intros e v Hne He. rewrite Hsec, He.
    destruct (Hok e Hne) as (v' & He' & Hv'). rewrite He in He'.
    injection He' as ->. unfold js_or. cbn [outcome]. rewrite Hv'. reflexivity.
Qed.

(** C2. Discovery settles with an empty page set.  The worker builds the
    minimal results, in which the domain of the job (and the time) is all
    that varies: the domain itself, the title "<domain> Website", the
    description "Website for <domain>" and the domain as keywords, around
    empty collections, [blog.hasBlog] false and the fixed palette.  It
    calls no extractor: the only calls are [saveResults] with these
    results and, once the store has taken them, the status write; by then
    the job is marked complete at 100 with the message of the minimal
    path. *)
Theorem zero_pages_minimal_results k s w job v :
  workers s !! k = Some w ->
  w_pc w = at_discoverPages ->
  heap s !! w_job w = Some job ->
  exists s' w' job',
    run [resume_processJob k (resolves_pages []); resume_processJob k (resolves v)] s
      = Some s' /\
    workers s' !! k = Some w' /\
    w_pc w' = at_updateJobStatus_minimal /\
    results w' =
      JObj [("domain", JStr (domain job));
            ("scrapedAt", JStr (now s));
            ("general",
             JObj [("siteStructure",
                    JObj [("title", JStr (domain job +:+ " Website"));
                          ("meta",
                           JObj [("description", JStr ("Website for " +:+ domain job));
                                 ("keywords", JStr (domain job))]);
                          ("sections", JArr [])]);
                   ("prominentLinks", JArr []);
                   ("navigationStructure",
                    JObj [("mainNav", JArr []); ("footerNav", JArr [])])]);
            ("blog",
             JObj [("hasBlog", JBool false); ("blogUrl", JNull);
                   ("articles", JArr [])]);
            ("images",
             JObj [("all", JArr []); ("byCategory", JObj []);
                   ("heroImages", JArr []); ("brandImages", JArr []);
                   ("productImages", JArr []); ("contentImages", JArr []);
                   ("backgroundImages", JArr []); ("bannerImages", JArr []);
                   ("galleryImages", JArr []); ("socialProofImages", JArr []);
                   ("teamImages", JArr []); ("otherImages", JArr [])]);
            ("colors",
             JObj [("primaryColor", JStr "#4285f4");
                   ("secondaryColors",
                    JArr [JStr "#ea4335"; JStr "#fbbc05"; JStr "#34a853"]);
                   ("palette",
                    JArr [JStr "#4285f4"; JStr "#ea4335"; JStr "#fbbc05";
                          JStr "#34a853"; JStr "#ffffff"; JStr "#000000"])]);
            ("isbn", JObj [("isbns", JArr []); ("isbnImages", JArr [])])] /\
    get_path ["blog"; "hasBlog"] (results w') = Some (JBool false) /\
    get_path ["images"; "all"] (results w') = Some (JArr []) /\
    get_field "colors" (results w') = Some default_colors /\
    heap s' !! w_job w = Some job' /\
    status job' = complete /\ progress job' = 100 /\
    message job' = "Scrape completed with minimal results" /\
    calls s' = (calls s ++
                [SaveResults (jobId job) (results w');
                 UpdateJobStatus (jobId job) complete (startedAt job) (Some (now s))])%list /\
    extractors_called s' = extractors_called s.
Proof.
  intros Hw Hpc Hjob.
  assert (Hk : k < length (workers s)) by (eapply lookup_lt_Some; eauto).
  cbn [run step]. unfold processJob_resume at 1. rewrite Hw, Hpc.
  unfold minimal_path. cbn [w_job with_pages]. rewrite Hjob.
  pose proof (set_progress_lookup _ 90 "Saving minimal results" _ _ Hjob) as H90.
  rewrite <- (job_update_heap global_io (w_job w) None) in H90.
  set (s1 := job_update (w_job w) None
               (set_progress (w_job w) 90 "Saving minimal results" s)) in *.
  set (w1 := with_results (minimalResults (domain job) (now s)) (with_pages [] w)).
  unfold processJob_resume. cbn [workers put_worker set_workers call].
  rewrite list_lookup_insert_eq by (subst s1; frame; assumption).
  cbn [w_pc at_pc w_job].
  destruct (mark_complete_spec "Scrape completed with minimal results" (w_job w)
              (put_worker k (at_pc at_saveResults w1)
                 (call (SaveResults (jobId job) (results w1)) s1))
              _ H90)
    as (job' & Hl & Hst & Hp & Hm & _ & _ & Hws & _ & _ & Hcalls).
  eexists _, _, job'. split; [reflexivity|].
  cbn [workers put_worker set_workers heap calls].
  change (w_job w1) with (w_job w).
  split.
  { apply list_lookup_insert_eq. rewrite Hws.
    cbn [workers put_worker set_workers call]. rewrite length_insert.
    subst s1. frame. assumption. }
  do 5 (split; [reflexivity|]).
  split; [exact Hl|]. split; [exact Hst|]. split; [exact Hp|]. split; [exact Hm|].
  split.
  { rewrite Hcalls. subst s1. frame. rewrite <- app_assoc. reflexivity. }
  unfold extractors_called. cbn [calls put_worker set_workers].
  rewrite Hcalls. subst s1. frame.
  rewrite !omap_app. cbn. rewrite !app_nil_r. reflexivity.
Qed.


(** ** The order of dispatch *)

Lemma shift_next_spec q t r q' :
  shift_next q = Some (t, r, q') ->
  (forall t', tier_rank t' < tier_rank t -> tier t' q = []) /\
  tier t q = r :: tier t q' /\
  (forall t', t' <> t -> tier t' q' = tier t' q).
Proof.
  destruct q as [h n l]. unfold shift_next. cbn [q_high q_normal q_low].
  destruct h as [|a h]; [destruct n as [|b n]; [destruct l as [|c l]|]|];
    intros H; simplify_eq; (split; [|split]); try reflexivity;
    intros t' Ht'; destruct t'; simpl in *; try reflexivity; try lia;
    congruence.
Qed.

Lemma shift_next_order q t r q' :
  shift_next q = Some (t, r, q') -> queue_order q = r :: queue_order q'.
Proof.
  destruct q as [h n l]. unfold shift_next, queue_order.
  cbn [q_high q_normal q_low].
  destruct h as [|a h]; [destruct n as [|b n]; [destruct l as [|c l]|]|];
    intros H; simplify_eq; reflexivity.
Qed.

Lemma push_spec t r q :
  tier t (push t r q) = (tier t q ++ [r])%list /\
  (forall t', t' <> t -> tier t' (push t r q) = tier t' q).
Proof.
  split; [destruct t; reflexivity|].
  intros t' Hne. destruct t, t'; try reflexivity; congruence.
Qed.

Lemma processJob_start_dispatch r s job :
  heap s !! r = Some job ->
  workers (processJob_start r s) = (workers s ++ [new_worker r])%list /\
  jobQueue (processJob_start r s) = jobQueue s /\
  length (heap (processJob_start r s)) = length (heap s).
Proof.
  intros H. unfold processJob_start. rewrite H. cbn.
  rewrite length_insert. auto.
Qed.

(** [processNextJob] starts a prefix of the queue, read high tier first and
    each tier front to back, and leaves the rest in place. *)
Lemma processNextJob_rec_order fuel s :
  (forall r, r ∈ queue_order (jobQueue s) -> r < length (heap s)) ->
  exists n,
    w_job <$> workers (processNextJob_rec fuel s) =
      ((w_job <$> workers s) ++ take n (queue_order (jobQueue s)))%list /\
    queue_order (jobQueue (processNextJob_rec fuel s)) =
      drop n (queue_order (jobQueue s)).
Proof.
  revert s. induction fuel as [|fuel IH]; intros s Hvalid; simpl.
  { exists 0. rewrite take_0, app_nil_r. auto. }
  destruct (active_count s >=? MAX_CONCURRENT_JOBS)%Z.
  { exists 0. rewrite take_0, app_nil_r. auto. }
  destruct (shift_next (jobQueue s)) as [[[t r] q']|] eqn:Hshift.
  2:{ exists 0. rewrite take_0, app_nil_r. auto. }
  pose proof (shift_next_order _ _ _ _ Hshift) as Horder.
  assert (Hr : r < length (heap s)).
  { apply Hvalid. rewrite Horder. left. }
  destruct (lookup_lt_is_Some_2 _ _ Hr) as [job Hjob].
  destruct (processJob_start_dispatch r (set_jobQueue q' s) job Hjob)
    as (Hws & Hq & Hlen).
  cbn [workers jobQueue heap set_jobQueue] in Hws, Hq, Hlen.
  destruct (active_count _ <? MAX_CONCURRENT_JOBS)%Z.
  - destruct (IH (processJob_start r (set_jobQueue q' s))) as (n & Hn1 & Hn2).
    { intros x Hx. rewrite Hq in Hx. rewrite Hlen. apply Hvalid.
      rewrite Horder. right. exact Hx. }
    exists (S n). rewrite Hn1, Hn2, Hws, Hq, Horder, fmap_app. cbn.
    rewrite <- app_assoc. auto.
  - exists 1. rewrite Hws, Hq, Horder, fmap_app. cbn. rewrite take_0, drop_0. auto.
Qed.

(** ** What is and is not published *)

Lemma processNextJob_published s : published (processNextJob s) = published s.
Proof. apply processNextJob_rec_published. Qed.

Lemma cancelJob_published id s : published (cancelJob id s) = published s.
Proof. unfold cancelJob. repeat case_match; frame; reflexivity. Qed.

Lemma cancelJob_resume_published k resp s s' :
  cancelJob_resume k resp s = Some s' -> published s' = published s.
Proof.
  unfold cancelJob_resume. intros H.
  repeat case_match; simplify_eq; frame;
    rewrite ?processNextJob_published; reflexivity.
Qed.

(** The outer [catch] of [processJob] changes no job, frees no slot and
    publishes nothing. *)
Lemma reject_frame k w msg s :
  heap (reject k w msg s) = heap s /\
  activeJobs (reject k w msg s) = activeJobs s /\
  jobQueue (reject k w msg s) = jobQueue s /\
  published (reject k w msg s) = published s.
Proof. repeat split. Qed.

(** ** The options of discovery *)

Lemma processJob_start_calls r s :
  Forall bypasses (calls s) -> Forall bypasses (calls (processJob_start r s)).
Proof.
  intros H. unfold processJob_start. destruct (heap s !! r); [|exact H].
  cbn. apply Forall_app. split; [exact H|]. repeat constructor.
Qed.

Lemma processNextJob_rec_calls fuel s :
  Forall bypasses (calls s) -> Forall bypasses (calls (processNextJob_rec fuel s)).
Proof.
  revert s. induction fuel as [|fuel IH]; intros s H; simpl; [exact H|].
  destruct (active_count s >=? MAX_CONCURRENT_JOBS)%Z; [exact H|].
  destruct (shift_next (jobQueue s)) as [[[t r] q']|]; [|exact H].
  destruct (active_count _ <? MAX_CONCURRENT_JOBS)%Z.
  - apply IH. apply processJob_start_calls. exact H.
  - apply processJob_start_calls. exact H.
Qed.

Lemma foldl_restore_calls jobs s : calls (foldl restore s jobs) = calls s.
Proof.
  revert s. induction jobs as [|job jobs IH]; intros s; simpl; [reflexivity|].
  rewrite IH. reflexivity.
Qed.

Ltac calls_ok H :=
  frame; rewrite ?app_nil_r;
  repeat (apply Forall_app; split); try exact H;
  repeat constructor.

Lemma step_calls l s s' :
  Forall bypasses (calls s) -> step l s = Some s' -> Forall bypasses (calls s').
Proof.
  intros H Hstep. destruct l as [t|pending|job saved|id|k resp|k resp];
    simpl in Hstep.
  - injection Hstep as <-. exact H.
  - injection Hstep as <-. destruct pending as [msg|jobs]; cbn [init fst];
      apply processNextJob_rec_calls; frame; rewrite ?foldl_restore_calls;
      calls_ok H.
  - injection Hstep as <-. unfold queueJob.
    repeat case_match; cbn [fst]; try apply processNextJob_rec_calls; calls_ok H.
  - injection Hstep as <-. unfold cancelJob. repeat case_match; calls_ok H.
  - unfold cancelJob_resume in Hstep.
    repeat case_match; simplify_eq; frame;
      try apply processNextJob_rec_calls; calls_ok H.
  - unfold processJob_resume in Hstep.
    destruct (workers s !! k) as [w|] eqn:Hw; [|discriminate].
    destruct (w_pc w) eqn:Hpc; destruct resp; try discriminate;
      repeat case_match; simplify_eq.
    all: unfold_worker; unfold finish; repeat case_match.
    all: try apply processNextJob_rec_calls.
    all: calls_ok H.
Qed.

(** Every [discoverPages] call the manager ever issues carries
    [bypassCooldown: true] and [cooldownMinutes: 5]. *)
Lemma reachable_calls_bypass s : reachable s -> Forall bypasses (calls s).
Proof.
  intros Hreach. induction Hreach as [|l s s' _ IH Hstep].
  - constructor.
  - eapply step_calls; eauto.
Qed.

End Properties.
(** * Distinct job ids *)

Section Uniqueness.

Variable MAX_CONCURRENT_JOBS : Z.
Variable global_io : option (string -> Event -> bool).
Variable floor_share : nat -> nat -> nat.

Local Abbreviation emitSocketEvent := (emitSocketEvent global_io).
Local Abbreviation job_update := (job_update global_io).
Local Abbreviation processNextJob_rec := (processNextJob_rec MAX_CONCURRENT_JOBS).
Local Abbreviation processNextJob := (processNextJob MAX_CONCURRENT_JOBS).
Local Abbreviation queueJob := (queueJob MAX_CONCURRENT_JOBS).
Local Abbreviation init := (init MAX_CONCURRENT_JOBS).
Local Abbreviation cancelJob_resume := (cancelJob_resume MAX_CONCURRENT_JOBS).
Local Abbreviation finish := (finish MAX_CONCURRENT_JOBS global_io).
Local Abbreviation minimal_path := (minimal_path global_io).
Local Abbreviation assemble := (assemble global_io).
Local Abbreviation after_extractor := (after_extractor global_io).
Local Abbreviation processJob_resume :=
  (processJob_resume MAX_CONCURRENT_JOBS global_io floor_share).
Local Abbreviation step := (step MAX_CONCURRENT_JOBS global_io floor_share).
Local Abbreviation run := (run MAX_CONCURRENT_JOBS global_io floor_share).
Local Abbreviation reachable := (reachable MAX_CONCURRENT_JOBS global_io floor_share).
Local Abbreviation reachable_unique :=
  (reachable_unique MAX_CONCURRENT_JOBS global_io floor_share).

(** ** Jobs that read [processing] and the active-job map *)

Lemma ids_length s : length (ids s) = length (heap s).
Proof. apply length_fmap. Qed.

Lemma statuses_length s : length (statuses s) = length (heap s).
Proof. apply length_fmap. Qed.

(** With distinct ids, every job that reads [processing] sits in the
    active-job map under its own id: there are no more of them than
    entries of the map. *)
Lemma processing_count_le s :
  consistent s -> processing_count s <= size (activeJobs s).
Proof.
  intros Hs. unfold processing_count.
  set (l := filter (fun job => status job = processing) (heap s)).
  rewrite <- (length_fmap jobId l), <- length_map_to_list.
  rewrite <- (length_fmap fst (map_to_list (activeJobs s))).
  apply submseteq_length, NoDup_submseteq.
  - eapply sublist_NoDup; [exact (ids_nodup s Hs)|].
    apply fmap_sublist, sublist_filter.
  - intros id Hid. apply list_elem_of_fmap in Hid as (job & -> & Hjob).
    apply list_elem_of_filter in Hjob as [Hst Hjob].
    apply list_elem_of_lookup in Hjob as [r Hr].
    destruct (processing_active s Hs r) as (id & Hid & Hact).
    { unfold statuses. rewrite list_lookup_fmap, Hr. simpl. congruence. }
    unfold ids in Hid. rewrite list_lookup_fmap, Hr in Hid. simpl in Hid.
    injection Hid as <-.
    apply list_elem_of_fmap. exists (jobId job, r). split; [reflexivity|].
    apply elem_of_map_to_list. exact Hact.
Qed.

(** A step that starts no job, allocates none and touches neither the
    queue nor the active-job map keeps the manager consistent, as long as
    workers keep their jobs and a worker that reaches a final await has
    its job marked. *)
Lemma consistent_mono s s' :
  consistent s ->
  ids s' = ids s ->
  jobQueue s' = jobQueue s ->
  activeJobs s' = activeJobs s ->
  (forall r, statuses s' !! r = Some processing -> statuses s !! r = Some processing) ->
  (forall k w', workers s' !! k = Some w' ->
     exists w, workers s !! k = Some w /\ w_job w' = w_job w /\
               (ends (w_pc w') = true -> statuses s' !! w_job w' <> Some processing)) ->
  (forall k id r, cancels s' !! k = Some (cancel_active id r) ->
     (exists k', cancels s !! k' = Some (cancel_active id r)) \/
     (activeJobs s !! id = Some r /\ statuses s' !! r <> Some processing)) ->
  consistent s'.
Proof.
  intros Hs Hids Hq Hact Hst Hws Hcs.
  constructor; rewrite ?Hids, ?Hq, ?Hact.
  - apply Hs.
  - intros r Hr. apply (processing_active s Hs). auto.
  - apply Hs.
  - apply Hs.
  - intros k w' Hw'. destruct (Hws k w' Hw') as (w & Hw & -> & _).
    eapply (workers_started s Hs); eauto.
  - intros k w' Hw' Hends. destruct (Hws k w' Hw') as (w & Hw & _ & H). auto.
  - apply Hs.
  - intros k id r Hc. destruct (Hcs k id r Hc) as [[k' Hk']|[Ha Hr]].
    + destruct (cancels_started s Hs k' id r Hk') as (H1 & H2 & H3).
      repeat split; auto.
    + destruct (active_started s Hs id r Ha) as (H1 & H2).
      repeat split; auto.
Qed.

(** Freeing the slot of a job that no longer reads [processing]. *)
Lemma consistent_delete s id r :
  consistent s ->
  ids s !! r = Some id ->
  statuses s !! r <> Some processing ->
  consistent (set_activeJobs (delete id (activeJobs s)) s).
Proof.
  intros Hs Hid Hst. constructor; cbn [ids statuses heap jobQueue activeJobs workers cancels set_activeJobs];
    try apply Hs.
  - intros r' Hr'. destruct (processing_active s Hs r' Hr') as (id' & Hid' & Hact').
    exists id'. split; [exact Hid'|].
    rewrite lookup_delete_ne; [exact Hact'|].
    intros <-. assert (r = r') as <-.
    { eapply NoDup_lookup; [exact (ids_nodup s Hs)|exact Hid|exact Hid']. }
    contradiction.
  - intros id' r' Hact'. apply lookup_delete_Some in Hact' as [_ Hact'].
    apply (active_started s Hs). exact Hact'.
Qed.

Lemma ids_insert (h : list Job) r job job' :
  h !! r = Some job -> jobId job' = jobId job ->
  jobId <$> <[r := job']> h = jobId <$> h.
Proof.
  intros H Hid. rewrite list_fmap_insert, Hid.
  apply list_insert_id. rewrite list_lookup_fmap, H. reflexivity.
Qed.

Lemma processJob_start_fields r s job :
  heap s !! r = Some job ->
  ids (processJob_start r s) = ids s /\
  statuses (processJob_start r s) = <[r := processing]> (statuses s) /\
  jobQueue (processJob_start r s) = jobQueue s /\
  activeJobs (processJob_start r s) = <[jobId job := r]> (activeJobs s) /\
  workers (processJob_start r s) = (workers s ++ [new_worker r])%list /\
  cancels (processJob_start r s) = cancels s.
Proof.
  intros Hjob. unfold processJob_start, ids, statuses. rewrite Hjob.
  cbn [heap jobQueue activeJobs workers cancels call set_workers set_activeJobs
       set_heap].
  rewrite (ids_insert (heap s) r job
             (with_startedAt (now s) (with_status processing job)) Hjob eq_refl),
    list_fmap_insert.
  auto 10.
Qed.

(** Taking a job from the head of the queue and starting it. *)
Lemma consistent_dispatch s t r q' :
  consistent s ->
  shift_next (jobQueue s) = Some (t, r, q') ->
  consistent (processJob_start r (set_jobQueue q' s)).
Proof.
  intros Hs Hshift.
  pose proof (shift_next_order _ _ _ _ Hshift) as Horder.
  pose proof (queue_nodup s Hs) as Hnd. rewrite Horder in Hnd.
  apply NoDup_cons in Hnd as [Hr_notin Hnd'].
  assert (Hr : r < length (heap s)).
  { rewrite <- ids_length. apply (queue_valid s Hs). rewrite Horder. left. }
  destruct (lookup_lt_is_Some_2 _ _ Hr) as [job Hjob].
  assert (Hid : ids s !! r = Some (jobId job)).
  { unfold ids. rewrite list_lookup_fmap, Hjob. reflexivity. }
  destruct (processJob_start_fields r (set_jobQueue q' s) job Hjob)
    as (Eids & Est & Eq & Eact & Ews & Ecs).
  change (ids (set_jobQueue q' s)) with (ids s) in Eids.
  change (statuses (set_jobQueue q' s)) with (statuses s) in Est.
  cbn [jobQueue activeJobs workers cancels set_jobQueue] in Eq, Eact, Ews, Ecs.
  constructor; rewrite ?Eids, ?Est, ?Eq, ?Eact, ?Ews, ?Ecs.
  - apply Hs.
  - intros x Hx. destruct (decide (x = r)) as [->|Hne].
    + exists (jobId job). split; [exact Hid|]. apply lookup_insert_eq.
    + rewrite list_lookup_insert_ne in Hx by congruence.
      destruct (processing_active s Hs x Hx) as (id' & Hid' & Hact').
      exists id'. split; [exact Hid'|].
      rewrite lookup_insert_ne; [exact Hact'|].
      intros Heq. subst id'. apply Hne.
      eapply NoDup_lookup; [exact (ids_nodup s Hs)|exact Hid'|exact Hid].
  - exact Hnd'.
  - intros x Hx. apply (queue_valid s Hs). rewrite Horder. right. exact Hx.
  - intros k w Hw. apply lookup_app_Some in Hw as [Hw|[_ Hw]].
    + destruct (workers_started s Hs k w Hw) as [H1 H2]. split; [exact H1|].
      intros Hin. apply H2. rewrite Horder. right. exact Hin.
    + apply list_lookup_singleton_Some in Hw as [_ <-]. cbn [w_job new_worker].
      split; [rewrite ids_length; exact Hr | exact Hr_notin].
  - intros k w Hw Hends. apply lookup_app_Some in Hw as [Hw|[_ Hw]].
    + destruct (workers_started s Hs k w Hw) as [_ H2].
      rewrite list_lookup_insert_ne.
      * eapply (workers_ending s Hs); eauto.
      * intros Heq. apply H2. rewrite <- Heq, Horder. left.
    + apply list_lookup_singleton_Some in Hw as [_ <-]. discriminate.
  - intros id' r' Hact'. apply lookup_insert_Some in Hact' as [[<- <-]|[Hne Hact']].
    + split; [exact Hr_notin | exact Hid].
    + destruct (active_started s Hs id' r' Hact') as [H1 H2]. split; [|exact H2].
      intros Hin. apply H1. rewrite Horder. right. exact Hin.
  - intros k id' r' Hc. destruct (cancels_started s Hs k id' r' Hc) as (H1 & H2 & H3).
    split; [|split; [exact H2|]].
    + intros Hin. apply H1. rewrite Horder. right. exact Hin.
    + rewrite list_lookup_insert_ne; [exact H3|].
      intros Heq. apply H1. rewrite <- Heq, Horder. left.
Qed.

Lemma processNextJob_rec_consistent fuel s :
  consistent s -> consistent (processNextJob_rec fuel s).
Proof.
  revert s. induction fuel as [|fuel IH]; intros s Hs; simpl; [exact Hs|].
  destruct (active_count s >=? MAX_CONCURRENT_JOBS)%Z; [exact Hs|].
  destruct (shift_next (jobQueue s)) as [[[t r] q']|] eqn:Hshift; [|exact Hs].
  pose proof (consistent_dispatch s t r q' Hs Hshift) as Hs'.
  destruct (active_count _ <? MAX_CONCURRENT_JOBS)%Z; [apply IH|]; exact Hs'.
Qed.

(** ** Allocation and removal *)

Lemma queue_order_push t r q :
  queue_order (push t r q) ≡ₚ r :: queue_order q.
Proof.
  destruct q as [h n l]. unfold queue_order, push.
  destruct t; cbn [tier set_tier q_high q_normal q_low].
  - rewrite <- app_assoc. cbn [app]. symmetry. apply Permutation_middle.
  - rewrite <- !app_assoc. cbn [app].
    rewrite (app_assoc h n (r :: l)). symmetry.
    rewrite (app_assoc h n l). apply Permutation_middle.
  - rewrite !app_assoc. rewrite <- Permutation_cons_append. reflexivity.
Qed.

Lemma queue_order_dequeue t index q :
  queue_order (set_tier t (delete index (tier t q)) q) `sublist_of` queue_order q.
Proof.
  destruct q as [h n l]. unfold queue_order.
  destruct t; cbn [tier set_tier q_high q_normal q_low];
    repeat apply sublist_app; try reflexivity; apply sublist_delete.
Qed.

Lemma fresh_id_notin id s : fresh_id id s -> id ∉ ids s.
Proof.
  intros Hfresh Hin. apply list_elem_of_fmap in Hin as (job & -> & Hjob).
  exact (Hfresh job Hjob eq_refl).
Qed.

(** A job with a new id and a status other than [processing] enters a
    tier. *)
Lemma consistent_submit s job t :
  consistent s ->
  status job <> processing ->
  fresh_id (jobId job) s ->
  consistent (set_jobQueue (push t (length (heap s)) (jobQueue s)) (alloc job s)).
Proof.
  intros Hs Hst Hfresh.
  set (s' := set_jobQueue _ _).
  assert (Eids : ids s' = (ids s ++ [jobId job])%list)
    by (unfold ids; subst s'; cbn [heap set_jobQueue alloc set_heap]; rewrite fmap_app; reflexivity).
  assert (Est : statuses s' = (statuses s ++ [status job])%list)
    by (unfold statuses; subst s'; cbn [heap set_jobQueue alloc set_heap]; rewrite fmap_app; reflexivity).
  assert (Eq : queue_order (jobQueue s') ≡ₚ length (heap s) :: queue_order (jobQueue s))
    by apply queue_order_push.
  assert (Hnew : length (heap s) ∉ queue_order (jobQueue s)).
  { intros Hin. apply (queue_valid s Hs) in Hin. rewrite ids_length in Hin. lia. }
  assert (Hold : forall x, x < length (heap s) ->
                 (x ∉ queue_order (jobQueue s)) -> x ∉ queue_order (jobQueue s')).
  { intros x Hx Hnot Hin. rewrite Eq in Hin. apply elem_of_cons in Hin as [->|Hin]; [lia|auto]. }
  constructor; rewrite ?Eids, ?Est; fold s';
    change (activeJobs s') with (activeJobs s);
    change (workers s') with (workers s);
    change (cancels s') with (cancels s).
  - apply NoDup_app. split; [apply Hs|]. split; [|apply NoDup_singleton].
    intros x Hx Hx'. apply list_elem_of_singleton in Hx' as ->.
    exact (fresh_id_notin _ _ Hfresh Hx).
  - intros r Hr. apply lookup_app_Some in Hr as [Hr|[_ Hr]].
    + destruct (processing_active s Hs r Hr) as (id & Hid & Hact).
      exists id. split; [|exact Hact]. apply lookup_app_l_Some. exact Hid.
    + apply list_lookup_singleton_Some in Hr as [_ Hr]. congruence.
  - rewrite Eq. apply NoDup_cons. split; [exact Hnew|apply Hs].
  - intros r Hr. rewrite Eq in Hr. rewrite length_app. cbn [length].
    apply elem_of_cons in Hr as [->|Hr].
    + rewrite ids_length. lia.
    + apply (queue_valid s Hs) in Hr. lia.
  - intros k w Hw. destruct (workers_started s Hs k w Hw) as [H1 H2].
    rewrite length_app. split; [lia|]. apply Hold; [|exact H2].
    rewrite <- ids_length. exact H1.
  - intros k w Hw Hends. destruct (workers_started s Hs k w Hw) as [H1 _].
    rewrite lookup_app_l by (rewrite statuses_length, <- ids_length; exact H1).
    eapply (workers_ending s Hs); eauto.
  - intros id r Hact. destruct (active_started s Hs id r Hact) as [H1 H2].
    split; [|apply lookup_app_l_Some; exact H2].
    apply Hold; [|exact H1]. rewrite <- ids_length. eapply lookup_lt_Some; eauto.
  - intros k id r Hc. destruct (cancels_started s Hs k id r Hc) as (H1 & H2 & H3).
    assert (Hr : r < length (heap s)).
    { rewrite <- ids_length. eapply lookup_lt_Some; eauto. }
    split; [apply Hold; assumption|]. split; [apply lookup_app_l_Some; exact H2|].
    rewrite lookup_app_l by (rewrite statuses_length; exact Hr). exact H3.
Qed.

(** A queued job is taken out of its tier. *)
Lemma consistent_dequeue s t index :
  consistent s ->
  consistent
    (set_jobQueue (set_tier t (delete index (tier t (jobQueue s))) (jobQueue s)) s).
Proof.
  intros Hs.
  pose proof (queue_order_dequeue t index (jobQueue s)) as Hsub.
  constructor; cbn [jobQueue activeJobs workers cancels set_jobQueue];
    change (ids (set_jobQueue _ s)) with (ids s);
    change (statuses (set_jobQueue _ s)) with (statuses s);
    try apply Hs.
  - eapply sublist_NoDup; [apply Hs|exact Hsub].
  - intros r Hr. apply (queue_valid s Hs). eapply elem_of_sublist; eauto.
  - intros k w Hw. destruct (workers_started s Hs k w Hw) as [H1 H2].
    split; [exact H1|]. intros Hin. apply H2. eapply elem_of_sublist; eauto.
  - intros id r Hact. destruct (active_started s Hs id r Hact) as [H1 H2].
    split; [|exact H2]. intros Hin. apply H1. eapply elem_of_sublist; eauto.
  - intros k id r Hc. destruct (cancels_started s Hs k id r Hc) as (H1 & H2 & H3).
    split; [|auto]. intros Hin. apply H1. eapply elem_of_sublist; eauto.
Qed.

(** ** Ids and statuses through the operations *)

Lemma fmap_jobId_modify_job r f s :
  (forall job, jobId (f job) = jobId job) ->
  jobId <$> heap (modify_job r f s) = jobId <$> heap s.
Proof.
  intros Hf. unfold modify_job. destruct (heap s !! r) as [job|] eqn:Hjob; [|reflexivity].
  cbn [heap set_heap]. apply (ids_insert _ _ job); [exact Hjob|apply Hf].
Qed.

Lemma fmap_status_modify_job_same r f s :
  (forall job, status (f job) = status job) ->
  status <$> heap (modify_job r f s) = status <$> heap s.
Proof.
  intros Hf. unfold modify_job. destruct (heap s !! r) as [job|] eqn:Hjob; [|reflexivity].
  cbn [heap set_heap]. rewrite list_fmap_insert, Hf.
  apply list_insert_id. rewrite list_lookup_fmap, Hjob. reflexivity.
Qed.

Lemma fmap_status_modify_job_set r f s st :
  (forall job, status (f job) = st) ->
  status <$> heap (modify_job r f s) = <[r := st]> (status <$> heap s).
Proof.
  intros Hf. unfold modify_job. destruct (heap s !! r) as [job|] eqn:Hjob.
  - cbn [heap set_heap]. rewrite list_fmap_insert, Hf. reflexivity.
  - symmetry. apply list_insert_ge. rewrite length_fmap.
    apply lookup_ge_None. exact Hjob.
Qed.

(** Reduce the ids and statuses of a composed state to those of the state
    it was built from. *)
Ltac heap_simpl :=
  unfold ids, statuses;
  repeat (progress
    (frame;
     rewrite ?fmap_jobId_modify_job by (intros; reflexivity);
     rewrite ?fmap_status_modify_job_same by (intros; reflexivity);
     rewrite ?(fmap_status_modify_job_set _ _ _ complete) by (intros; reflexivity);
     rewrite ?(fmap_status_modify_job_set _ _ _ cancelled) by (intros; reflexivity))).

(** One step of a worker, seen from the scheduler: either it is the last
    step of a finished job, or the worker keeps its job and slot, and the
    status of the job is untouched or becomes [complete]. *)
Lemma worker_step_summary k resp s s' w :
  processJob_resume k resp s = Some s' ->
  workers s !! k = Some w ->
  (ends (w_pc w) = true /\ s' = finish k w s) \/
  (jobQueue s' = jobQueue s /\ activeJobs s' = activeJobs s /\
   cancels s' = cancels s /\ ids s' = ids s /\
   exists w', workers s' = <[k := w']> (workers s) /\ w_job w' = w_job w /\
     ((statuses s' = statuses s /\ ends (w_pc w') = false) \/
      statuses s' = <[w_job w := complete]> (statuses s))).
Proof.
  unfold processJob_resume. intros H Hw. rewrite Hw in H.
  destruct (w_pc w) eqn:Hpc; destruct resp; try discriminate;
    repeat case_match; simplify_eq.
  all: try (left; split; [reflexivity|reflexivity]).
  all: right; unfold_worker; repeat case_match.
  all: heap_simpl.
  all: do 4 (split; [reflexivity|]).
  all: eexists; split;
         [first [reflexivity | symmetry; apply list_insert_id; exact Hw]|];
         split; [reflexivity|].
  all: first [left; split; [reflexivity|cbn [w_pc with_pageContents]; rewrite ?Hpc; reflexivity]
             | right; reflexivity].
Qed.

(** ** Every step keeps the manager consistent *)

Lemma insert_keeps_processing (l : list Status) r st x :
  st <> processing ->
  <[r := st]> l !! x = Some processing -> l !! x = Some processing.
Proof.
  intros Hst H. destruct (decide (r = x)) as [->|Hne].
  - destruct (decide (x < length l)) as [Hlt|Hge].
    + rewrite list_lookup_insert_eq in H by exact Hlt. congruence.
    + rewrite list_insert_ge in H by lia. exact H.
  - rewrite list_lookup_insert_ne in H by exact Hne. exact H.
Qed.

Lemma insert_not_processing (l : list Status) r st x :
  st <> processing ->
  l !! x <> Some processing -> <[r := st]> l !! x <> Some processing.
Proof. intros Hst H H'. apply H. eapply insert_keeps_processing; eauto. Qed.

Lemma insert_self_not_processing (l : list Status) r st :
  st <> processing -> <[r := st]> l !! r <> Some processing.
Proof.
  intros Hst H. destruct (decide (r < length l)) as [Hlt|Hge].
  - rewrite list_lookup_insert_eq in H by exact Hlt. congruence.
  - rewrite list_insert_ge in H by lia.
    rewrite lookup_ge_None_2 in H by lia. discriminate.
Qed.

Lemma finish_consistent k w s :
  consistent s -> workers s !! k = Some w -> ends (w_pc w) = true ->
  consistent (finish k w s).
Proof.
  intros Hs Hw Hends. unfold finish. apply processNextJob_rec_consistent.
  rewrite job_update_heap.
  destruct (workers_started s Hs k w Hw) as [Hr _]. rewrite ids_length in Hr.
  destruct (lookup_lt_is_Some_2 _ _ Hr) as [job Hjob]. rewrite Hjob.
  assert (Hid : ids s !! w_job w = Some (jobId job)).
  { unfold ids. rewrite list_lookup_fmap, Hjob. reflexivity. }
  pose proof (consistent_delete s (jobId job) (w_job w) Hs Hid
                (workers_ending s Hs k w Hw Hends)) as Hs'.
  apply (consistent_mono _ _ Hs'); heap_simpl; try reflexivity.
  - auto.
  - intros k' w' Hw'. destruct (decide (k' = k)) as [->|Hne].
    + rewrite list_lookup_insert_eq in Hw' by (eapply lookup_lt_Some; eauto).
      injection Hw' as <-. exists w. split; [exact Hw|]. split; [reflexivity|].
      discriminate.
    + rewrite list_lookup_insert_ne in Hw' by congruence.
      exists w'. split; [exact Hw'|]. split; [reflexivity|].
      apply (workers_ending s Hs k' w' Hw').
  - intros k' id r Hc. left. eauto.
Qed.

Lemma worker_step_consistent k resp s s' :
  consistent s -> processJob_resume k resp s = Some s' -> consistent s'.
Proof.
  intros Hs Hstep.
  destruct (workers s !! k) as [w|] eqn:Hw.
  2:{ unfold processJob_resume in Hstep. rewrite Hw in Hstep. discriminate. }
  destruct (worker_step_summary k resp s s' w Hstep Hw)
    as [[Hends ->]|(Eq & Eact & Ecs & Eids & w' & Ews & Ejob & Est)].
  { apply finish_consistent; assumption. }
  destruct (workers_started s Hs k w Hw) as [Hr _].
  apply (consistent_mono s s' Hs Eids Eq Eact).
  - intros r Hproc. destruct Est as [[E _]|E]; rewrite E in Hproc; [exact Hproc|].
    eapply insert_keeps_processing; [|exact Hproc]. discriminate.
  - intros k' w'' Hw''. rewrite Ews in Hw''.
    destruct (decide (k' = k)) as [->|Hne].
    + rewrite list_lookup_insert_eq in Hw'' by (eapply lookup_lt_Some; eauto).
      injection Hw'' as <-. exists w. split; [exact Hw|]. split; [exact Ejob|].
      rewrite Ejob. destruct Est as [[_ Hf]|E]; [congruence|].
      intros _. rewrite E. apply insert_self_not_processing. discriminate.
    + rewrite list_lookup_insert_ne in Hw'' by congruence.
      exists w''. split; [exact Hw''|]. split; [reflexivity|].
      intros He. pose proof (workers_ending s Hs k' w'' Hw'' He) as Hold.
      destruct Est as [[E _]|E]; rewrite E; [exact Hold|].
      apply insert_not_processing; [discriminate|exact Hold].
  - intros k' id r Hc. rewrite Ecs in Hc. left. eauto.
Qed.

Lemma cancelJob_consistent id s : consistent s -> consistent (cancelJob id s).
Proof.
  intros Hs. unfold cancelJob.
  destruct (activeJobs s !! id) as [r|] eqn:Hact.
  - (* an active job *)
    set (f := fun job => with_completedAt (now s)
                (with_message "Job cancelled by user"
                   (with_progress 0 (with_status cancelled job)))).
    assert (Est : statuses (modify_job r f s) = <[r := cancelled]> (statuses s))
      by (apply fmap_status_modify_job_set; reflexivity).
    assert (Eids : ids (modify_job r f s) = ids s)
      by (apply fmap_jobId_modify_job; reflexivity).
    assert (Hmid : consistent (modify_job r f s)).
    { apply (consistent_mono s _ Hs Eids); frame; try reflexivity.
      - intros x Hx. rewrite Est in Hx.
        eapply insert_keeps_processing; [|exact Hx]. discriminate.
      - intros k w Hw. exists w. split; [exact Hw|]. split; [reflexivity|].
        intros He. rewrite Est. apply insert_not_processing; [discriminate|].
        eapply (workers_ending s Hs); eauto.
      - intros k id' r' Hc. left. eauto. }
    destruct (heap (modify_job r f s) !! r) as [job|]; [|exact Hmid].
    apply (consistent_mono s _ Hs); try (unfold ids, statuses; frame; assumption);
      frame; try reflexivity.
    + intros x Hx. change (statuses (modify_job r f s) !! x = Some processing) in Hx.
      rewrite Est in Hx. eapply insert_keeps_processing; [|exact Hx]. discriminate.
    + intros k w Hw. exists w. split; [exact Hw|]. split; [reflexivity|].
      intros He. change (statuses (modify_job r f s) !! w_job w <> Some processing).
      rewrite Est. apply insert_not_processing; [discriminate|].
      eapply (workers_ending s Hs); eauto.
    + intros k id' r' Hc. apply lookup_app_Some in Hc as [Hc|[_ Hc]]; [left; eauto|].
      apply list_lookup_singleton_Some in Hc as [_ Hc]. injection Hc as <- <-.
      right. split; [exact Hact|].
      change (statuses (modify_job r f s) !! r <> Some processing).
      rewrite Est. apply insert_self_not_processing. discriminate.
  - destruct (search_queue id s) as [[t index]|].
    + destruct (tier t (jobQueue s) !! index) as [r|]; [|exact Hs].
      pose proof (consistent_dequeue s t index Hs) as Hs'.
      apply (consistent_mono _ _ Hs'); try reflexivity; [auto| |].
      * intros k w Hw. exists w. split; [exact Hw|]. split; [reflexivity|].
        apply (workers_ending _ Hs' k w Hw).
      * intros k id' r' Hc. frame. apply lookup_app_Some in Hc as [Hc|[_ Hc]]; [left; eauto|].
        apply list_lookup_singleton_Some in Hc as [_ Hc]. discriminate.
    + apply (consistent_mono _ _ Hs); try reflexivity; [auto| |].
      * intros k w Hw. exists w. split; [exact Hw|]. split; [reflexivity|].
        apply (workers_ending _ Hs k w Hw).
      * intros k id' r' Hc. frame. apply lookup_app_Some in Hc as [Hc|[_ Hc]]; [left; eauto|].
        apply list_lookup_singleton_Some in Hc as [_ Hc]. discriminate.
Qed.

Lemma consistent_same s s' :
  consistent s ->
  ids s' = ids s -> statuses s' = statuses s -> jobQueue s' = jobQueue s ->
  activeJobs s' = activeJobs s -> workers s' = workers s ->
  (forall k id r, cancels s' !! k = Some (cancel_active id r) ->
                  exists k', cancels s !! k' = Some (cancel_active id r)) ->
  consistent s'.
Proof.
  intros Hs Eids Est Eq Eact Ews Hcs.
  apply (consistent_mono s s' Hs Eids Eq Eact).
  - rewrite Est. auto.
  - intros k w Hw. rewrite Ews in Hw. exists w. split; [exact Hw|].
    split; [reflexivity|]. rewrite Est. apply (workers_ending s Hs k w Hw).
  - intros k id r Hc. left. eauto.
Qed.

Lemma cancel_return_consistent k success msg s :
  consistent s -> consistent (cancel_return k success msg s).
Proof.
  intros Hs. apply (consistent_same s _ Hs); try reflexivity.
  intros k' id r Hc. cbn [cancels cancel_return set_cancels] in Hc.
  destruct (decide (k = k')) as [->|Hne].
  - destruct (decide (k' < length (cancels s))) as [Hlt|Hge].
    + rewrite list_lookup_insert_eq in Hc by exact Hlt. discriminate.
    + rewrite list_insert_ge in Hc by lia. eauto.
  - rewrite list_lookup_insert_ne in Hc by exact Hne. eauto.
Qed.

Lemma cancel_failed_consistent k msg s :
  consistent s -> consistent (cancel_failed k msg s).
Proof.
  intros Hs. unfold cancel_failed. apply cancel_return_consistent.
  apply (consistent_same s _ Hs); try reflexivity. eauto.
Qed.

Lemma cancelJob_resume_consistent k resp s s' :
  consistent s -> cancelJob_resume k resp s = Some s' -> consistent s'.
Proof.
  intros Hs Hstep. unfold cancelJob_resume in Hstep.
  destruct (cancels s !! k) as [[id r| | |]|] eqn:Hc; [| | |discriminate..].
  - destruct (cancels_started s Hs k id r Hc) as (_ & Hid & Hst).
    assert (Hfree : consistent
              (processNextJob
                 (set_completedJobs (<[id:=r]> (completedJobs s))
                    (set_activeJobs (delete id (activeJobs s)) s)))).
    { apply processNextJob_rec_consistent.
      apply (consistent_same _ _ (consistent_delete s id r Hs Hid Hst));
        try reflexivity. eauto. }
    destruct resp; injection Hstep as <-;
      first [apply cancel_failed_consistent; exact Hs
            | apply cancel_return_consistent; exact Hfree].
  - destruct resp; injection Hstep as <-;
      first [apply cancel_failed_consistent | apply cancel_return_consistent];
      exact Hs.
  - destruct resp; try destruct (truthy v); injection Hstep as <-;
      first [apply cancel_failed_consistent | apply cancel_return_consistent];
      exact Hs.
Qed.

Lemma queueJob_consistent job saved s :
  consistent s -> status job = queued -> fresh_id (jobId job) s ->
  consistent (fst (queueJob job saved s)).
Proof.
  intros Hs Hst Hfresh. unfold queueJob.
  assert (Hs0 : consistent (call (SaveJob job) s))
    by (apply (consistent_same s _ Hs); try reflexivity; eauto).
  assert (Hlog : forall e, consistent (log_error e (call (SaveJob job) s)))
    by (intros e; apply (consistent_same s _ Hs); try reflexivity; eauto).
  assert (Hpush : forall t,
      consistent (set_jobQueue
                    (push t (length (heap (call (SaveJob job) s)))
                       (jobQueue (call (SaveJob job) s)))
                    (alloc job (call (SaveJob job) s)))).
  { intros t. apply consistent_submit; [exact Hs0|congruence|exact Hfresh]. }
  destruct saved; try apply Hlog;
    (destruct (tier_of_key (priority job)) as [t|]; [|apply Hlog]);
    cbn [fst];
    (destruct (active_count _ <? MAX_CONCURRENT_JOBS)%Z;
     [apply processNextJob_rec_consistent|]; apply Hpush).
Qed.

Lemma restore_consistent s job :
  consistent s -> fresh_id (jobId job) s -> consistent (restore s job).
Proof.
  intros Hs Hfresh. unfold restore. apply consistent_submit; [exact Hs| |].
  - destruct (decide (status job = processing)); [discriminate|assumption].
  - destruct (decide (status job = processing)); exact Hfresh.
Qed.

Lemma foldl_restore_consistent jobs s :
  consistent s ->
  NoDup (jobId <$> jobs) ->
  (forall job, job ∈ jobs -> fresh_id (jobId job) s) ->
  consistent (foldl restore s jobs).
Proof.
  revert s. induction jobs as [|job jobs IH]; intros s Hs Hnd Hfresh; [exact Hs|].
  cbn [foldl]. rewrite fmap_cons in Hnd. apply NoDup_cons in Hnd as [Hnotin Hnd].
  apply IH; [|exact Hnd|].
  - apply restore_consistent; [exact Hs|]. apply Hfresh. left.
  - intros job' Hjob'. unfold fresh_id. intros j Hj. unfold restore in Hj.
    cbn [heap set_jobQueue alloc set_heap] in Hj.
    apply elem_of_app in Hj as [Hj|Hj].
    + apply (Hfresh job'); [right; exact Hjob'|exact Hj].
    + apply list_elem_of_singleton in Hj as ->.
      assert (jobId (if decide (status job = processing)
                     then with_status queued job else job) = jobId job) as ->
        by (destruct (decide _); reflexivity).
      intros Heq. apply Hnotin. rewrite Heq. apply list_elem_of_fmap_2. exact Hjob'.
Qed.

Lemma init_consistent pending s :
  consistent s -> admissible (do_init pending) s -> consistent (fst (init pending s)).
Proof.
  intros Hs Hadm. unfold init.
  assert (Hs0 : consistent (call GetPendingJobs s))
    by (apply (consistent_same s _ Hs); try reflexivity; eauto).
  destruct pending as [msg|jobs]; cbn [fst]; apply processNextJob_rec_consistent.
  - apply (consistent_same s _ Hs); try reflexivity; eauto.
  - destruct Hadm as [Hnd Hfresh]. apply foldl_restore_consistent; assumption.
Qed.

Lemma step_consistent l s s' :
  consistent s -> admissible l s -> step l s = Some s' -> consistent s'.
Proof.
  intros Hs Hadm Hstep. destruct l as [t|pending|job saved|id|k resp|k resp];
    cbn [step] in Hstep.
  - injection Hstep as <-. apply (consistent_same s _ Hs); try reflexivity; eauto.
  - injection Hstep as <-. apply init_consistent; assumption.
  - injection Hstep as <-. destruct Hadm as [Hst Hfresh].
    apply queueJob_consistent; assumption.
  - injection Hstep as <-. apply cancelJob_consistent. exact Hs.
  - eapply cancelJob_resume_consistent; eauto.
  - eapply worker_step_consistent; eauto.
Qed.

Lemma initial_consistent : consistent initial_state.
Proof.
  constructor; unfold ids, statuses, initial_state, queue_order;
    cbn [heap jobQueue activeJobs workers cancels q_high q_normal q_low fmap
         list_fmap app].
  - constructor.
  - intros r H. rewrite lookup_nil in H. discriminate.
  - constructor.
  - intros r H. apply not_elem_of_nil in H. contradiction.
  - intros k w H. rewrite lookup_nil in H. discriminate.
  - intros k w H. rewrite lookup_nil in H. discriminate.
  - intros id r H. rewrite lookup_empty in H. discriminate.
  - intros k id r H. rewrite lookup_nil in H. discriminate.
Qed.

Lemma reachable_unique_consistent s : reachable_unique s -> consistent s.
Proof.
  intros Hreach. induction Hreach as [|l s s' _ IH Hadm Hstep].
  - apply initial_consistent.
  - eapply step_consistent; eauto.
Qed.

Lemma reachable_unique_reachable s : reachable_unique s -> reachable s.
Proof.
  intros Hreach. induction Hreach as [|l s s' _ IH _ Hstep].
  - apply reachable_initial.
  - eapply reachable_step; eauto.
Qed.

(** C4. In every state the manager can reach, the active-job map holds at
    most [MAX_CONCURRENT_JOBS] jobs (a limit that is not negative):
    [processNextJob] compares the size of the map with the limit before
    every start, and [queueJob] before it calls [processNextJob].  When
    the callers keep to the data model (distinct job ids, jobs submitted
    as [queued]), the jobs whose status is [processing] are all in that
    map, so there are at most [MAX_CONCURRENT_JOBS] of them. *)
Theorem processing_jobs_within_limit :
  (0 <= MAX_CONCURRENT_JOBS)%Z ->
  (forall s, reachable s -> (active_count s <= MAX_CONCURRENT_JOBS)%Z) /\
  (forall s, reachable_unique s ->
             (Z.of_nat (processing_count s) <= active_count s)%Z /\
             (Z.of_nat (processing_count s) <= MAX_CONCURRENT_JOBS)%Z).
Proof.
  intros Hmax. split.
  - intros s Hreach.
    apply (reachable_bounded MAX_CONCURRENT_JOBS global_io floor_share);
      assumption.
  - intros s Hreach.
    pose proof (processing_count_le s (reachable_unique_consistent s Hreach)) as Hle.
    pose proof (reachable_bounded MAX_CONCURRENT_JOBS global_io floor_share s Hmax
                  (reachable_unique_reachable s Hreach)) as Hcap.
    unfold active_count in *. lia.
Qed.

End Uniqueness.
(** * Jobs out of reach *)

Section Parked.

Variable MAX_CONCURRENT_JOBS : Z.
Variable global_io : option (string -> Event -> bool).
Variable floor_share : nat -> nat -> nat.

Local Abbreviation emitSocketEvent := (emitSocketEvent global_io).
Local Abbreviation job_update := (job_update global_io).
Local Abbreviation processNextJob_rec := (processNextJob_rec MAX_CONCURRENT_JOBS).
Local Abbreviation processNextJob := (processNextJob MAX_CONCURRENT_JOBS).
Local Abbreviation queueJob := (queueJob MAX_CONCURRENT_JOBS).
Local Abbreviation init := (init MAX_CONCURRENT_JOBS).
Local Abbreviation cancelJob_resume := (cancelJob_resume MAX_CONCURRENT_JOBS).
Local Abbreviation finish := (finish MAX_CONCURRENT_JOBS global_io).
Local Abbreviation minimal_path := (minimal_path global_io).
Local Abbreviation assemble := (assemble global_io).
Local Abbreviation after_extractor := (after_extractor global_io).
Local Abbreviation processJob_resume :=
  (processJob_resume MAX_CONCURRENT_JOBS global_io floor_share).
Local Abbreviation step := (step MAX_CONCURRENT_JOBS global_io floor_share).
Local Abbreviation run := (run MAX_CONCURRENT_JOBS global_io floor_share).
Local Abbreviation reachable := (reachable MAX_CONCURRENT_JOBS global_io floor_share).
Local Abbreviation reachable_unique :=
  (reachable_unique MAX_CONCURRENT_JOBS global_io floor_share).

(** ** A job nothing refers to stays as it is *)

Lemma modify_job_lookup_ne x f s r :
  x <> r -> heap (modify_job x f s) !! r = heap s !! r.
Proof.
  intros Hne. unfold modify_job. destruct (heap s !! x); [|reflexivity].
  cbn [heap set_heap]. apply list_lookup_insert_ne. exact Hne.
Qed.

Lemma processJob_start_parked x s r :
  parked r s -> x <> r ->
  parked r (processJob_start x s) /\ heap (processJob_start x s) !! r = heap s !! r.
Proof.
  intros (Hlt & Hq & Hws & Hact & Hcs) Hne. unfold processJob_start.
  destruct (heap s !! x) as [job|]; [|repeat split; assumption].
  unfold parked.
  cbn [heap jobQueue activeJobs workers cancels call set_workers set_activeJobs
       set_heap].
  split; [|apply list_lookup_insert_ne; exact Hne].
  split; [rewrite length_insert; exact Hlt|]. split; [exact Hq|].
  split; [|split; [|exact Hcs]].
  - intros k w Hw. apply lookup_app_Some in Hw as [Hw|[_ Hw]]; [eauto|].
    apply list_lookup_singleton_Some in Hw as [_ <-]. exact Hne.
  - intros id r' Hr'. apply lookup_insert_Some in Hr' as [[_ <-]|[_ Hr']]; eauto.
Qed.

Lemma processNextJob_rec_parked fuel s r :
  parked r s ->
  parked r (processNextJob_rec fuel s) /\
  heap (processNextJob_rec fuel s) !! r = heap s !! r.
Proof.
  revert s. induction fuel as [|fuel IH]; intros s Hp; simpl; [auto|].
  destruct (active_count s >=? MAX_CONCURRENT_JOBS)%Z; [auto|].
  destruct (shift_next (jobQueue s)) as [[[t x] q']|] eqn:Hshift; [|auto].
  pose proof (shift_next_order _ _ _ _ Hshift) as Horder.
  destruct Hp as (Hlt & Hq & Hrest). rewrite Horder in Hq.
  apply not_elem_of_cons in Hq as [Hne Hq'].
  destruct (processJob_start_parked x (set_jobQueue q' s) r) as [Hp' Hh'];
    [repeat split; try assumption; apply Hrest | congruence |].
  cbn [heap set_jobQueue] in Hh'.
  destruct (active_count _ <? MAX_CONCURRENT_JOBS)%Z; [|auto].
  destruct (IH _ Hp') as [Hp'' Hh'']. split; [exact Hp''|]. congruence.
Qed.

Lemma processNextJob_parked x r (o : option Job) :
  parked r x -> heap x !! r = o ->
  parked r (processNextJob x) /\ heap (processNextJob x) !! r = o.
Proof.
  intros Hp Hh.
  destruct (processNextJob_rec_parked (S (queue_length (jobQueue x))) x r Hp)
    as [Hp' Hh'].
  split; [exact Hp'|]. unfold processNextJob. rewrite Hh'. exact Hh.
Qed.

Lemma submit_parked s job t r :
  parked r s ->
  parked r (set_jobQueue (push t (length (heap s)) (jobQueue s)) (alloc job s)) /\
  (heap s ++ [job])%list !! r = heap s !! r.
Proof.
  intros (Hlt & Hq & Hrest).
  split; [|apply lookup_app_l; exact Hlt].
  unfold parked.
  split; [cbn [heap set_jobQueue alloc set_heap]; rewrite length_app; lia|].
  split; [|exact Hrest].
  cbn [jobQueue set_jobQueue alloc set_heap]. rewrite queue_order_push.
  apply not_elem_of_cons. split; [lia|exact Hq].
Qed.

Lemma restore_parked s job r :
  parked r s -> parked r (restore s job) /\ heap (restore s job) !! r = heap s !! r.
Proof. intros Hp. unfold restore. apply submit_parked. exact Hp. Qed.

Lemma foldl_restore_parked jobs s r :
  parked r s ->
  parked r (foldl restore s jobs) /\ heap (foldl restore s jobs) !! r = heap s !! r.
Proof.
  revert s. induction jobs as [|job jobs IH]; intros s Hp; [auto|].
  cbn [foldl]. destruct (restore_parked s job r Hp) as [Hp' Hh'].
  destruct (IH _ Hp') as [Hp'' Hh'']. split; [exact Hp''|congruence].
Qed.

(** A state built from [s] in which queue, map and pending cancellations
    refer to no job they did not refer to in [s], and the workers keep
    their jobs. *)
Lemma parked_mono s s' r :
  parked r s ->
  length (heap s') = length (heap s) ->
  (forall x, x ∈ queue_order (jobQueue s') -> x ∈ queue_order (jobQueue s)) ->
  (forall id r', activeJobs s' !! id = Some r' -> activeJobs s !! id = Some r') ->
  w_job <$> workers s' = w_job <$> workers s ->
  (forall k id r', cancels s' !! k = Some (cancel_active id r') ->
     (exists k', cancels s !! k' = Some (cancel_active id r')) \/
     activeJobs s !! id = Some r') ->
  parked r s'.
Proof.
  intros (Hlt & Hq & Hws & Hact & Hcs) El Eq Eact Ews Ecs. unfold parked.
  split; [lia|]. split; [intros Hin; apply Hq, Eq, Hin|].
  split; [|split; [intros id r' Hr'; eauto|]].
  - intros k w' Hw'.
    assert (Hj : (w_job <$> workers s') !! k = Some (w_job w'))
      by (rewrite list_lookup_fmap, Hw'; reflexivity).
    rewrite Ews, list_lookup_fmap in Hj.
    destruct (workers s !! k) as [w|] eqn:Hw; [|discriminate].
    injection Hj as <-. eauto.
  - intros k id r' Hc. destruct (Ecs k id r' Hc) as [[k' Hk']|Ha]; eauto.
Qed.

Lemma cancels_insert_returned (cs : list CancelPC) k success msg k' id r :
  <[k := cancel_returned success msg]> cs !! k' = Some (cancel_active id r) ->
  cs !! k' = Some (cancel_active id r).
Proof.
  intros H. destruct (decide (k = k')) as [->|Hne].
  - destruct (decide (k' < length cs)) as [Hlt|Hge].
    + rewrite list_lookup_insert_eq in H by exact Hlt. discriminate.
    + rewrite list_insert_ge in H by lia. exact H.
  - rewrite list_lookup_insert_ne in H by exact Hne. exact H.
Qed.

Lemma worker_step_heap k resp s s' w r :
  processJob_resume k resp s = Some s' ->
  workers s !! k = Some w ->
  w_job w <> r ->
  (ends (w_pc w) = true /\ s' = finish k w s) \/ heap s' !! r = heap s !! r.
Proof.
  unfold processJob_resume. intros H Hw Hne. rewrite Hw in H.
  destruct (w_pc w) eqn:Hpc; destruct resp; try discriminate;
    repeat case_match; simplify_eq.
  all: try (left; split; reflexivity).
  all: right; unfold_worker; repeat case_match.
  all: frame; unfold set_progress;
       repeat (rewrite modify_job_lookup_ne by exact Hne; frame);
       reflexivity.
Qed.

Lemma finish_parked k w s r :
  parked r s -> workers s !! k = Some w ->
  parked r (finish k w s) /\ heap (finish k w s) !! r = heap s !! r.
Proof.
  intros Hp Hw. unfold finish.
  match goal with
  | |- context [processNextJob ?x] => set (s2 := x)
  end.
  assert (Hh : heap s2 = heap s).
  { subst s2. destruct (heap _ !! w_job w); frame; reflexivity. }
  assert (Hp2 : parked r s2).
  { apply (parked_mono s s2 r Hp).
    - rewrite Hh. reflexivity.
    - subst s2. destruct (heap _ !! w_job w); frame; auto.
    - subst s2. destruct (heap _ !! w_job w); frame; auto.
      intros id r' Hr'. apply lookup_delete_Some in Hr' as [_ Hr']. exact Hr'.
    - subst s2. destruct (heap _ !! w_job w); frame;
        rewrite list_fmap_insert; apply list_insert_id;
        rewrite list_lookup_fmap, Hw; reflexivity.
    - subst s2. destruct (heap _ !! w_job w); frame; eauto. }
  destruct (processNextJob_rec_parked (S (queue_length (jobQueue s2))) s2 r Hp2)
    as [Hp3 Hh3].
  split; [exact Hp3|]. unfold processNextJob. rewrite Hh3, Hh. reflexivity.
Qed.

(** No step of the manager touches a parked job, and it stays parked. *)
Lemma step_parked l s s' r :
  parked r s -> step l s = Some s' ->
  parked r s' /\ heap s' !! r = heap s !! r.
Proof.
  intros Hp Hstep. destruct l as [t|pending|job saved|id|k resp|k resp];
    cbn [step] in Hstep.
  - (* the clock *)
    injection Hstep as <-. split; [|reflexivity].
    apply (parked_mono s _ r Hp); frame; eauto.
  - (* init *)
    injection Hstep as <-. unfold init.
    destruct pending as [msg|jobs]; cbn [fst].
    + apply processNextJob_parked; [|reflexivity].
      apply (parked_mono s _ r Hp); frame; eauto.
    + assert (Hp0 : parked r (call GetPendingJobs s))
        by (apply (parked_mono s _ r Hp); frame; eauto).
      destruct (foldl_restore_parked jobs _ r Hp0) as [Hp1 Hh1].
      apply processNextJob_parked; assumption.
  - (* queueJob *)
    injection Hstep as <-. unfold queueJob.
    assert (Hp0 : parked r (call (SaveJob job) s))
      by (apply (parked_mono s _ r Hp); frame; eauto).
    assert (Hlog : forall e, parked r (log_error e (call (SaveJob job) s)))
      by (intros e; apply (parked_mono s _ r Hp); frame; eauto).
    destruct saved as [msg|v|rows|ps].
    1: { cbn [fst]. split; [apply Hlog|reflexivity]. }
    all: destruct (tier_of_key (priority job)) as [t|]; cbn [fst];
           [|split; [apply Hlog|reflexivity]].
    all: destruct (submit_parked (call (SaveJob job) s) job t r Hp0) as [Hp1 Hh1].
    all: destruct (active_count _ <? MAX_CONCURRENT_JOBS)%Z;
           [apply processNextJob_parked; assumption | split; assumption].
  - (* cancelJob, up to its await *)
    injection Hstep as <-. unfold cancelJob.
    destruct (activeJobs s !! id) as [r'|] eqn:Hact.
    + assert (Hne : r' <> r) by (destruct Hp as (_ & _ & _ & Ha & _); eauto).
      assert (Hmid : forall f, parked r (modify_job r' f s)).
      { intros f. apply (parked_mono s _ r Hp); frame; eauto. }
      destruct (heap (modify_job r' _ s) !! r') as [job|].
      * split; [|frame; apply modify_job_lookup_ne; exact Hne].
        apply (parked_mono s _ r Hp); frame; auto.
        intros k id' r'' Hc. apply lookup_app_Some in Hc as [Hc|[_ Hc]]; [left; eauto|].
        apply list_lookup_singleton_Some in Hc as [_ Hc]. injection Hc as <- <-.
        right. exact Hact.
      * split; [apply Hmid|apply modify_job_lookup_ne; exact Hne].
    + destruct (search_queue id s) as [[t index]|].
      * destruct (tier t (jobQueue s) !! index) as [x|]; [|auto].
        split; [|reflexivity].
        apply (parked_mono s _ r Hp); frame; auto.
        -- intros y Hy. eapply elem_of_sublist; [exact Hy|apply queue_order_dequeue].
        -- intros k id' r'' Hc. apply lookup_app_Some in Hc as [Hc|[_ Hc]]; [left; eauto|].
           apply list_lookup_singleton_Some in Hc as [_ Hc]. discriminate.
      * split; [|reflexivity].
        apply (parked_mono s _ r Hp); frame; auto.
        intros k id' r'' Hc. apply lookup_app_Some in Hc as [Hc|[_ Hc]]; [left; eauto|].
        apply list_lookup_singleton_Some in Hc as [_ Hc]. discriminate.
  - (* cancelJob, from its await *)
    unfold cancelJob_resume in Hstep.
    assert (Hret : forall success msg x,
               parked r x -> parked r (cancel_return k success msg x)).
    { intros success msg x Hx. apply (parked_mono x _ r Hx); frame; auto.
      intros k' id r' Hc. left. exists k'. eapply cancels_insert_returned; eauto. }
    assert (Hfail : forall msg, parked r (cancel_failed k msg s)).
    { intros msg. unfold cancel_failed. apply Hret.
      apply (parked_mono s _ r Hp); frame; eauto. }
    destruct (cancels s !! k) as [[id r'| | |]|] eqn:Hc; [| | |discriminate..].
    + assert (Hp1 : parked r (set_completedJobs (<[id:=r']> (completedJobs s))
                                (set_activeJobs (delete id (activeJobs s)) s))).
      { apply (parked_mono s _ r Hp); frame; eauto.
        intros id' r'' Hr''. apply lookup_delete_Some in Hr'' as [_ Hr'']. exact Hr''. }
      destruct (processNextJob_parked _ r _ Hp1 eq_refl) as [Hp2 Hh2].
      destruct resp; injection Hstep as <-;
        first [split; [apply Hfail|reflexivity]
              | split; [apply Hret; exact Hp2 | exact Hh2]].
    + destruct resp; injection Hstep as <-;
        first [split; [apply Hfail|reflexivity]
              | split; [apply Hret; exact Hp | reflexivity]].
    + destruct resp; try destruct (truthy v); injection Hstep as <-;
        first [split; [apply Hfail|reflexivity]
              | split; [apply Hret; exact Hp | reflexivity]].
  - (* processJob *)
    destruct (workers s !! k) as [w|] eqn:Hw.
    2:{ unfold processJob_resume in Hstep. rewrite Hw in Hstep. discriminate. }
    assert (Hne : w_job w <> r) by (destruct Hp as (_ & _ & Hws & _); eauto).
    destruct (worker_step_summary MAX_CONCURRENT_JOBS global_io floor_share
                k resp s s' w Hstep Hw)
      as [[Hends ->]|(Eq & Eact & Ecs & Eids & w' & Ews & Ejob & _)].
    { apply finish_parked; assumption. }
    destruct (worker_step_heap k resp s s' w r Hstep Hw Hne) as [[_ ->]|Hh].
    { apply finish_parked; assumption. }
    split; [|exact Hh].
    apply (parked_mono s s' r Hp).
    + rewrite <- !ids_length, Eids. reflexivity.
    + rewrite Eq. auto.
    + rewrite Eact. auto.
    + rewrite Ews, list_fmap_insert, Ejob. apply list_insert_id.
      rewrite list_lookup_fmap, Hw. reflexivity.
    + rewrite Ecs. eauto.
Qed.

Lemma run_parked ls s s' r :
  parked r s -> run ls s = Some s' ->
  parked r s' /\ heap s' !! r = heap s !! r.
Proof.
  revert s. induction ls as [|l ls IH]; intros s Hp Hrun; cbn [run] in Hrun.
  - injection Hrun as <-. auto.
  - destruct (step l s) as [s1|] eqn:Hstep; [|discriminate].
    destruct (step_parked l s s1 r Hp Hstep) as [Hp1 Hh1].
    destruct (IH s1 Hp1 Hrun) as [Hp2 Hh2]. split; [exact Hp2|congruence].
Qed.

(** ** Cancelling a queued job *)

Lemma findIndex_Some {A} (pred : A -> bool) l i :
  findIndex pred l = Some i -> exists x, l !! i = Some x /\ pred x = true.
Proof.
  revert i. induction l as [|a l IH]; intros i H; cbn [findIndex] in H; [discriminate|].
  destruct (pred a) eqn:Ha.
  - injection H as <-. exists a. auto.
  - destruct (findIndex pred l) as [j|]; [|discriminate].
    injection H as <-. destruct (IH j eq_refl) as (x & Hx & Hp). exists x. auto.
Qed.

Lemma findIndex_None {A} (pred : A -> bool) l x :
  findIndex pred l = None -> x ∈ l -> pred x = false.
Proof.
  induction l as [|a l IH]; intros H Hin; [inversion Hin|].
  cbn [findIndex] in H. destruct (pred a) eqn:Ha; [discriminate|].
  destruct (findIndex pred l); [discriminate|].
  apply elem_of_cons in Hin as [->|Hin]; auto.
Qed.

Lemma queue_order_remove t index q r :
  tier t q !! index = Some r ->
  queue_order q ≡ₚ r :: queue_order (set_tier t (delete index (tier t q)) q).
Proof.
  destruct q as [h n l]. unfold queue_order.
  destruct t; cbn [tier set_tier q_high q_normal q_low]; intros H;
    apply delete_Permutation in H.
  - rewrite H at 1. reflexivity.
  - rewrite H at 1. rewrite <- app_comm_cons. symmetry.
    rewrite (app_comm_cons). apply Permutation_middle.
  - rewrite H at 1. rewrite !app_assoc. symmetry. apply Permutation_middle.
Qed.

Lemma queue_order_tier t q x : x ∈ tier t q -> x ∈ queue_order q.
Proof.
  unfold queue_order. destruct t; cbn [tier]; intros H; rewrite !elem_of_app; auto.
Qed.

(** With distinct ids, the search of [cancelJob] finds the queued job that
    carries the id. *)
Lemma search_queue_finds s id r :
  consistent s ->
  r ∈ queue_order (jobQueue s) -> ids s !! r = Some id ->
  exists t index,
    search_queue id s = Some (t, index) /\ tier t (jobQueue s) !! index = Some r.
Proof.
  intros Hs Hin Hid.
  assert (Hpred : match heap s !! r with
                  | Some job => String.eqb (jobId job) id
                  | None => false
                  end = true).
  { unfold ids in Hid. rewrite list_lookup_fmap in Hid.
    destruct (heap s !! r) as [job|]; [|discriminate].
    injection Hid as <-. apply String.eqb_refl. }
  assert (Hfound : forall t index,
             find_queued id t s = Some index -> tier t (jobQueue s) !! index = Some r).
  { intros t index Hf. apply findIndex_Some in Hf as (x & Hx & Hp).
    rewrite Hx. f_equal.
    destruct (heap s !! x) as [job|] eqn:Hjob; [|discriminate].
    apply String.eqb_eq in Hp.
    eapply NoDup_lookup; [exact (ids_nodup s Hs)| |exact Hid].
    unfold ids. rewrite list_lookup_fmap, Hjob. cbn. congruence. }
  assert (Hmiss : forall t, find_queued id t s = None -> r ∉ tier t (jobQueue s)).
  { intros t Hf Hr. pose proof (findIndex_None _ _ r Hf Hr) as Hp.
    cbv beta in Hp. congruence. }
  unfold search_queue.
  destruct (find_queued id high s) as [i|] eqn:Hh; [eauto|].
  destruct (find_queued id normal s) as [i|] eqn:Hn; [eauto|].
  destruct (find_queued id low s) as [i|] eqn:Hl; [eauto|].
  exfalso. unfold queue_order in Hin. rewrite !elem_of_app in Hin.
  destruct Hin as [Hin|[Hin|Hin]];
    [apply (Hmiss high)|apply (Hmiss normal)|apply (Hmiss low)]; assumption.
Qed.

(** [cancelJob] on a job that is still queued takes it out of its tier;
    from then on nothing refers to the job object. *)
Lemma cancelJob_parks_queued s id r :
  consistent s ->
  r ∈ queue_order (jobQueue s) -> ids s !! r = Some id ->
  parked r (cancelJob id s) /\
  heap (cancelJob id s) !! r = heap s !! r /\
  statuses s !! r <> Some processing.
Proof.
  intros Hs Hin Hid.
  assert (Hidle : activeJobs s !! id = None).
  { destruct (activeJobs s !! id) as [r'|] eqn:Hact; [|reflexivity].
    destruct (active_started s Hs id r' Hact) as [Hnot Hid'].
    assert (r' = r) as ->
      by (eapply NoDup_lookup; [exact (ids_nodup s Hs)|exact Hid'|exact Hid]).
    contradiction. }
  assert (Hst : statuses s !! r <> Some processing).
  { intros Hproc. destruct (processing_active s Hs r Hproc) as (id' & Hid' & Hact).
    destruct (active_started s Hs id' r Hact) as [Hnot _]. contradiction. }
  destruct (search_queue_finds s id r Hs Hin Hid) as (t & index & Hsearch & Hr).
  unfold cancelJob. rewrite Hidle, Hsearch, Hr.
  split; [|split; [reflexivity|exact Hst]].
  pose proof (queue_order_remove t index (jobQueue s) r Hr) as Hperm.
  pose proof (queue_nodup s Hs) as Hnd. rewrite Hperm in Hnd.
  apply NoDup_cons in Hnd as [Hgone _].
  unfold parked. frame.
  split; [rewrite <- ids_length; apply (queue_valid s Hs); exact Hin|].
  split; [exact Hgone|].
  split; [|split].
  - intros k w Hw Heq. destruct (workers_started s Hs k w Hw) as [_ Hnot].
    apply Hnot. rewrite Heq. exact Hin.
  - intros id' r' Hact Heq. destruct (active_started s Hs id' r' Hact) as [Hnot _].
    apply Hnot. rewrite Heq. exact Hin.
  - intros k id' r' Hc Heq. apply lookup_app_Some in Hc as [Hc|[_ Hc]].
    + destruct (cancels_started s Hs k id' r' Hc) as [Hnot _].
      apply Hnot. rewrite Heq. exact Hin.
    + apply list_lookup_singleton_Some in Hc as [_ Hc]. discriminate.
Qed.

(** The queued half of C6.  The callers keep job ids distinct.  A job that
    is cancelled while it waits in a tier is removed from the tier, and in
    no later state is it queued again, handed to a worker, or changed: its
    status never becomes [processing]. *)
Lemma cancelled_while_queued_never_starts s id r ls s' :
  reachable_unique s ->
  r ∈ queue_order (jobQueue s) -> ids s !! r = Some id ->
  run ls (cancelJob id s) = Some s' ->
  (r ∉ queue_order (jobQueue s')) /\
  (forall k w, workers s' !! k = Some w -> w_job w <> r) /\
  heap s' !! r = heap s !! r /\
  statuses s' !! r <> Some processing.
Proof.
  intros Hreach Hin Hid Hrun.
  pose proof (reachable_unique_consistent MAX_CONCURRENT_JOBS global_io floor_share
                s Hreach) as Hs.
  destruct (cancelJob_parks_queued s id r Hs Hin Hid) as (Hp & Hh & Hst).
  destruct (run_parked ls _ s' r Hp Hrun) as [(_ & Hq & Hws & _) Hh'].
  split; [exact Hq|]. split; [exact Hws|]. split; [congruence|].
  unfold statuses in *. rewrite list_lookup_fmap in *. rewrite Hh', Hh. exact Hst.
Qed.

End Parked.
(** * Sample runs of the manager *)

Lemma run_reachable MAX io share ls s s' :
  reachable MAX io share s -> run MAX io share ls s = Some s' ->
  reachable MAX io share s'.
Proof.
  revert s. induction ls as [|l ls IH]; intros s Hs Hrun; simpl in Hrun.
  - injection Hrun as <-. exact Hs.
  - destruct (step MAX io share l s) as [s1|] eqn:Hstep; [|discriminate].
    apply (IH s1); [|exact Hrun]. eapply reachable_step; eauto.
Qed.



Lemma one_extractor_failure_is_isolated_witness :
  exists s' w' job',
    run 1 delivering_io exact_share
        (extractor_stage 0 color_fails ++ [resume_processJob 0 settled])
        (run_extractor 0 enhancedImageExtractor extracting_worker extracting_state)
      = Some s' /\
    workers s' !! 0 = Some w' /\
    heap s' !! 0 = Some job' /\
    status job' = complete /\
    get_field "colors" (results w') = Some default_colors /\
    get_field "blog" (results w') =
      Some (JObj [("hasBlog", JBool true); ("articles", JArr [])]).
Proof.
  destruct (one_extractor_failure_is_isolated 1 delivering_io exact_share
              0 extracting_state extracting_worker extracting_job
              color_fails colorExtractor settled)
    as (s' & w' & job' & Hrun & Hw & _ & Hjob & Hst & _ & Hfailed & Hothers).
  - simpl. lia.
  - reflexivity.
  - exists "malformed css". reflexivity.
  - intros e He. destruct e; try congruence; eexists; split; reflexivity.
  - exact I.
  - exists s', w', job'. split; [exact Hrun|]. split; [exact Hw|].
    split; [exact Hjob|]. split; [exact Hst|]. split; [exact Hfailed|].
    apply (Hothers blogExtractor); [discriminate | reflexivity].
Defined.

Lemma zero_pages_minimal_results_witness :
  exists s' w' job',
    run 1 delivering_io exact_share
        [resume_processJob 0 (resolves_pages []); resume_processJob 0 settled]
        discovering_state = Some s' /\
    workers s' !! 0 = Some w' /\
    get_field "domain" (results w') = Some (JStr "A.example") /\
    get_path ["general"; "siteStructure"; "title"] (results w')
      = Some (JStr "A.example Website") /\
    get_path ["general"; "siteStructure"; "meta"; "description"] (results w')
      = Some (JStr "Website for A.example") /\
    get_path ["blog"; "hasBlog"] (results w') = Some (JBool false) /\
    get_path ["images"; "all"] (results w') = Some (JArr []) /\
    heap s' !! 0 = Some job' /\
    status job' = complete /\
    message job' = "Scrape completed with minimal results".
Proof.
  destruct (zero_pages_minimal_results 1 delivering_io exact_share
              0 discovering_state (at_pc at_discoverPages (new_worker 0))
              discovering_job JUndefined eq_refl eq_refl eq_refl)
    as (s' & w' & job' & Hrun & Hw & _ & Hres & Hblog & Himg & _ & Hjob & Hst & _ & Hm & _).
  exists s', w', job'. split; [exact Hrun|]. split; [exact Hw|].
  rewrite Hres. do 3 (split; [reflexivity|]).
  rewrite <- Hres. auto 10.
Defined.

(** C5, the failing run.  Jobs A and B share one slot; no page is found
    for A and the store refuses A's results.  [processJob] rejects, and that
    is all: A still reads [processing] at 90, not [failed]; it still holds
    the slot; B stays in the queue; the last event delivered for A is the
    90 percent milestone; and nothing can resume the worker. *)
Theorem store_failure_leaves_job_processing :
  exists s,
    run 1 delivering_io exact_share store_failure_schedule initial_state = Some s /\
    w_pc <$> workers s =
      [rejected "Failed to process job: Failed to save minimal results: db down"] /\
    status <$> heap s !! 0 = Some processing /\
    activeJobs s !! "A" = Some 0 /\
    active_count s = 1%Z /\
    jobQueue s = mkQueue [] [1] [] /\
    status <$> heap s !! 1 = Some queued /\
    ev_progress <$> events_of "A" s = [10; 90] /\
    ev_status <$> events_of "A" s = [processing; processing] /\
    (forall resp, step 1 delivering_io exact_share (resume_processJob 0 resp) s = None).
Proof.
  eexists. split; [vm_compute; reflexivity|].
  repeat (split; [vm_compute; reflexivity|]).
  intros resp. destruct resp; reflexivity.
Qed.

(** C6, the failing run.  Job A is cancelled while it awaits discovery and
    [cancelJob] returns.  The worker is not stopped: when discovery settles
    it fetches the page, runs the six extractors, writes the results and
    the status, and publishes five more events; the job ends [complete]. *)
Theorem cancelled_job_keeps_running :
  exists s1 s2,
    run 1 delivering_io exact_share (before_cancel ++ cancel_A) initial_state
      = Some s1 /\
    status <$> heap s1 !! 0 = Some cancelled /\
    cancels s1 = [cancel_returned true "Job cancelled successfully"] /\
    activeJobs s1 !! "A" = None /\
    run 1 delivering_io exact_share after_cancel s1 = Some s2 /\
    ev_progress <$> events_of "A" s1 = [10] /\
    ev_progress <$> events_of "A" s2 = [10; 30; 60; 60; 80; 100] /\
    ev_status <$> events_of "A" s2 =
      [processing; cancelled; cancelled; cancelled; cancelled; complete] /\
    extractors_called s1 = [] /\
    extractors_called s2 = all_extractors /\
    status <$> heap s2 !! 0 = Some complete.
Proof.
  eexists _, _. split; [vm_compute; reflexivity|].
  do 3 (split; [vm_compute; reflexivity|]).
  split; [vm_compute; reflexivity|].
  repeat split; vm_compute; reflexivity.
Qed.

(** C7, the failing run.  Job A is cancelled while it awaits discovery.
    [cancelJob] changes status, progress and message of the job and
    publishes nothing: the only event delivered on [job-A] is the
    10 percent milestone with status [processing]. *)
Theorem cancellation_is_not_published :
  exists s0 s1,
    run 1 delivering_io exact_share before_cancel initial_state = Some s0 /\
    run 1 delivering_io exact_share cancel_A s0 = Some s1 /\
    status <$> heap s1 !! 0 = Some cancelled /\
    progress <$> heap s1 !! 0 = Some 0 /\
    message <$> heap s1 !! 0 = Some "Job cancelled by user" /\
    published s1 = published s0 /\
    events_of "A" s1 = [mkEvent "A" processing 10 "Discovering pages"].
Proof.
  eexists _, _. split; [vm_compute; reflexivity|].
  split; [vm_compute; reflexivity|].
  repeat split; vm_compute; reflexivity.
Qed.

(** C9, the counterexample.  Job A is dispatched; the call the manager
    issues carries [bypassCooldown: true].  Its domain was crawled three
    minutes before, within the five minutes of [cooldownMinutes], yet with
    these options discovery crawls again: it fetches two pages and returns
    a page set that is not the stored one. *)
Lemma pipeline_bypasses_cooldown :
  exists s opts,
    run 1 delivering_io exact_share before_cancel initial_state = Some s /\
    last (calls s) = Some (DiscoverPages "A.example" 2 "A" opts) /\
    bypassCooldown opts = true /\
    in_cooldown opts "A.example" 103 recent_crawl = true /\
    fst (discoverPages sample_crawl "A.example" 2 opts 103 recent_crawl)
      <> default [] (storedPages recent_crawl !! "A.example") /\
    fetched (snd (discoverPages sample_crawl "A.example" 2 opts 103 recent_crawl))
      = ["https://a.example/"; "https://a.example/new"].
Proof.
  eexists _, _. split; [vm_compute; reflexivity|].
  split; [vm_compute; reflexivity|].
  split; [reflexivity|]. split; [vm_compute; reflexivity|].
  split; [vm_compute; discriminate|]. vm_compute. reflexivity.
Qed.

(** C9, as the code has it.  In the discovery service, a domain crawled
    within [cooldownMinutes] and asked for with [bypassCooldown] false
    yields the stored page set, or the empty one, and nothing is fetched.
    The manager however passes [bypassCooldown: true] and
    [cooldownMinutes: 5] in every [discoverPages] call it issues, and with
    these options discovery always crawls. *)
Theorem cooldown_holds_unless_bypassed :
  (forall crawl dom dep opts nowMin d,
      bypassCooldown opts = false ->
      in_cooldown opts dom nowMin d = true ->
      discoverPages crawl dom dep opts nowMin d
        = (default [] (storedPages d !! dom), d)) /\
  (forall MAX io share s,
      reachable MAX io share s -> Forall bypasses (calls s)) /\
  (forall crawl job dom dep nowMin d,
      fst (discoverPages crawl dom dep (discover_options job) nowMin d)
        = crawl dom dep (opt_maxPages (discover_options job))).
Proof.
  split; [|split].
  - intros crawl dom dep opts nowMin d Hb Hc. unfold discoverPages.
    rewrite Hb, Hc. reflexivity.
  - exact reachable_calls_bypass.
  - intros. reflexivity.
Qed.

Lemma cooldown_holds_unless_bypassed_witness :
  discoverPages sample_crawl "A.example" 2 (mkDiscoverOptions 25 false 5) 103 recent_crawl
    = ([sample_page], recent_crawl).
Proof.
  rewrite (proj1 cooldown_holds_unless_bypassed sample_crawl "A.example" 2
             (mkDiscoverOptions 25 false 5) 103 recent_crawl eq_refl);
    [|vm_compute; reflexivity].
  vm_compute. reflexivity.
Defined.


Lemma processing_jobs_within_limit_witness :
  exists s1 s2,
    step 1 delivering_io exact_share
         (do_queueJob (sample_job "H1" "high") settled) initial_state = Some s1 /\
    step 1 delivering_io exact_share
         (do_queueJob (sample_job "N1" "normal") settled) s1 = Some s2 /\
    queue_length (jobQueue s2) = 1 /\
    processing_count s2 = 1 /\
    (Z.of_nat (processing_count s2) <= 1)%Z.
Proof.
  eexists _, _. split; [vm_compute; reflexivity|].
  split; [vm_compute; reflexivity|].
  split; [reflexivity|]. split; [reflexivity|].
  apply (processing_jobs_within_limit 1 delivering_io exact_share); [lia|].
  eapply (reachable_unique_step 1 delivering_io exact_share
            (do_queueJob (sample_job "N1" "normal") settled));
    [eapply (reachable_unique_step 1 delivering_io exact_share
               (do_queueJob (sample_job "H1" "high") settled) initial_state);
       [apply reachable_unique_initial| |vm_compute; reflexivity]
    | |vm_compute; reflexivity].
  - split; [reflexivity|]. intros job Hjob. inversion Hjob.
  - split; [reflexivity|]. intros job Hjob.
    apply list_elem_of_singleton in Hjob as ->. discriminate.
Defined.
(** * Further properties of the manager *)

Section Further.

Variable MAX_CONCURRENT_JOBS : Z.
Variable global_io : option (string -> Event -> bool).
Variable floor_share : nat -> nat -> nat.

Local Abbreviation emitSocketEvent := (emitSocketEvent global_io).
Local Abbreviation job_update := (job_update global_io).
Local Abbreviation processNextJob_rec := (processNextJob_rec MAX_CONCURRENT_JOBS).
Local Abbreviation processNextJob := (processNextJob MAX_CONCURRENT_JOBS).
Local Abbreviation queueJob := (queueJob MAX_CONCURRENT_JOBS).
Local Abbreviation init := (init MAX_CONCURRENT_JOBS).
Local Abbreviation cancelJob_resume := (cancelJob_resume MAX_CONCURRENT_JOBS).
Local Abbreviation finish := (finish MAX_CONCURRENT_JOBS global_io).
Local Abbreviation minimal_path := (minimal_path global_io).
Local Abbreviation assemble := (assemble global_io).
Local Abbreviation after_extractor := (after_extractor global_io).
Local Abbreviation processJob_resume :=
  (processJob_resume MAX_CONCURRENT_JOBS global_io floor_share).
Local Abbreviation step := (step MAX_CONCURRENT_JOBS global_io floor_share).
Local Abbreviation run := (run MAX_CONCURRENT_JOBS global_io floor_share).
Local Abbreviation reachable := (reachable MAX_CONCURRENT_JOBS global_io floor_share).
Local Abbreviation reachable_unique :=
  (reachable_unique MAX_CONCURRENT_JOBS global_io floor_share).


(** ** What the dispatcher leaves alone *)

Lemma processJob_start_keeps r s :
  cancels (processJob_start r s) = cancels s /\
  completedJobs (processJob_start r s) = completedJobs s /\
  published (processJob_start r s) = published s /\
  errors (processJob_start r s) = errors s /\
  now (processJob_start r s) = now s /\
  jobQueue (processJob_start r s) = jobQueue s /\
  ids (processJob_start r s) = ids s /\
  exists ws, workers (processJob_start r s) = (workers s ++ ws)%list.
Proof.
  unfold processJob_start. destruct (heap s !! r) as [job|] eqn:E; cbn.
  - do 6 (split; [reflexivity|]). split.
    + unfold ids. cbn. apply (ids_insert _ _ job); [exact E|reflexivity].
    + eexists. reflexivity.
  - do 7 (split; [reflexivity|]). exists []. rewrite app_nil_r. reflexivity.
Qed.

Local Ltac nothing_started :=
  do 6 (split; [reflexivity|]);
  split; [exists []; rewrite app_nil_r; reflexivity | reflexivity].

Lemma processNextJob_rec_keeps fuel s :
  cancels (processNextJob_rec fuel s) = cancels s /\
  completedJobs (processNextJob_rec fuel s) = completedJobs s /\
  published (processNextJob_rec fuel s) = published s /\
  errors (processNextJob_rec fuel s) = errors s /\
  now (processNextJob_rec fuel s) = now s /\
  ids (processNextJob_rec fuel s) = ids s /\
  (exists ws, workers (processNextJob_rec fuel s) = (workers s ++ ws)%list) /\
  queue_order (jobQueue (processNextJob_rec fuel s)) `sublist_of`
    queue_order (jobQueue s).
Proof.
  revert s. induction fuel as [|fuel IH]; intros s; simpl.
  { nothing_started. }
  destruct (active_count s >=? MAX_CONCURRENT_JOBS)%Z.
  { nothing_started. }
  destruct (shift_next (jobQueue s)) as [[[t r] q']|] eqn:Hshift.
  2:{ nothing_started. }
  pose proof (shift_next_order _ _ _ _ Hshift) as Horder.
  destruct (processJob_start_keeps r (set_jobQueue q' s))
    as (Hc & Hd & Hp & He & Hn & Hq & Hi & ws & Hw).
  cbn [cancels completedJobs published errors now jobQueue workers set_jobQueue]
    in Hc, Hd, Hp, He, Hn, Hq, Hw.
  change (ids (set_jobQueue q' s)) with (ids s) in Hi.
  assert (Hsub : queue_order q' `sublist_of` queue_order (jobQueue s)).
  { rewrite Horder. apply sublist_cons. reflexivity. }
  destruct (active_count _ <? MAX_CONCURRENT_JOBS)%Z.
  - destruct (IH (processJob_start r (set_jobQueue q' s)))
      as (Hc' & Hd' & Hp' & He' & Hn' & Hi' & (ws' & Hw') & Hq').
    rewrite Hc', Hd', Hp', He', Hn', Hi', Hw', Hc, Hd, Hp, He, Hn, Hi, Hw.
    do 6 (split; [reflexivity|]). split.
    + exists (ws ++ ws')%list. rewrite app_assoc. reflexivity.
    + etransitivity; [exact Hq'|]. rewrite Hq. exact Hsub.
  - rewrite Hc, Hd, Hp, He, Hn, Hi, Hw, Hq.
    do 6 (split; [reflexivity|]). split; [|exact Hsub].
    exists ws. reflexivity.
Qed.

(** ** Cancellation always answers *)

(** X13. [cancelJob] never rejects.  Whatever the store write settles to,
    the call returns: with success and the fixed message, or without success
    and either the message of the error that was caught or, for a job that
    is neither active nor queued and that the store does not know, "Job not
    found". *)
Theorem cancelJob_always_answers k c resp s :
  cancels s !! k = Some c ->
  (forall success msg, c <> cancel_returned success msg) ->
  exists s' success msg,
    cancelJob_resume k resp s = Some s' /\
    cancels s' !! k = Some (cancel_returned success msg) /\
    (success = true -> msg = "Job cancelled successfully") /\
    (success = false ->
       (exists e, resp = throws e /\ msg = "Error cancelling job: " +:+ e) \/
       (c = cancel_unknown /\ msg = "Job not found")).
Proof.
  intros Hc Hpending.
  assert (Hk : k < length (cancels s)) by (eapply lookup_lt_Some; eauto).
  unfold cancelJob_resume. rewrite Hc.
  destruct c as [id r| | |success msg]; [| | |destruct (Hpending success msg eq_refl)];
    destruct resp as [e|v|rows|ps]; try destruct (truthy v) eqn:Hv;
    eexists _, _, _; (split; [reflexivity|]); frame; unfold processNextJob;
    rewrite ?(proj1 (processNextJob_rec_keeps _ _)); frame;
    (split; [apply list_lookup_insert_eq; assumption|]);
    (split; [try reflexivity; discriminate|]); intros Hs; try discriminate;
    eauto.
Qed.

(** X14. If the store write fails while an active job is being cancelled,
    the job has already been marked [cancelled] in memory, but it is neither
    taken out of [activeJobs] nor put into [completedJobs]: it keeps its
    slot, nothing is dispatched, and the caller is told the cancellation
    failed. *)
Theorem failed_cancel_keeps_the_slot id r job e s :
  activeJobs s !! id = Some r ->
  heap s !! r = Some job ->
  exists s',
    cancelJob_resume (length (cancels s)) (throws e) (cancelJob id s) = Some s' /\
    activeJobs s' = activeJobs s /\
    completedJobs s' = completedJobs s /\
    jobQueue s' = jobQueue s /\
    workers s' = workers s /\
    status <$> heap s' !! r = Some cancelled /\
    cancels s' !! length (cancels s) =
      Some (cancel_returned false ("Error cancelling job: " +:+ e)).
Proof.
  intros Hact Hjob.
  assert (Hlt : r < length (heap s)) by (eapply lookup_lt_Some; eauto).
  unfold cancelJob. rewrite Hact, (modify_job_eq _ _ _ _ Hjob). simpl.
  rewrite list_lookup_insert_eq by assumption. simpl.
  unfold cancelJob_resume. simpl.
  rewrite lookup_app_r by reflexivity. rewrite Nat.sub_diag. simpl.
  eexists. split; [reflexivity|]. simpl.
  repeat split.
  - rewrite list_lookup_insert_eq by assumption. reflexivity.
  - apply list_lookup_insert_eq. rewrite length_app. simpl. lia.
Qed.

(** X15. [cancelJob] stops no worker: before and after its store write,
    every invocation of [processJob] is where it was, with the same
    variables. *)
Theorem cancelJob_stops_no_worker id k w resp s :
  workers s !! k = Some w ->
  workers (cancelJob id s) !! k = Some w /\
  (forall c s', cancelJob_resume c resp s = Some s' -> workers s' !! k = Some w).
Proof.
  intros Hw. split.
  - unfold cancelJob. repeat case_match; frame; exact Hw.
  - intros c s' H. unfold cancelJob_resume in H.
    repeat case_match; simplify_eq; frame; try exact Hw.
    all: destruct (processNextJob_rec_keeps
                (S (queue_length (jobQueue s)))
                (set_completedJobs (<[id0:=r]> (completedJobs s))
                   (set_activeJobs (delete id0 (activeJobs s)) s)))
        as (_ & _ & _ & _ & _ & _ & (ws & Hws) & _);
      unfold processNextJob; cbn [jobQueue set_completedJobs set_activeJobs];
      rewrite Hws; cbn [workers set_completedJobs set_activeJobs];
      apply lookup_app_l_Some; exact Hw.
Qed.

(** ** The reply of [queueJob] *)

Lemma queue_order_nil q : queue_order q = [] -> q = mkQueue [] [] [].
Proof.
  destruct q as [h n l]. unfold queue_order. cbn.
  intros H. apply app_eq_nil in H as [-> H]. apply app_eq_nil in H as [-> ->].
  reflexivity.
Qed.

Lemma processNextJob_rec_S fuel s :
  processNextJob_rec (S fuel) s =
  if (active_count s >=? MAX_CONCURRENT_JOBS)%Z then s
  else match shift_next (jobQueue s) with
       | None => s
       | Some (_, nextJob, q') =>
           let s1 := processJob_start nextJob (set_jobQueue q' s) in
           if (active_count s1 <? MAX_CONCURRENT_JOBS)%Z
           then processNextJob_rec fuel s1 else s1
       end.
Proof. reflexivity. Qed.

(** X16. The [status] in the reply of [queueJob] is read from the job object
    after [processNextJob] has run (line 99).  On a manager with a free slot
    and nothing waiting the new job is started at once and the reply says
    [processing]; on a manager at capacity the job goes to the back of its
    tier, no worker is started and the reply carries the status the job was
    submitted with. *)
Theorem queueJob_reply_is_read_after_dispatch job saved t s :
  tier_of_key (priority job) = Some t ->
  (forall msg, saved <> throws msg) ->
  (queue_order (jobQueue s) = [] ->
   (active_count s < MAX_CONCURRENT_JOBS)%Z ->
   snd (queueJob job saved s) = inr (mkQueueReply (jobId job) processing "30s") /\
   activeJobs (fst (queueJob job saved s)) !! jobId job = Some (length (heap s)) /\
   workers (fst (queueJob job saved s)) =
     (workers s ++ [new_worker (length (heap s))])%list /\
   queue_order (jobQueue (fst (queueJob job saved s))) = []) /\
  ((MAX_CONCURRENT_JOBS <= active_count s)%Z ->
   snd (queueJob job saved s) = inr (mkQueueReply (jobId job) (status job) "30s") /\
   tier t (jobQueue (fst (queueJob job saved s))) =
     (tier t (jobQueue s) ++ [length (heap s)])%list /\
   workers (fst (queueJob job saved s)) = workers s /\
   activeJobs (fst (queueJob job saved s)) = activeJobs s).
Proof.
  intros Ht Hsaved.
  assert (Hbody : queueJob job saved s =
    let s0 := call (SaveJob job) s in
    let r := length (heap s0) in
    let s1 := set_jobQueue (push t r (jobQueue s0)) (alloc job s0) in
    let s2 := if (active_count s1 <? MAX_CONCURRENT_JOBS)%Z
              then processNextJob s1 else s1 in
    (s2, inr (mkQueueReply (jobId job)
                (default (status job) (status <$> heap s2 !! r)) "30s"))).
  { unfold queueJob. rewrite Ht.
    destruct saved as [msg| | |]; [destruct (Hsaved msg eq_refl)|..]; reflexivity. }
  rewrite Hbody. clear Hbody. cbn zeta.
  change (active_count (set_jobQueue _ (alloc job (call (SaveJob job) s))))
    with (active_count s).
  cbn [heap call].
  split.
  - intros Hempty Hfree.
    apply Z.ltb_lt in Hfree as Hfree'. rewrite Hfree'.
    apply queue_order_nil in Hempty.
    assert (Hge : (active_count s >=? MAX_CONCURRENT_JOBS)%Z = false).
    { rewrite Z.geb_leb. apply Z.leb_gt. exact Hfree. }
    assert (Hl : (heap s ++ [job])%list !! length (heap s) = Some job).
    { rewrite lookup_app_r by reflexivity. rewrite Nat.sub_diag. reflexivity. }
    set (s1 := set_jobQueue (push t (length (heap s)) (jobQueue (call (SaveJob job) s)))
                 (alloc job (call (SaveJob job) s))).
    assert (Hshift : shift_next (jobQueue s1) =
                     Some (t, length (heap s), mkQueue [] [] [])).
    { subst s1. cbn [jobQueue set_jobQueue call]. rewrite Hempty.
      destruct t; reflexivity. }
    set (s2 := processJob_start (length (heap s)) (set_jobQueue (mkQueue [] [] []) s1)).
    assert (Hrun : processNextJob s1 = s2).
    { unfold processNextJob. rewrite processNextJob_rec_S.
      change (active_count s1) with (active_count s). rewrite Hge, Hshift.
      cbn zeta. fold s2.
      destruct (active_count s2 <? MAX_CONCURRENT_JOBS)%Z; [|reflexivity].
      destruct (queue_length (jobQueue s1)); [reflexivity|].
      rewrite processNextJob_rec_S.
      destruct (active_count s2 >=? MAX_CONCURRENT_JOBS)%Z; [reflexivity|].
      replace (jobQueue s2) with (mkQueue [] [] []); [reflexivity|].
      subst s2. symmetry. apply processJob_start_keeps. }
    rewrite Hrun. subst s2 s1. unfold processJob_start.
    cbn [heap set_jobQueue alloc call set_heap]. rewrite Hl.
    cbn. rewrite list_lookup_insert_eq by (rewrite length_app; simpl; lia).
    rewrite lookup_insert_eq. auto.
  - intros Hfull.
    assert (Hlt : (active_count s <? MAX_CONCURRENT_JOBS)%Z = false)
      by (apply Z.ltb_ge; exact Hfull).
    rewrite Hlt. cbn.
    rewrite lookup_app_r by reflexivity. rewrite Nat.sub_diag. cbn.
    split; [reflexivity|]. split; [apply push_spec|]. auto.
Qed.

(** X17. A priority other than [high], [normal] and [low] names no tier.
    [queueJob] saves such a job in the store first and then fails on the
    [push]: the caller gets "Failed to queue job: " followed by the
    message of the TypeError, which says that [push] is not a function
    when the priority is a property [jobQueue] inherits, such as
    [constructor], and that [push] cannot be read of [undefined]
    otherwise.  Nothing is enqueued or started, yet the store has the job.
    [init] reads the same priority as [normal], so after a restart that
    job is put at the back of the normal tier. *)
Theorem unknown_priority_fails_on_submit_and_is_normal_on_reload job v s :
  tier_of_key (priority job) = None ->
  (snd (queueJob job (resolves v) s) =
     inl ("Failed to queue job: " +:+
          (if bool_decide (priority job ∈ Object_prototype_keys)
           then "jobQueue[job.priority].push is not a function"
           else "Cannot read properties of undefined (reading 'push')")) /\
   calls (fst (queueJob job (resolves v) s)) = (calls s ++ [SaveJob job])%list /\
   jobQueue (fst (queueJob job (resolves v) s)) = jobQueue s /\
   heap (fst (queueJob job (resolves v) s)) = heap s /\
   activeJobs (fst (queueJob job (resolves v) s)) = activeJobs s /\
   workers (fst (queueJob job (resolves v) s)) = workers s) /\
  (tier normal (jobQueue (restore s job)) =
     (tier normal (jobQueue s) ++ [length (heap s)])%list /\
   tier high (jobQueue (restore s job)) = tier high (jobQueue s) /\
   tier low (jobQueue (restore s job)) = tier low (jobQueue s) /\
   heap (restore s job) !! length (heap s) = Some (requeued job)).
Proof.
  intros Ht. split.
  - unfold queueJob. rewrite Ht. cbn [fst snd]. unfold push_error.
    frame. auto 10.
  - unfold restore.
    replace (tier_of_key (priority (if decide (status job = processing)
                                    then with_status queued job else job)))
      with (tier_of_key (priority job)) by (destruct (decide _); reflexivity).
    rewrite Ht. cbn.
    rewrite lookup_app_r by reflexivity. rewrite Nat.sub_diag. auto.
Qed.

(** ** Failures of the awaited calls *)

(** X10. When [processJob] rejects, that is all that happens.  The job
    object, the three tiers, [activeJobs] and [completedJobs] are what they
    were before the failing call settled: the job is not marked [failed],
    its slot is not freed and no waiting job is started.  No event is
    published and no call is issued.  The invocation rejects on a promise
    that rejected, or on [discoverPages] resolving to [null] or
    [undefined] instead of an array of pages, where line 204 reads
    [pages.length] before the guard of line 207; and it cannot be
    resumed. *)
Theorem rejection_changes_nothing k resp s s' w' msg :
  processJob_resume k resp s = Some s' ->
  workers s' !! k = Some w' ->
  w_pc w' = rejected msg ->
  heap s' = heap s /\ jobQueue s' = jobQueue s /\
  activeJobs s' = activeJobs s /\ completedJobs s' = completedJobs s /\
  published s' = published s /\ calls s' = calls s /\
  ((exists e, resp = throws e) \/
   (exists w v, workers s !! k = Some w /\ w_pc w = at_discoverPages /\
                resp = resolves v /\ nullish v = true)) /\
  (forall resp', processJob_resume k resp' s' = None).
Proof.
  intros Hstep Hw' Hpc'.
  assert (Hdead : forall resp', processJob_resume k resp' s' = None).
  { intros resp'. unfold processJob_resume. rewrite Hw', Hpc'.
    destruct resp'; reflexivity. }
  unfold processJob_resume in Hstep.
  destruct (workers s !! k) as [w|] eqn:Hw; [|discriminate].
  assert (Hk : k < length (workers s)) by (eapply lookup_lt_Some; eauto).
  destruct (w_pc w) eqn:Hpc; destruct resp; try discriminate;
    repeat case_match; simplify_eq.
  all: try (unfold reject; cbn; eauto 15; fail).
  all: exfalso; revert Hw'; unfold_worker; unfold finish, processNextJob;
    repeat case_match; unfold_worker; repeat case_match;
    try (destruct (processNextJob_rec_keeps
           (S (queue_length (jobQueue
              (put_worker k (at_pc returned w)
                 (set_completedJobs
                    (<[jobId j:=w_job w]> (completedJobs (job_update (w_job w) None s)))
                    (set_activeJobs
                       (delete (jobId j) (activeJobs (job_update (w_job w) None s)))
                       (job_update (w_job w) None s)))))))
           (put_worker k (at_pc returned w)
              (set_completedJobs
                 (<[jobId j:=w_job w]> (completedJobs (job_update (w_job w) None s)))
                 (set_activeJobs
                    (delete (jobId j) (activeJobs (job_update (w_job w) None s)))
                    (job_update (w_job w) None s)))))
         as (_ & _ & _ & _ & _ & _ & (ws & ->) & _));
    try (destruct (processNextJob_rec_keeps
           (S (queue_length (jobQueue
              (put_worker k (at_pc returned w) (job_update (w_job w) None s)))))
           (put_worker k (at_pc returned w) (job_update (w_job w) None s)))
         as (_ & _ & _ & _ & _ & _ & (ws & ->) & _));
    frame;
    rewrite ?(lookup_app_l _ _ k) by (rewrite length_insert; frame; exact Hk);
    rewrite ?list_lookup_insert_eq by (frame; exact Hk);
    intros Heq; simplify_eq; cbn in Hpc'; congruence.
Qed.

(** X11. Every await of [processJob] can fail, and the failure is fatal at
    exactly those that stand in no [try] of their own.  A promise that
    rejects at the first status write, at one of the [domain_info] queries,
    the UPDATE included, or at an extractor is caught on the spot and the
    worker goes on; a promise that rejects at [canResumeJob],
    [discoverPages], [extractPageContent], [saveResults] or one of the two
    final status writes rejects [processJob]. *)
Theorem failure_is_fatal_iff_unguarded k w e s :
  workers s !! k = Some w ->
  w_pc w <> returned ->
  (forall msg, w_pc w <> rejected msg) ->
  exists s' w',
    processJob_resume k (throws e) s = Some s' /\
    workers s' !! k = Some w' /\
    ((exists msg, w_pc w' = rejected msg) <-> guarded (w_pc w) = false).
Proof.
  intros Hw Hret Hrej.
  assert (Hk : k < length (workers s)) by (eapply lookup_lt_Some; eauto).
  unfold processJob_resume. rewrite Hw.
  destruct (w_pc w) as [| | | | | | | |e0| | | |m] eqn:Hpc; try congruence;
    try (destruct (Hrej m eq_refl)).
  all: unfold_worker; repeat case_match; unfold_worker; repeat case_match.
  all: eexists _, _; (split; [reflexivity|]); frame.
  all: rewrite ?list_lookup_insert_eq by (frame; exact Hk).
  all: try (split; [reflexivity|]; cbn; split;
            [intros [? ?]; discriminate | discriminate || eauto]; fail).
  all: try (split; [reflexivity|]; cbn; split; [reflexivity || eauto | eauto]; fail).
  all: split; [exact Hw|]; rewrite Hpc; cbn; split;
         [intros [? ?]; discriminate | discriminate].
Qed.

(** ** [completedJobs] only grows *)

Lemma foldl_restore_completedJobs jobs s :
  completedJobs (foldl restore s jobs) = completedJobs s.
Proof.
  revert s. induction jobs as [|job jobs IH]; intros s; simpl; [reflexivity|].
  rewrite IH. reflexivity.
Qed.

Lemma step_completedJobs l s s' id :
  step l s = Some s' ->
  is_Some (completedJobs s !! id) -> is_Some (completedJobs s' !! id).
Proof.
  intros Hstep Hid. destruct l as [t|pending|job saved|i|k resp|k resp];
    simpl in Hstep.
  - injection Hstep as <-. exact Hid.
  - injection Hstep as <-. destruct pending as [msg|jobs]; cbn [init fst];
      unfold processNextJob;
      rewrite (proj1 (proj2 (processNextJob_rec_keeps _ _))); frame;
      rewrite ?foldl_restore_completedJobs; exact Hid.
  - injection Hstep as <-. unfold queueJob.
    repeat case_match; cbn [fst]; unfold processNextJob;
      rewrite ?(proj1 (proj2 (processNextJob_rec_keeps _ _))); frame; exact Hid.
  - injection Hstep as <-. unfold cancelJob. repeat case_match; frame; exact Hid.
  - unfold cancelJob_resume in Hstep.
    repeat case_match; simplify_eq; frame; unfold processNextJob;
      rewrite ?(proj1 (proj2 (processNextJob_rec_keeps _ _))); frame;
      try exact Hid;
      (destruct (decide (id0 = id)) as [->|Hne];
       [rewrite lookup_insert_eq; eauto
       |rewrite lookup_insert_ne by assumption; exact Hid]).
  - destruct (worker_step_frame _ _ _ _ _ _ _ Hstep) as
      [(w & v & Hw & -> & Hpc & ->)|(_ & _ & -> & _)]; [|exact Hid].
    unfold finish, processNextJob.
    rewrite (proj1 (proj2 (processNextJob_rec_keeps _ _))). frame.
    destruct (heap _ !! w_job w) as [job|]; frame; [|exact Hid].
    destruct (decide (jobId job = id)) as [->|Hne];
      [rewrite lookup_insert_eq; eauto
      |rewrite lookup_insert_ne by assumption; exact Hid].
Qed.

(** X21. Nothing is ever taken out of [completedJobs]: an id that is in the
    map stays in it through every later operation, whatever the size of the
    map.  ([MAX_COMPLETED_JOBS] is declared at line 32 and never read.) *)
Theorem completedJobs_is_never_evicted ls s s' id :
  run ls s = Some s' ->
  is_Some (completedJobs s !! id) -> is_Some (completedJobs s' !! id).
Proof.
  revert s. induction ls as [|l ls IH]; intros s Hrun Hid; simpl in Hrun.
  - injection Hrun as <-. exact Hid.
  - destruct (step l s) as [s1|] eqn:Hstep; [|discriminate].
    apply (IH s1 Hrun). eapply step_completedJobs; eauto.
Qed.

(** ** No slot stays free while a job waits *)

Lemma shift_next_length q t r q' :
  shift_next q = Some (t, r, q') -> queue_length q = S (queue_length q').
Proof.
  destruct q as [h n l]. unfold shift_next, queue_length.
  cbn [q_high q_normal q_low].
  destruct h as [|a h]; [destruct n as [|b n]; [destruct l as [|c l]|]|];
    intros H; simplify_eq; cbn; lia.
Qed.

Lemma shift_next_None q : shift_next q = None -> queue_order q = [].
Proof.
  destruct q as [h n l]. unfold shift_next, queue_order.
  cbn [q_high q_normal q_low].
  destruct h as [|a h]; [destruct n as [|b n]; [destruct l as [|c l]|]|];
    intros H; simplify_eq; reflexivity.
Qed.

(** The recursion of [processNextJob] stops only when the queue is empty
    or the manager is at capacity. *)
Lemma processNextJob_rec_saturates fuel s :
  queue_length (jobQueue s) < fuel ->
  queue_order (jobQueue (processNextJob_rec fuel s)) = [] \/
  (MAX_CONCURRENT_JOBS <= active_count (processNextJob_rec fuel s))%Z.
Proof.
  revert s. induction fuel as [|fuel IH]; intros s Hfuel; [lia|].
  rewrite processNextJob_rec_S.
  destruct (active_count s >=? MAX_CONCURRENT_JOBS)%Z eqn:Hfull.
  { right. rewrite Z.geb_leb in Hfull. apply Z.leb_le. exact Hfull. }
  destruct (shift_next (jobQueue s)) as [[[t r] q']|] eqn:Hshift.
  2:{ left. apply shift_next_None. exact Hshift. }
  cbn zeta.
  destruct (active_count _ <? MAX_CONCURRENT_JOBS)%Z eqn:Hroom.
  - apply IH.
    rewrite (proj1 (proj2 (proj2 (proj2 (proj2 (proj2
               (processJob_start_keeps r (set_jobQueue q' s)))))))).
    cbn [jobQueue set_jobQueue].
    apply shift_next_length in Hshift. lia.
  - right. apply Z.ltb_ge. exact Hroom.
Qed.

Lemma processNextJob_saturates s :
  queue_order (jobQueue (processNextJob s)) = [] \/
  (MAX_CONCURRENT_JOBS <= active_count (processNextJob s))%Z.
Proof. apply processNextJob_rec_saturates. lia. Qed.

Lemma step_saturated l s s' :
  queue_order (jobQueue s) = [] \/ (MAX_CONCURRENT_JOBS <= active_count s)%Z ->
  step l s = Some s' ->
  queue_order (jobQueue s') = [] \/ (MAX_CONCURRENT_JOBS <= active_count s')%Z.
Proof.
  intros Hs Hstep. destruct l as [t|pending|job saved|id|k resp|k resp];
    simpl in Hstep.
  - injection Hstep as <-. exact Hs.
  - injection Hstep as <-. destruct pending as [msg|jobs]; cbn [init fst];
      apply processNextJob_saturates.
  - injection Hstep as <-. unfold queueJob.
    destruct saved; try exact Hs;
      (destruct (tier_of_key (priority job)); [|exact Hs]); cbn [fst];
      (destruct (active_count _ <? MAX_CONCURRENT_JOBS)%Z eqn:Hroom;
       [apply processNextJob_saturates|right; apply Z.ltb_ge; exact Hroom]).
  - injection Hstep as <-.
    destruct Hs as [Hempty|Hfull].
    + left. unfold cancelJob. apply queue_order_nil in Hempty.
      unfold search_queue, find_queued. rewrite Hempty. cbn.
      repeat case_match; frame; rewrite ?Hempty; reflexivity.
    + right. unfold active_count. rewrite cancelJob_activeJobs. exact Hfull.
  - unfold cancelJob_resume in Hstep.
    repeat case_match; simplify_eq; try exact Hs;
      unfold cancel_return;
      match goal with
      | |- context [processNextJob ?x] =>
          destruct (processNextJob_saturates x) as [H1|H1]; [left|right]; exact H1
      end.
  - destruct (worker_step_frame _ _ _ _ _ _ _ Hstep) as
      [(w & v & Hw & -> & Hpc & ->)|(Hq & Hact & _)].
    + unfold finish. apply processNextJob_saturates.
    + unfold active_count. rewrite Hq, Hact. exact Hs.
Qed.

(** X1. In every state the manager can reach, either no job waits in the
    queue or [activeJobs] is at capacity: every operation that frees a slot
    or adds a job below capacity runs the dispatcher, and the dispatcher
    stops only on an empty queue or a full map. *)
Theorem no_slot_is_idle_while_a_job_waits s :
  reachable s ->
  queue_order (jobQueue s) = [] \/ (MAX_CONCURRENT_JOBS <= active_count s)%Z.
Proof.
  intros Hreach. induction Hreach as [|l s s' _ IH Hstep].
  - left. reflexivity.
  - eapply step_saturated; eauto.
Qed.

(** ** How many jobs one call of the dispatcher starts *)

Lemma queue_length_order q : queue_length q = length (queue_order q).
Proof. unfold queue_length, queue_order. rewrite !length_app. lia. Qed.

(** With distinct ids a queued job is in neither map: starting it adds
    one entry to [activeJobs]. *)
Lemma queued_not_active s r id :
  consistent s -> r ∈ queue_order (jobQueue s) -> ids s !! r = Some id ->
  activeJobs s !! id = None.
Proof.
  intros Hs Hin Hid.
  destruct (activeJobs s !! id) as [r'|] eqn:Hact; [|reflexivity].
  destruct (active_started s Hs id r' Hact) as [Hnot Hid'].
  assert (r' = r) by (eapply NoDup_lookup; [apply (ids_nodup s Hs)|eauto..]).
  subst r'. contradiction.
Qed.

Lemma dispatch_adds_one s t r q' :
  consistent s ->
  shift_next (jobQueue s) = Some (t, r, q') ->
  active_count (processJob_start r (set_jobQueue q' s)) = (active_count s + 1)%Z /\
  w_job <$> workers (processJob_start r (set_jobQueue q' s)) =
    ((w_job <$> workers s) ++ [r])%list /\
  jobQueue (processJob_start r (set_jobQueue q' s)) = q'.
Proof.
  intros Hs Hshift.
  pose proof (shift_next_order _ _ _ _ Hshift) as Horder.
  assert (Hin : r ∈ queue_order (jobQueue s)) by (rewrite Horder; left).
  pose proof (queue_valid s Hs r Hin) as Hlt. rewrite ids_length in Hlt.
  destruct (lookup_lt_is_Some_2 _ _ Hlt) as [job Hjob].
  assert (Hid : ids s !! r = Some (jobId job)).
  { unfold ids. rewrite list_lookup_fmap, Hjob. reflexivity. }
  pose proof (queued_not_active s r _ Hs Hin Hid) as Hnone.
  destruct (processJob_start_fields r (set_jobQueue q' s) job Hjob)
    as (_ & _ & Hq & Hact & Hws & _).
  split; [|split].
  - unfold active_count. rewrite Hact. cbn [activeJobs set_jobQueue].
    rewrite map_size_insert_None by exact Hnone. lia.
  - rewrite Hws. cbn [workers set_jobQueue]. rewrite fmap_app. reflexivity.
  - exact Hq.
Qed.

Lemma processNextJob_rec_fills fuel s :
  consistent s ->
  queue_length (jobQueue s) < fuel ->
  (active_count s <= MAX_CONCURRENT_JOBS)%Z ->
  w_job <$> workers (processNextJob_rec fuel s) =
    ((w_job <$> workers s) ++
     take (Nat.min (Z.to_nat (MAX_CONCURRENT_JOBS - active_count s))
                   (queue_length (jobQueue s)))
          (queue_order (jobQueue s)))%list /\
  queue_order (jobQueue (processNextJob_rec fuel s)) =
    drop (Nat.min (Z.to_nat (MAX_CONCURRENT_JOBS - active_count s))
                  (queue_length (jobQueue s)))
         (queue_order (jobQueue s)) /\
  active_count (processNextJob_rec fuel s) =
    (active_count s +
     Z.of_nat (Nat.min (Z.to_nat (MAX_CONCURRENT_JOBS - active_count s))
                       (queue_length (jobQueue s))))%Z.
Proof.
  revert s. induction fuel as [|fuel IH]; intros s Hs Hfuel Hcap; [lia|].
  rewrite processNextJob_rec_S.
  destruct (active_count s >=? MAX_CONCURRENT_JOBS)%Z eqn:Hfull.
  { rewrite Z.geb_leb in Hfull. apply Z.leb_le in Hfull.
    replace (Z.to_nat (MAX_CONCURRENT_JOBS - active_count s)) with 0 by lia.
    cbn [Nat.min]. rewrite take_0, drop_0, app_nil_r. split; [|split]; [auto..|lia]. }
  rewrite Z.geb_leb in Hfull. apply Z.leb_gt in Hfull.
  destruct (shift_next (jobQueue s)) as [[[t r] q']|] eqn:Hshift.
  2:{ apply shift_next_None in Hshift. rewrite queue_length_order, Hshift.
      cbn [length]. rewrite Nat.min_0_r, take_0, drop_0, app_nil_r.
      split; [|split]; [auto..|lia]. }
  cbn zeta.
  destruct (dispatch_adds_one s t r q' Hs Hshift) as (Hact & Hws & Hq).
  pose proof (shift_next_order _ _ _ _ Hshift) as Horder.
  pose proof (shift_next_length _ _ _ _ Hshift) as Hlen.
  pose proof (consistent_dispatch _ _ _ _ Hs Hshift) as Hs1.
  set (s1 := processJob_start r (set_jobQueue q' s)) in *.
  destruct (active_count s1 <? MAX_CONCURRENT_JOBS)%Z eqn:Hroom.
  - apply Z.ltb_lt in Hroom.
    destruct (IH s1 Hs1) as (H1 & H2 & H3); [rewrite Hq; lia|lia|].
    rewrite H1, H2, H3, Hws, Hq, Hact, Horder, Hlen.
    replace (Nat.min (Z.to_nat (MAX_CONCURRENT_JOBS - active_count s))
                     (S (queue_length q')))
      with (S (Nat.min (Z.to_nat (MAX_CONCURRENT_JOBS - (active_count s + 1)))
                       (queue_length q'))) by lia.
    cbn [take drop]. rewrite <- app_assoc. cbn [app].
    split; [|split]; [auto..|lia].
  - apply Z.ltb_ge in Hroom.
    rewrite Hws, Hq, Hact, Horder, Hlen.
    replace (Nat.min (Z.to_nat (MAX_CONCURRENT_JOBS - active_count s))
                     (S (queue_length q'))) with 1 by lia.
    cbn [take drop]. rewrite take_0, drop_0. split; [|split]; [auto..|lia].
Qed.

(** X2. The manager is consistent, as it is when the callers keep job ids
    distinct.  One call of [processNextJob] then starts as many jobs as
    there are free slots, or all that wait if they are fewer: the first that
    many of the queue, read high tier first and each tier front to back,
    each taking one slot; the others stay queued in their order. *)
Theorem processNextJob_fills_the_free_slots s :
  consistent s ->
  (active_count s <= MAX_CONCURRENT_JOBS)%Z ->
  w_job <$> workers (processNextJob s) =
    ((w_job <$> workers s) ++
     take (Nat.min (Z.to_nat (MAX_CONCURRENT_JOBS - active_count s))
                   (queue_length (jobQueue s)))
          (queue_order (jobQueue s)))%list /\
  queue_order (jobQueue (processNextJob s)) =
    drop (Nat.min (Z.to_nat (MAX_CONCURRENT_JOBS - active_count s))
                  (queue_length (jobQueue s)))
         (queue_order (jobQueue s)) /\
  active_count (processNextJob s) =
    (active_count s +
     Z.of_nat (Nat.min (Z.to_nat (MAX_CONCURRENT_JOBS - active_count s))
                       (queue_length (jobQueue s))))%Z.
Proof.
  intros Hs Hcap. apply processNextJob_rec_fills; [exact Hs|lia|exact Hcap].
Qed.

(** ** Where [getJobStatus] finds a job *)

(** X19. The callers keep job ids distinct.  A job whose status reads
    [processing] is then the entry of [activeJobs] under its id, so
    [getJobStatus] answers with that very object and the store is not asked:
    the answer is the same whatever the store would have said. *)
Theorem processing_job_is_answered_from_memory s r job stored :
  reachable_unique s ->
  heap s !! r = Some job ->
  status job = processing ->
  getJobStatus (jobId job) stored s = inr (job_object r).
Proof.
  intros Hreach Hjob Hst.
  pose proof (reachable_unique_consistent _ _ _ s Hreach) as Hs.
  destruct (processing_active s Hs r) as (id & Hid & Hact).
  { unfold statuses. rewrite list_lookup_fmap, Hjob. cbn. rewrite Hst. reflexivity. }
  unfold ids in Hid. rewrite list_lookup_fmap, Hjob in Hid. injection Hid as <-.
  unfold getJobStatus. rewrite Hact. reflexivity.
Qed.

Lemma completed_started_mono s s' :
  completed_started s ->
  completedJobs s' = completedJobs s ->
  (forall r id, ids s !! r = Some id -> ids s' !! r = Some id) ->
  (forall x, x ∈ queue_order (jobQueue s') ->
             x ∈ queue_order (jobQueue s) \/ length (ids s) <= x) ->
  completed_started s'.
Proof.
  intros Hc Hcompl Hids Hq id r Hr. rewrite Hcompl in Hr.
  destruct (Hc id r Hr) as [Hnot Hid]. split; [|apply Hids; exact Hid].
  intros Hin. destruct (Hq r Hin) as [Hin'|Hge]; [contradiction|].
  apply lookup_lt_Some in Hid. lia.
Qed.

Lemma completed_started_dispatch fuel s :
  completed_started s -> completed_started (processNextJob_rec fuel s).
Proof.
  intros Hc.
  destruct (processNextJob_rec_keeps fuel s) as (_ & Hd & _ & _ & _ & Hi & _ & Hq).
  apply (completed_started_mono s); [exact Hc|exact Hd|rewrite Hi; auto|].
  intros x Hx. left. eapply elem_of_sublist; eauto.
Qed.

Lemma completed_started_submit s job t :
  completed_started s ->
  completed_started (set_jobQueue (push t (length (heap s)) (jobQueue s)) (alloc job s)).
Proof.
  intros Hc. apply (completed_started_mono s); [exact Hc|reflexivity| |].
  - intros r id Hid. unfold ids in *. cbn. rewrite fmap_app.
    apply lookup_app_l_Some. exact Hid.
  - intros x Hx. cbn [jobQueue set_jobQueue] in Hx.
    rewrite queue_order_push in Hx. apply elem_of_cons in Hx as [->|Hx].
    + right. rewrite ids_length. lia.
    + left. exact Hx.
Qed.

Lemma completed_started_restore jobs s :
  completed_started s -> completed_started (foldl restore s jobs).
Proof.
  revert s. induction jobs as [|job jobs IH]; intros s Hc; [exact Hc|].
  simpl. apply IH. unfold restore. apply completed_started_submit. exact Hc.
Qed.

Lemma completed_started_insert s id r :
  completed_started s ->
  r ∉ queue_order (jobQueue s) -> ids s !! r = Some id ->
  completed_started (set_completedJobs (<[id := r]> (completedJobs s)) s).
Proof.
  intros Hc Hnot Hid id' r' H. cbn [completedJobs set_completedJobs] in H.
  change (jobQueue (set_completedJobs _ s)) with (jobQueue s).
  change (ids (set_completedJobs _ s)) with (ids s).
  destruct (decide (id = id')) as [->|Hne].
  - rewrite lookup_insert_eq in H. injection H as <-. auto.
  - rewrite lookup_insert_ne in H by assumption. apply Hc. exact H.
Qed.

Lemma completed_started_same s s' :
  completed_started s ->
  completedJobs s' = completedJobs s -> ids s' = ids s ->
  jobQueue s' = jobQueue s ->
  completed_started s'.
Proof.
  intros Hc H1 H2 H3. apply (completed_started_mono s); [exact Hc|exact H1| |].
  - rewrite H2. auto.
  - rewrite H3. auto.
Qed.

Lemma completed_started_logged s c :
  completed_started s -> completed_started (call c s).
Proof. intros Hc. eapply completed_started_same; eauto. Qed.

Lemma completed_started_cancel_return s k success msg :
  completed_started s -> completed_started (cancel_return k success msg s).
Proof. intros Hc. eapply completed_started_same; eauto. Qed.

Lemma completed_started_finish k w s :
  consistent s -> completed_started s -> workers s !! k = Some w ->
  completed_started (finish k w s).
Proof.
  intros Hs Hc Hw. unfold finish, processNextJob.
  apply completed_started_dispatch.
  destruct (workers_started s Hs k w Hw) as [_ Hnot].
  destruct (heap (job_update (w_job w) None s) !! w_job w) as [job|] eqn:Hjob.
  - rewrite job_update_heap in Hjob.
    eapply (completed_started_same
              (set_completedJobs (<[jobId job := w_job w]> (completedJobs s)) s)).
    + apply completed_started_insert; [exact Hc|exact Hnot|].
      unfold ids. rewrite list_lookup_fmap, Hjob. reflexivity.
    + frame. reflexivity.
    + unfold ids. frame. reflexivity.
    + frame. reflexivity.
  - eapply completed_started_same; [exact Hc|..]; unfold ids; frame; reflexivity.
Qed.

Lemma step_completed_started l s s' :
  consistent s -> completed_started s -> step l s = Some s' ->
  completed_started s'.
Proof.
  intros Hs Hc Hstep. destruct l as [t|pending|job saved|id|k resp|k resp];
    simpl in Hstep.
  - injection Hstep as <-. eapply completed_started_same; eauto.
  - injection Hstep as <-. destruct pending as [msg|jobs]; cbn [init fst];
      unfold processNextJob; apply completed_started_dispatch.
    + eapply completed_started_same; eauto.
    + apply completed_started_restore, completed_started_logged, Hc.
  - injection Hstep as <-. unfold queueJob.
    destruct saved; (try destruct (tier_of_key (priority job))); cbn [fst];
      try (eapply completed_started_same; [exact Hc|reflexivity..]);
      (destruct (active_count _ <? MAX_CONCURRENT_JOBS)%Z;
       [unfold processNextJob; apply completed_started_dispatch|]);
      apply (completed_started_submit (call (SaveJob job) s)),
            completed_started_logged, Hc.
  - injection Hstep as <-. unfold cancelJob.
    repeat case_match;
      (apply (completed_started_mono s);
       [exact Hc
       |frame; reflexivity
       |unfold ids; frame;
        rewrite ?fmap_jobId_modify_job by (intros; reflexivity); auto
       |frame; intros x Hx; left;
        try (eapply elem_of_sublist; [exact Hx|apply queue_order_dequeue]);
        exact Hx]).
  - unfold cancelJob_resume in Hstep.
    destruct (cancels s !! k) as [[id r| | |]|] eqn:Hk; try discriminate;
      destruct resp; try destruct (truthy v); simplify_eq;
      try (eapply completed_started_same; [exact Hc|reflexivity..]).
    all: apply completed_started_cancel_return; unfold processNextJob;
      apply completed_started_dispatch;
      destruct (cancels_started s Hs k id r Hk) as (Hnot & Hid & _);
      apply (completed_started_insert (set_activeJobs (delete id (activeJobs s)) s));
      [eapply completed_started_same; [exact Hc|reflexivity..]|exact Hnot|exact Hid].
  - destruct (workers s !! k) as [w|] eqn:Hw;
      [|unfold processJob_resume in Hstep; rewrite Hw in Hstep; discriminate].
    destruct (worker_step_summary _ _ _ _ _ _ _ w Hstep Hw)
      as [[Hend ->]|(Hq & _ & _ & Hids & _)].
    + apply completed_started_finish; assumption.
    + destruct (worker_step_frame _ _ _ _ _ _ _ Hstep)
        as [(w0 & v & Hw0 & -> & Hpc & ->)|(_ & _ & Hcompl & _)].
      * rewrite Hw in Hw0. injection Hw0 as <-.
        apply completed_started_finish; assumption.
      * eapply completed_started_same; eauto.
Qed.

Lemma reachable_unique_completed s : reachable_unique s -> completed_started s.
Proof.
  intros Hreach. induction Hreach as [|l s s' Hprev IH Hadm Hstep].
  - intros id r H. cbn in H. rewrite lookup_empty in H. discriminate.
  - eapply step_completed_started; [|exact IH|exact Hstep].
    apply (reachable_unique_consistent _ _ _ s Hprev).
Qed.

(** X20. The callers keep job ids distinct.  A job that waits in a tier is
    in neither [activeJobs] nor [completedJobs], so [getJobStatus] does not
    find it in memory: the answer for a queued job is whatever the store
    says, and a failure of the store is the failure of the call. *)
Theorem queued_job_is_answered_by_the_store s r job stored :
  reachable_unique s ->
  r ∈ queue_order (jobQueue s) ->
  heap s !! r = Some job ->
  getJobStatus (jobId job) stored s =
    match stored with
    | inr jobStatus => inr (stored_status jobStatus)
    | inl msg => inl ("Failed to get job status: " +:+ msg)
    end.
Proof.
  intros Hreach Hin Hjob.
  pose proof (reachable_unique_consistent _ _ _ s Hreach) as Hs.
  pose proof (reachable_unique_completed s Hreach) as Hc.
  assert (Hid : ids s !! r = Some (jobId job)).
  { unfold ids. rewrite list_lookup_fmap, Hjob. reflexivity. }
  unfold getJobStatus. rewrite (queued_not_active s r _ Hs Hin Hid).
  destruct (completedJobs s !! jobId job) as [r'|] eqn:Hcompl; [|reflexivity].
  destruct (Hc _ _ Hcompl) as [Hnot Hid'].
  assert (r' = r) by (eapply NoDup_lookup; [apply (ids_nodup s Hs)|eauto..]).
  subst r'. contradiction.
Qed.

(** ** What is published *)

Local Ltac statuses_simpl :=
  unfold ids, statuses;
  repeat (progress
    (frame;
     rewrite ?fmap_jobId_modify_job by (intros; reflexivity);
     rewrite ?fmap_status_modify_job_same by (intros; reflexivity);
     rewrite ?(fmap_status_modify_job_set _ _ _ complete) by (intros; reflexivity);
     rewrite ?(fmap_status_modify_job_set _ _ _ cancelled) by (intros; reflexivity))).

Lemma job_update_events r msg s :
  (forall st, statuses s !! r = Some st -> started_status st) ->
  Forall event_ok (published s) ->
  Forall event_ok (published (job_update r msg s)).
Proof.
  intros Hst Hpub. unfold job_update.
  destruct (heap s !! r) as [job|] eqn:Hjob; [|exact Hpub].
  unfold emitSocketEvent. destruct global_io as [emit|]; [|exact Hpub].
  destruct (emit _ _); [|exact Hpub]. cbn.
  apply Forall_app. split; [exact Hpub|]. constructor; [|constructor].
  split; [split; reflexivity|]. cbn. apply Hst.
  unfold statuses. rewrite list_lookup_fmap, Hjob. reflexivity.
Qed.

Lemma started_mono s s' :
  workers_hold_started_jobs s ->
  (forall r st, statuses s !! r = Some st -> started_status st ->
                exists st', statuses s' !! r = Some st' /\ started_status st') ->
  (forall k w', workers s' !! k = Some w' ->
                (exists k0 w, workers s !! k0 = Some w /\ w_job w' = w_job w) \/
                statuses s' !! w_job w' = Some processing) ->
  workers_hold_started_jobs s'.
Proof.
  intros Hs Hst Hws k w' Hw'.
  destruct (Hws k w' Hw') as [(k0 & w & Hw & ->)|Hp].
  - destruct (Hs k0 w Hw) as (st & H1 & H2). eauto.
  - exists processing. split; [exact Hp|left; reflexivity].
Qed.

Lemma started_same s s' :
  workers_hold_started_jobs s ->
  statuses s' = statuses s -> workers s' = workers s ->
  workers_hold_started_jobs s'.
Proof.
  intros Hs H1 H2. apply (started_mono s); [exact Hs| |].
  - rewrite H1. eauto.
  - rewrite H2. eauto.
Qed.

Lemma started_insert (l : list Status) r st x st0 :
  started_status st ->
  l !! x = Some st0 -> started_status st0 ->
  exists st', <[r := st]> l !! x = Some st' /\ started_status st'.
Proof.
  intros Hst Hx Hst0. destruct (decide (r = x)) as [->|Hne].
  - rewrite list_lookup_insert_eq by (eapply lookup_lt_Some; eauto). eauto.
  - rewrite list_lookup_insert_ne by assumption. eauto.
Qed.

Lemma started_dispatch r s :
  workers_hold_started_jobs s -> workers_hold_started_jobs (processJob_start r s).
Proof.
  intros Hs. destruct (heap s !! r) as [job|] eqn:Hjob.
  - destruct (processJob_start_fields r s job Hjob) as (_ & Hst & _ & _ & Hws & _).
    apply (started_mono s); [exact Hs| |].
    + intros x st Hx Hstarted. rewrite Hst.
      eapply started_insert; eauto. left. reflexivity.
    + intros k w' Hw'. rewrite Hws in Hw'.
      apply lookup_app_Some in Hw' as [Hw'|[_ Hw']]; [left; eauto|].
      apply list_lookup_singleton_Some in Hw' as [_ <-]. right.
      rewrite Hst. cbn. apply list_lookup_insert_eq.
      rewrite statuses_length. eapply lookup_lt_Some; eauto.
  - unfold processJob_start. rewrite Hjob. exact Hs.
Qed.

Lemma started_processNextJob_rec fuel s :
  workers_hold_started_jobs s ->
  workers_hold_started_jobs (processNextJob_rec fuel s).
Proof.
  revert s. induction fuel as [|fuel IH]; intros s Hs; [exact Hs|].
  rewrite processNextJob_rec_S.
  destruct (active_count s >=? MAX_CONCURRENT_JOBS)%Z; [exact Hs|].
  destruct (shift_next (jobQueue s)) as [[[t r] q']|]; [|exact Hs].
  cbn zeta.
  assert (H1 : workers_hold_started_jobs (processJob_start r (set_jobQueue q' s))).
  { apply started_dispatch. eapply started_same; eauto. }
  destruct (active_count _ <? MAX_CONCURRENT_JOBS)%Z; [apply IH|]; exact H1.
Qed.

Lemma started_submit s job t :
  workers_hold_started_jobs s ->
  workers_hold_started_jobs
    (set_jobQueue (push t (length (heap s)) (jobQueue s)) (alloc job s)).
Proof.
  intros Hs. apply (started_mono s); [exact Hs| |].
  - intros r st Hr Hst. exists st. split; [|exact Hst].
    unfold statuses in *. cbn. rewrite fmap_app. apply lookup_app_l_Some. exact Hr.
  - intros k w' Hw'. left. eauto.
Qed.

Lemma started_restore jobs s :
  workers_hold_started_jobs s -> workers_hold_started_jobs (foldl restore s jobs).
Proof.
  revert s. induction jobs as [|job jobs IH]; intros s Hs; [exact Hs|].
  simpl. apply IH. unfold restore. apply started_submit. exact Hs.
Qed.

Lemma foldl_restore_published jobs s :
  published (foldl restore s jobs) = published s.
Proof.
  revert s. induction jobs as [|job jobs IH]; intros s; simpl; [reflexivity|].
  rewrite IH. reflexivity.
Qed.

Lemma started_cancel_return s k success msg :
  workers_hold_started_jobs s ->
  workers_hold_started_jobs (cancel_return k success msg s).
Proof. intros Hs. eapply started_same; eauto. Qed.

Lemma step_started l s s' :
  workers_hold_started_jobs s -> step l s = Some s' ->
  workers_hold_started_jobs s'.
Proof.
  intros Hs Hstep. destruct l as [t|pending|job saved|id|k resp|k resp];
    simpl in Hstep.
  - injection Hstep as <-. eapply started_same; eauto.
  - injection Hstep as <-. destruct pending as [msg|jobs]; cbn [init fst];
      unfold processNextJob; apply started_processNextJob_rec.
    + eapply started_same; eauto.
    + apply started_restore. eapply started_same; eauto.
  - injection Hstep as <-. unfold queueJob.
    destruct saved; (try destruct (tier_of_key (priority job))); cbn [fst];
      try (eapply started_same; [exact Hs|reflexivity..]);
      (destruct (active_count _ <? MAX_CONCURRENT_JOBS)%Z;
       [unfold processNextJob; apply started_processNextJob_rec|]);
      apply (started_submit (call (SaveJob job) s));
      (eapply started_same; [exact Hs|reflexivity..]).
  - injection Hstep as <-. unfold cancelJob.
    repeat case_match;
      (apply (started_mono s);
       [exact Hs
       |intros x st Hx Hst; statuses_simpl;
        try (eapply started_insert; eauto; right; left; reflexivity); eauto
       |intros k w' Hw'; left; revert Hw'; frame; eauto]).
  - unfold cancelJob_resume in Hstep.
    destruct (cancels s !! k) as [[id r| | |]|] eqn:Hk; try discriminate;
      destruct resp; try destruct (truthy v); simplify_eq;
      try (eapply started_same; [exact Hs|reflexivity..]).
    all: apply started_cancel_return; unfold processNextJob;
      apply started_processNextJob_rec;
      eapply started_same; [exact Hs|reflexivity..].
  - destruct (workers s !! k) as [w|] eqn:Hw;
      [|unfold processJob_resume in Hstep; rewrite Hw in Hstep; discriminate].
    destruct (worker_step_summary _ _ _ _ _ _ _ w Hstep Hw)
      as [[Hend ->]|(_ & _ & _ & _ & w' & Hws & Hr & Hst)].
    + unfold finish, processNextJob. apply started_processNextJob_rec.
      apply (started_mono s); [exact Hs| |].
      * intros x st Hx Hstarted. exists st. split; [|exact Hstarted].
        revert Hx. unfold statuses.
        destruct (heap (job_update (w_job w) None s) !! w_job w); frame; auto.
      * intros k0 w0. destruct (heap (job_update (w_job w) None s) !! w_job w);
          frame; intros Hw0;
          (destruct (decide (k = k0)) as [->|Hne];
           [rewrite list_lookup_insert_eq in Hw0 by (eapply lookup_lt_Some; eauto);
            injection Hw0 as <-; left; eauto
           |rewrite list_lookup_insert_ne in Hw0 by assumption; left; eauto]).
    + apply (started_mono s); [exact Hs| |].
      * intros x st Hx Hstarted. destruct Hst as [[-> _]| ->]; [eauto|].
        eapply started_insert; eauto. right. right. reflexivity.
      * intros k0 w0. rewrite Hws. intros Hw0.
        destruct (decide (k = k0)) as [->|Hne].
        -- rewrite list_lookup_insert_eq in Hw0 by (eapply lookup_lt_Some; eauto).
           injection Hw0 as <-. left. eauto.
        -- rewrite list_lookup_insert_ne in Hw0 by assumption. left. eauto.
Qed.

Lemma step_events l s s' :
  workers_hold_started_jobs s ->
  Forall event_ok (published s) -> step l s = Some s' ->
  Forall event_ok (published s').
Proof.
  intros Hs Hpub Hstep. destruct l as [t|pending|job saved|id|k resp|k resp];
    simpl in Hstep.
  - injection Hstep as <-. exact Hpub.
  - injection Hstep as <-. destruct pending as [msg|jobs]; cbn [init fst];
      rewrite processNextJob_published; frame;
      rewrite ?foldl_restore_published; exact Hpub.
  - injection Hstep as <-. unfold queueJob.
    repeat case_match; cbn [fst]; rewrite ?processNextJob_published; frame;
      exact Hpub.
  - injection Hstep as <-. rewrite cancelJob_published. exact Hpub.
  - rewrite (cancelJob_resume_published _ _ _ _ _ Hstep). exact Hpub.
  - unfold processJob_resume in Hstep.
    destruct (workers s !! k) as [w|] eqn:Hw; [|discriminate].
    assert (Hst : forall st, statuses s !! w_job w = Some st -> started_status st).
    { intros st H. destruct (Hs k w Hw) as (st' & H1 & H2). congruence. }
    destruct (w_pc w) eqn:Hpc; destruct resp; try discriminate;
      repeat case_match; simplify_eq.
    all: unfold_worker; unfold finish; repeat case_match;
      unfold_worker; repeat case_match.
    all: rewrite ?processNextJob_published.
    all: repeat first
      [ progress frame
      | apply job_update_events;
        [intros st; statuses_simpl; apply Hst|] ].
    all: exact Hpub.
Qed.

Lemma reachable_events s :
  reachable s -> workers_hold_started_jobs s /\ Forall event_ok (published s).
Proof.
  intros Hreach. induction Hreach as [|l s s' _ [IH1 IH2] Hstep].
  - split; [|constructor]. intros k w H. cbn in H. rewrite lookup_nil in H.
    discriminate.
  - split; [eapply step_started|eapply step_events]; eauto.
Qed.

(** X5. Every event the manager has published went out under the name
    [job-update] to the room [job-<jobId>] of the job its payload describes:
    no event is broadcast and none reaches the room of another job. *)
Theorem events_go_to_the_room_of_their_job s :
  reachable s ->
  Forall (fun p => pub_event p = "job-update" /\
                   pub_room p = "job-" +:+ ev_jobId (pub_data p))
         (published s).
Proof.
  intros Hreach. destruct (reachable_events s Hreach) as [_ H].
  eapply Forall_impl; [exact H|]. intros p [Hp _]. exact Hp.
Qed.

(** X6. Whatever happens to a job, no event says so unless the job is
    [processing], [cancelled] or [complete]: the manager never publishes the
    status [failed], nor [queued]. *)
Theorem no_event_reports_a_failure s :
  reachable s ->
  Forall (fun p => ev_status (pub_data p) <> failed /\
                   ev_status (pub_data p) <> queued)
         (published s).
Proof.
  intros Hreach. destruct (reachable_events s Hreach) as [_ H].
  eapply Forall_impl; [exact H|]. intros p [_ Hp].
  destruct Hp as [->|[->| ->]]; split; discriminate.
Qed.

(** ** The progress figure *)

Lemma modify_job_lookup_same r f s :
  heap (modify_job r f s) !! r = f <$> heap s !! r.
Proof.
  unfold modify_job. destruct (heap s !! r) as [j|] eqn:E; [|rewrite E; reflexivity].
  cbn. apply list_lookup_insert_eq. eapply lookup_lt_Some; eauto.
Qed.

Lemma milestone_le_100 w : milestone floor_share w <= 100.
Proof.
  unfold milestone. destruct (w_pc w); try lia.
  destruct (pageContents w); lia.
Qed.

Local Ltac look Hjob :=
  unfold set_progress;
  repeat (progress
    (cbv zeta;
     cbn [w_job at_pc with_domainInfoId with_pages with_pageContents with_results
          with_extractor_data];
     frame;
     rewrite ?modify_job_lookup_same;
     rewrite ?Hjob;
     cbn [fmap option_fmap option_map])).

Lemma finish_progress k w job s :
  workers s !! k = Some w ->
  heap s !! w_job w = Some job ->
  exists job',
    workers (finish k w s) !! k = Some (at_pc returned w) /\
    heap (finish k w s) !! w_job w = Some job' /\
    progress job' = progress job.
Proof.
  intros Hw Hjob.
  assert (Hk : k < length (workers s)) by (eapply lookup_lt_Some; eauto).
  unfold finish, processNextJob.
  match goal with
  | |- context [processNextJob_rec ?f ?x] =>
      destruct (processNextJob_rec_keeps f x)
        as (_ & _ & _ & _ & _ & _ & (ws & Hws) & _);
      pose proof (processNextJob_rec_progress MAX_CONCURRENT_JOBS f x (w_job w))
        as Hp;
      destruct (heap (processNextJob_rec f x) !! w_job w) as [job'|] eqn:Hjob'
  end.
  - exists job'. rewrite Hws. split.
    { apply lookup_app_l_Some. frame. apply list_lookup_insert_eq.
      destruct (heap _ !! w_job w); frame; exact Hk. }
    split; [reflexivity|].
    revert Hp. destruct (heap (job_update (w_job w) None s) !! w_job w);
      frame; rewrite Hjob; cbn; intros [= ->]; reflexivity.
  - exfalso. revert Hp.
    destruct (heap (job_update (w_job w) None s) !! w_job w);
      frame; rewrite Hjob; discriminate.
Qed.

(** X7. A step of [processJob] never lowers the progress of its job.  With a
    share of the page loop that does not fall as more pages are done, and a
    job whose progress is at most the milestone its worker is parked at, the
    progress after the step is at least what it was and at most the
    milestone the worker is parked at now.  (The bound is needed at the
    start, where the worker writes 10 whatever the job carried; it holds
    again after [cancelJob] has set the figure to 0.) *)
Theorem progress_never_decreases k w job resp s s' :
  (forall d t, floor_share d t <= floor_share (S d) t) ->
  workers s !! k = Some w ->
  heap s !! w_job w = Some job ->
  progress job <= milestone floor_share w ->
  processJob_resume k resp s = Some s' ->
  exists w' job',
    workers s' !! k = Some w' /\ w_job w' = w_job w /\
    heap s' !! w_job w = Some job' /\
    progress job <= progress job' /\
    progress job' <= milestone floor_share w'.
Proof.
  intros Hshare Hw Hjob Hle Hstep.
  assert (Hk : k < length (workers s)) by (eapply lookup_lt_Some; eauto).
  pose proof (milestone_le_100 w) as H100.
  destruct (finish_progress k w job s Hw Hjob) as (jobf & Hwf & Hjobf & Hpf).
  unfold processJob_resume in Hstep. rewrite Hw in Hstep.
  unfold milestone in Hle, H100.
  destruct (w_pc w) eqn:Hpc; destruct resp; try discriminate.
  all: try destruct (info_line_raises e v).
  all: revert Hstep; unfold_worker; look Hjob;
    repeat (case_match; look Hjob); unfold_worker; look Hjob;
    repeat (case_match; look Hjob); intros Hstep; try discriminate;
    simplify_eq.
  all: try (exists (at_pc returned w), jobf; unfold milestone; cbn [w_pc at_pc];
            repeat split; try assumption; lia).
  all: eexists _, _;
    (split; [frame; apply list_lookup_insert_eq; frame; exact Hk|]);
    (split; [reflexivity|]);
    (split; [look Hjob; reflexivity|]);
    unfold milestone;
    cbn [progress with_progress with_message with_status with_completedAt
         w_pc at_pc pageContents with_pageContents with_pages pages
         with_domainInfoId with_results with_extractor_data];
    try (split; lia).
  all: rewrite ?Hpc, ?length_app in *; cbn [length app] in *;
    rewrite ?Nat.add_1_r in *;
    match goal with
    | |- context [floor_share (S ?n) ?t] => pose proof (Hshare n t)
    end;
    lia.
Qed.

(** ** The page loop *)

Lemma page_loop k rest : forall done p cs w s job,
  workers s !! k = Some w ->
  w_pc w = at_extractPageContent ->
  heap s !! w_job w = Some job ->
  pages w = (done ++ p :: rest)%list ->
  length (pageContents w) = length done ->
  length cs = S (length rest) ->
  exists w0 s0 job0,
    run ((fun c => resume_processJob k (resolves c)) <$> cs) s =
      Some (run_extractor k enhancedImageExtractor w0 s0) /\
    k < length (workers s0) /\
    w_job w0 = w_job w /\
    pages w0 = pages w /\
    pageContents w0 = (pageContents w ++ cs)%list /\
    domainInfoId w0 = domainInfoId w /\
    heap s0 !! w_job w = Some job0 /\
    progress job0 = 60 /\
    message job0 = "Extracting detailed information" /\
    calls s0 = (calls s ++ (ExtractPageContent ∘ url <$> rest))%list.
Proof.
  induction rest as [|p' rest IH]; intros done p cs w s job Hw Hpc Hjob Hpages Hlen Hcs.
  - destruct cs as [|c [|c' cs]]; try discriminate. clear Hcs.
    assert (Hk : k < length (workers s)) by (eapply lookup_lt_Some; eauto).
    cbn [fmap list_fmap run step]. unfold processJob_resume. rewrite Hw, Hpc.
    cbv zeta. cbn [pages pageContents with_pageContents].
    assert (Hnext : pages w !! length (pageContents w ++ [c]) = None).
    { apply lookup_ge_None. rewrite Hpages, !length_app, Hlen. cbn. lia. }
    rewrite Hnext.
    eexists _, _, _. split; [reflexivity|].
    split; [unfold set_progress; frame; exact Hk|].
    split; [reflexivity|]. split; [reflexivity|]. split; [reflexivity|].
    split; [reflexivity|].
    split.
    { unfold set_progress. frame.
      cbn [w_job with_pageContents]. rewrite !modify_job_lookup_same. frame.
      rewrite modify_job_lookup_same, Hjob. reflexivity. }
    split; [reflexivity|]. split; [reflexivity|].
    unfold set_progress. frame. rewrite app_nil_r. reflexivity.
  - destruct cs as [|c cs]; try discriminate. injection Hcs as Hcs.
    assert (Hk : k < length (workers s)) by (eapply lookup_lt_Some; eauto).
    cbn [fmap list_fmap run step]. unfold processJob_resume at 1. rewrite Hw, Hpc.
    cbv zeta. cbn [pages pageContents with_pageContents].
    assert (Hnext : pages w !! length (pageContents w ++ [c]) = Some p').
    { rewrite Hpages, length_app, Hlen. cbn [length].
      rewrite lookup_app_r by lia.
      replace (length done + 1 - length done) with 1 by lia. reflexivity. }
    rewrite Hnext.
    set (w1 := with_pageContents (pageContents w ++ [c]) w).
    match goal with
    | |- context [run _ ?x] => set (s1 := x)
    end.
    assert (Hw1 : workers s1 !! k = Some w1).
    { subst s1. frame. apply list_lookup_insert_eq. frame. exact Hk. }
    assert (Hjob1 : exists job1, heap s1 !! w_job w1 = Some job1).
    { subst s1 w1. frame. cbn [w_job with_pageContents].
      rewrite modify_job_lookup_same, Hjob. eauto. }
    destruct Hjob1 as [job1 Hjob1].
    destruct (IH (done ++ [p])%list p' cs w1 s1 job1 Hw1 Hpc Hjob1)
      as (w0 & s0 & job0 & Hrun & Hk0 & Hr0 & Hp0 & Hc0 & Hd0 & Hj0 & H60 & Hm & Hcalls).
    { subst w1. cbn [pages with_pageContents]. rewrite Hpages, <- app_assoc.
      reflexivity. }
    { subst w1. cbn [pageContents with_pageContents]. rewrite !length_app, Hlen.
      reflexivity. }
    { exact Hcs. }
    exists w0, s0, job0. split; [exact Hrun|]. split; [exact Hk0|].
    split; [exact Hr0|]. split; [exact Hp0|].
    split; [rewrite Hc0; subst w1; cbn [pageContents with_pageContents];
            rewrite <- app_assoc; reflexivity|].
    split; [exact Hd0|]. split; [exact Hj0|]. split; [exact H60|].
    split; [exact Hm|].
    rewrite Hcalls. subst s1. frame. rewrite <- app_assoc. reflexivity.
Qed.

(** From the settlement of [discoverPages] with at least one page to the
    call of the first extractor. *)
Lemma discovery_to_extractors k w job page ps contents s :
  workers s !! k = Some w ->
  w_pc w = at_discoverPages ->
  heap s !! w_job w = Some job ->
  length contents = S (length ps) ->
  exists w0 s0 job0,
    run (resume_processJob k (resolves_pages (page :: ps)) ::
         ((fun c => resume_processJob k (resolves c)) <$> contents)) s =
      Some (run_extractor k enhancedImageExtractor w0 s0) /\
    k < length (workers s0) /\
    w_job w0 = w_job w /\
    pages w0 = page :: ps /\
    pageContents w0 = contents /\
    domainInfoId w0 = domainInfoId w /\
    heap s0 !! w_job w = Some job0 /\
    progress job0 = 60 /\
    message job0 = "Extracting detailed information" /\
    calls s0 = (calls s ++ (ExtractPageContent ∘ url <$> page :: ps))%list.
Proof.
  intros Hw Hpc Hjob Hlen.
  assert (Hk : k < length (workers s)) by (eapply lookup_lt_Some; eauto).
  cbn [run step]. unfold processJob_resume at 1. rewrite Hw, Hpc. cbv zeta.
  set (w1 := at_pc at_extractPageContent
               (with_pageContents [] (with_pages (page :: ps) w))).
  match goal with
  | |- context [run _ ?x] => set (s1 := x)
  end.
  assert (Hw1 : workers s1 !! k = Some w1).
  { subst s1. frame. apply list_lookup_insert_eq. frame. exact Hk. }
  assert (Hjob1 : exists job1, heap s1 !! w_job w1 = Some job1).
  { subst s1 w1. unfold set_progress. frame.
    cbn [w_job at_pc with_pageContents with_pages].
    rewrite modify_job_lookup_same, Hjob. eauto. }
  destruct Hjob1 as [job1 Hjob1].
  destruct (page_loop k ps [] page contents w1 s1 job1 Hw1 eq_refl Hjob1
              eq_refl eq_refl Hlen)
    as (w0 & s0 & job0 & Hrun & Hk0 & Hr0 & Hp0 & Hc0 & Hd0 & Hj0 & H60 & Hm & Hcalls).
  exists w0, s0, job0. split; [exact Hrun|]. split; [exact Hk0|].
  split; [exact Hr0|]. split; [exact Hp0|]. split; [exact Hc0|].
  split; [exact Hd0|]. split; [exact Hj0|]. split; [exact H60|].
  split; [exact Hm|].
  rewrite Hcalls. subst s1. frame. rewrite <- app_assoc. reflexivity.
Qed.

(** X8. Discovery settles with at least one page.  The worker then fetches
    the content of every discovered page, one [extractPageContent] call per
    page in the order of discovery and nothing else in between, keeps what
    each call resolved to in the same order, and only then calls the first
    extractor, on all the pages with their content; the job stands at 60
    percent. *)
Theorem page_loop_fetches_every_page k w job page ps contents s :
  workers s !! k = Some w ->
  w_pc w = at_discoverPages ->
  heap s !! w_job w = Some job ->
  length contents = S (length ps) ->
  exists s' w' job',
    run (resume_processJob k (resolves_pages (page :: ps)) ::
         ((fun c => resume_processJob k (resolves c)) <$> contents)) s = Some s' /\
    workers s' !! k = Some w' /\
    w_pc w' = at_extract enhancedImageExtractor /\
    pages w' = page :: ps /\
    pageContents w' = contents /\
    heap s' !! w_job w = Some job' /\
    progress job' = 60 /\
    message job' = "Extracting detailed information" /\
    calls s' = (calls s ++ (ExtractPageContent ∘ url <$> page :: ps) ++
                [Extract enhancedImageExtractor (pagesWithContent w')
                         (Some (domainInfoId w))])%list.
Proof.
  intros Hw Hpc Hjob Hlen.
  destruct (discovery_to_extractors k w job page ps contents s Hw Hpc Hjob Hlen)
    as (w0 & s0 & job0 & Hrun & Hk0 & Hr0 & Hp0 & Hc0 & Hd0 & Hj0 & H60 & Hm & Hcalls).
  eexists _, _, job0. split; [exact Hrun|].
  split.
  { unfold run_extractor. frame. apply list_lookup_insert_eq. exact Hk0. }
  split; [reflexivity|]. split; [exact Hp0|]. split; [exact Hc0|].
  split; [exact Hj0|]. split; [exact H60|]. split; [exact Hm|].
  unfold run_extractor. frame. cbn [extract_options].
  rewrite Hcalls, <- app_assoc, Hd0. reflexivity.
Qed.

(** ** A job is started at most once *)

Lemma handled_once_perm s s' :
  handled_once s ->
  handled s' ≡ₚ handled s ->
  length (heap s') = length (heap s) ->
  handled_once s'.
Proof.
  intros [Hnd Hvalid] Hperm Hlen. split.
  - rewrite Hperm. exact Hnd.
  - intros r Hr. rewrite Hperm in Hr. rewrite Hlen. apply Hvalid. exact Hr.
Qed.

Lemma handled_once_sub s s' :
  handled_once s ->
  handled s' `sublist_of` handled s ->
  length (heap s') = length (heap s) ->
  handled_once s'.
Proof.
  intros [Hnd Hvalid] Hsub Hlen. split.
  - eapply sublist_NoDup; eauto.
  - intros r Hr. rewrite Hlen. apply Hvalid. eapply elem_of_sublist; eauto.
Qed.

Lemma handled_once_dispatch fuel s :
  handled_once s -> handled_once (processNextJob_rec fuel s).
Proof.
  intros Hs.
  destruct (processNextJob_rec_order MAX_CONCURRENT_JOBS fuel s) as (n & Hws & Hq).
  { intros r Hr. apply (proj2 Hs). unfold handled. apply elem_of_app. left. exact Hr. }
  apply (handled_once_perm s); [exact Hs| |].
  - unfold handled. rewrite Hws, Hq.
    rewrite <- (take_drop n (queue_order (jobQueue s))) at 3.
    rewrite (Permutation_app_comm (take n _) (drop n _)), <- app_assoc.
    apply Permutation_app_head, Permutation_app_comm.
  - rewrite <- !ids_length.
    rewrite (proj1 (proj2 (proj2 (proj2 (proj2 (proj2
               (processNextJob_rec_keeps fuel s))))))).
    reflexivity.
Qed.

Lemma handled_once_submit s job t :
  handled_once s ->
  handled_once (set_jobQueue (push t (length (heap s)) (jobQueue s)) (alloc job s)).
Proof.
  intros [Hnd Hvalid]. split.
  - unfold handled. cbn [jobQueue workers set_jobQueue alloc set_heap].
    rewrite queue_order_push. cbn. constructor; [|exact Hnd].
    intros Hin. apply Hvalid in Hin. lia.
  - intros r Hr. unfold handled in Hr.
    cbn [jobQueue workers heap set_jobQueue alloc set_heap] in *.
    rewrite queue_order_push in Hr. rewrite length_app. cbn in *.
    apply elem_of_cons in Hr as [->|Hr]; [lia|]. apply Hvalid in Hr. lia.
Qed.

Lemma handled_once_restore jobs s :
  handled_once s -> handled_once (foldl restore s jobs).
Proof.
  revert s. induction jobs as [|job jobs IH]; intros s Hs; [exact Hs|].
  simpl. apply IH. unfold restore. apply handled_once_submit. exact Hs.
Qed.

Lemma handled_once_same s s' :
  handled_once s ->
  jobQueue s' = jobQueue s -> w_job <$> workers s' = w_job <$> workers s ->
  length (heap s') = length (heap s) ->
  handled_once s'.
Proof.
  intros Hs Hq Hw Hlen. apply (handled_once_perm s); [exact Hs| |exact Hlen].
  unfold handled. rewrite Hq, Hw. reflexivity.
Qed.

Lemma fmap_w_job_insert (ws : list Worker) k w w' :
  ws !! k = Some w -> w_job w' = w_job w ->
  w_job <$> <[k := w']> ws = w_job <$> ws.
Proof.
  intros Hk Hjob. rewrite list_fmap_insert, Hjob.
  apply list_insert_id. rewrite list_lookup_fmap, Hk. reflexivity.
Qed.

Lemma step_handled_once l s s' :
  handled_once s -> step l s = Some s' -> handled_once s'.
Proof.
  intros Hs Hstep. destruct l as [t|pending|job saved|id|k resp|k resp];
    simpl in Hstep.
  - injection Hstep as <-. eapply handled_once_same; eauto.
  - injection Hstep as <-. destruct pending as [msg|jobs]; cbn [init fst];
      unfold processNextJob; apply handled_once_dispatch.
    + eapply handled_once_same; eauto.
    + apply handled_once_restore. eapply handled_once_same; eauto.
  - injection Hstep as <-. unfold queueJob.
    destruct saved; (try destruct (tier_of_key (priority job))); cbn [fst];
      try (eapply handled_once_same; [exact Hs|reflexivity..]);
      (destruct (active_count _ <? MAX_CONCURRENT_JOBS)%Z;
       [unfold processNextJob; apply handled_once_dispatch|]);
      apply (handled_once_submit (call (SaveJob job) s));
      (eapply handled_once_same; [exact Hs|reflexivity..]).
  - injection Hstep as <-. unfold cancelJob.
    repeat case_match;
      (apply (handled_once_sub s);
       [exact Hs
       |unfold handled; frame;
        try (apply sublist_app; [apply queue_order_dequeue|]); reflexivity
       |frame; reflexivity]).
  - unfold cancelJob_resume in Hstep.
    destruct (cancels s !! k) as [[id r| | |]|] eqn:Hk; try discriminate;
      destruct resp; try destruct (truthy v); simplify_eq;
      try (eapply handled_once_same; [exact Hs|reflexivity..]).
    all: eapply (handled_once_same
                   (processNextJob
                      (set_completedJobs (<[id:=r]> (completedJobs s))
                         (set_activeJobs (delete id (activeJobs s)) s))));
      [unfold processNextJob; apply handled_once_dispatch;
       eapply handled_once_same; [exact Hs|reflexivity..]
      |reflexivity..].
  - destruct (workers s !! k) as [w|] eqn:Hw;
      [|unfold processJob_resume in Hstep; rewrite Hw in Hstep; discriminate].
    destruct (worker_step_summary _ _ _ _ _ _ _ w Hstep Hw)
      as [[Hend ->]|(Hq & _ & _ & Hids & w' & Hws & Hr & _)].
    + unfold finish, processNextJob. apply handled_once_dispatch.
      apply (handled_once_same s); [exact Hs|..];
        destruct (heap (job_update (w_job w) None s) !! w_job w); frame;
        try reflexivity;
        (apply (fmap_w_job_insert _ _ w); [exact Hw|reflexivity]).
    + apply (handled_once_same s); [exact Hs|exact Hq| |].
      * rewrite Hws. apply (fmap_w_job_insert _ _ w); [exact Hw|exact Hr].
      * rewrite <- !ids_length, Hids. reflexivity.
Qed.

Lemma NoDup_omap_lookup (l : list string) (rs : list nat) :
  NoDup l -> NoDup rs -> NoDup (omap (fun r => l !! r) rs).
Proof.
  intros Hl Hrs. induction Hrs as [|r rs Hr _ IH]; [constructor|].
  cbn. destruct (l !! r) as [id|] eqn:Hid; [|exact IH].
  constructor; [|exact IH].
  intros Hin. apply list_elem_of_omap in Hin as (r' & Hr' & Hid').
  assert (r' = r) by exact (NoDup_lookup l r' r id Hl Hid' Hid).
  subst r'. contradiction.
Qed.

Lemma length_omap_lookup (l : list string) (rs : list nat) :
  (forall r, r ∈ rs -> r < length l) ->
  length (omap (fun r => l !! r) rs) = length rs.
Proof.
  induction rs as [|r rs IH]; intros H; [reflexivity|].
  cbn. destruct (lookup_lt_is_Some_2 l r) as [id Hid].
  { apply H. left. }
  rewrite Hid. cbn. rewrite IH; [reflexivity|].
  intros r' Hr'. apply H. right. exact Hr'.
Qed.

Lemma reachable_unique_handled_once s : reachable_unique s -> handled_once s.
Proof.
  intros Hreach. induction Hreach as [|l s s' _ IH _ Hstep].
  - split; [constructor|]. intros r Hr. cbn in Hr. inversion Hr.
  - eapply step_handled_once; eauto.
Qed.

(** The dispatcher looks at the queue and at the size of [activeJobs]
    only: the job at the head of the queue is handed to [processJob]
    whenever a slot is free, whoever holds that object already. *)
Lemma processNextJob_starts_the_head s t r q' job :
  shift_next (jobQueue s) = Some (t, r, q') ->
  heap s !! r = Some job ->
  (active_count s < MAX_CONCURRENT_JOBS)%Z ->
  exists ws,
    w_job <$> workers (processNextJob s) = ((w_job <$> workers s) ++ r :: ws)%list.
Proof.
  intros Hshift Hjob Hroom. unfold processNextJob.
  rewrite processNextJob_rec_S.
  replace (active_count s >=? MAX_CONCURRENT_JOBS)%Z with false
    by (symmetry; rewrite Z.geb_leb; apply Z.leb_gt; exact Hroom).
  rewrite Hshift. cbn zeta.
  destruct (processJob_start_dispatch r (set_jobQueue q' s) job Hjob) as (Hws & _).
  cbn [workers set_jobQueue] in Hws.
  destruct (active_count _ <? MAX_CONCURRENT_JOBS)%Z.
  - destruct (processNextJob_rec_keeps (queue_length (jobQueue s))
                (processJob_start r (set_jobQueue q' s)))
      as (_ & _ & _ & _ & _ & _ & (ws & Hws') & _).
    exists (w_job <$> ws). rewrite Hws', Hws, !fmap_app, <- app_assoc. reflexivity.
  - exists []. rewrite Hws, fmap_app. reflexivity.
Qed.

(** X3. The callers keep job ids distinct, so no job object is submitted
    twice.  Then in every state the manager reaches the waiting job
    objects and those handed to [processJob] are all different, and so
    are their ids: no job waits in two places, no job waits while it runs,
    and no job is handed to [processJob] a second time.  This rests on the
    callers: the dispatcher itself starts the job at the head of the queue
    whenever a slot is free, whether or not an invocation already holds
    that object. *)
Theorem a_job_is_started_at_most_once :
  (forall s,
      reachable_unique s ->
      NoDup (queue_order (jobQueue s) ++ (w_job <$> workers s)) /\
      NoDup (handled_ids s) /\
      length (handled_ids s) = length (handled s)) /\
  (forall s t r q' job,
      shift_next (jobQueue s) = Some (t, r, q') ->
      heap s !! r = Some job ->
      (active_count s < MAX_CONCURRENT_JOBS)%Z ->
      exists ws,
        w_job <$> workers (processNextJob s) =
          ((w_job <$> workers s) ++ r :: ws)%list).
Proof.
  split; [|exact processNextJob_starts_the_head].
  intros s Hreach.
  destruct (reachable_unique_handled_once s Hreach) as [Hnodup Hvalid].
  pose proof (reachable_unique_consistent _ _ _ s Hreach) as Hs.
  split; [exact Hnodup|]. split.
  - apply NoDup_omap_lookup; [apply (ids_nodup s Hs)|exact Hnodup].
  - apply length_omap_lookup. intros r Hr. rewrite ids_length. apply Hvalid, Hr.
Qed.

(** ** The request of a job is never rewritten *)

Lemma requests_modify_job r f s :
  (forall job, request (f job) = request job) ->
  requests (modify_job r f s) = requests s.
Proof.
  intros Hf. unfold requests, modify_job.
  destruct (heap s !! r) as [job|] eqn:Hjob; [|reflexivity].
  cbn [heap set_heap]. rewrite list_fmap_insert, Hf.
  apply list_insert_id. rewrite list_lookup_fmap, Hjob. reflexivity.
Qed.

Lemma requests_processJob_start r s :
  requests (processJob_start r s) = requests s.
Proof.
  unfold requests, processJob_start.
  destruct (heap s !! r) as [job|] eqn:Hjob; [|reflexivity].
  cbn. rewrite list_fmap_insert.
  apply list_insert_id. rewrite list_lookup_fmap, Hjob. reflexivity.
Qed.

Lemma requests_processNextJob_rec fuel s :
  requests (processNextJob_rec fuel s) = requests s.
Proof.
  revert s. induction fuel as [|fuel IH]; intros s; [reflexivity|].
  rewrite processNextJob_rec_S.
  destruct (active_count s >=? MAX_CONCURRENT_JOBS)%Z; [reflexivity|].
  destruct (shift_next (jobQueue s)) as [[[t r] q']|]; [|reflexivity].
  cbn zeta.
  destruct (active_count _ <? MAX_CONCURRENT_JOBS)%Z;
    rewrite ?IH, requests_processJob_start; reflexivity.
Qed.

Lemma requests_restore jobs s :
  requests s `prefix_of` requests (foldl restore s jobs).
Proof.
  revert s. induction jobs as [|job jobs IH]; intros s; [reflexivity|].
  simpl. etransitivity; [|apply IH].
  unfold requests, restore. cbn. rewrite fmap_app. apply prefix_app_r. reflexivity.
Qed.

Lemma requests_job_update r msg s : requests (job_update r msg s) = requests s.
Proof. unfold requests. rewrite job_update_heap. reflexivity. Qed.

Lemma requests_set_progress r p m s : requests (set_progress r p m s) = requests s.
Proof. apply requests_modify_job. reflexivity. Qed.

Lemma requests_mark_complete msg r s : requests (mark_complete msg r s) = requests s.
Proof.
  unfold mark_complete. destruct (heap (modify_job _ _ _) !! r);
    [change (requests (call ?c ?x)) with (requests x)|];
    apply requests_modify_job; reflexivity.
Qed.

Lemma step_requests l s s' :
  step l s = Some s' -> requests s `prefix_of` requests s'.
Proof.
  intros Hstep. destruct l as [t|pending|job saved|id|k resp|k resp];
    simpl in Hstep.
  - injection Hstep as <-. reflexivity.
  - injection Hstep as <-. destruct pending as [msg|jobs]; cbn [init fst];
      unfold processNextJob; rewrite requests_processNextJob_rec;
      [reflexivity|].
    apply (requests_restore jobs (call GetPendingJobs s)).
  - injection Hstep as <-. unfold queueJob.
    destruct saved; (try destruct (tier_of_key (priority job))); cbn [fst];
      try reflexivity;
      (destruct (active_count _ <? MAX_CONCURRENT_JOBS)%Z;
       [unfold processNextJob; rewrite requests_processNextJob_rec|]);
      unfold requests; cbn; rewrite fmap_app; apply prefix_app_r; reflexivity.
  - injection Hstep as <-. unfold cancelJob.
    repeat case_match;
      try (change (requests (add_cancel ?c (call ?d ?x))) with (requests x));
      rewrite ?requests_modify_job by (intros; reflexivity); reflexivity.
  - unfold cancelJob_resume in Hstep.
    repeat case_match; simplify_eq; try reflexivity;
      change (requests (cancel_return ?k ?b ?m ?x)) with (requests x);
      unfold processNextJob; rewrite requests_processNextJob_rec; reflexivity.
  - destruct (worker_step_frame _ _ _ _ _ _ _ Hstep)
      as [(w & v & Hw & -> & Hpc & ->)|_].
    { unfold finish, processNextJob. rewrite requests_processNextJob_rec.
      destruct (heap (job_update (w_job w) None s) !! w_job w);
        unfold requests; frame; reflexivity. }
    unfold processJob_resume in Hstep.
    destruct (workers s !! k) as [w|] eqn:Hw; [|discriminate].
    destruct (w_pc w) eqn:Hpc; destruct resp; try discriminate;
      repeat case_match; simplify_eq.
    all: unfold_worker; unfold finish; repeat case_match;
      unfold_worker; repeat case_match.
    all: repeat first
      [ progress (change (requests (put_worker ?k ?w ?x)) with (requests x))
      | progress (change (requests (call ?c ?x)) with (requests x))
      | progress (change (requests (log_error ?e ?x)) with (requests x))
      | rewrite requests_job_update
      | rewrite requests_set_progress
      | rewrite requests_mark_complete
      | rewrite requests_processNextJob_rec
      | rewrite requests_modify_job by (intros; reflexivity) ].
    all: try reflexivity.
    all: unfold processNextJob; rewrite requests_processNextJob_rec;
      unfold requests; frame; reflexivity.
Qed.

Lemma run_request ls s s' r job :
  run ls s = Some s' ->
  heap s !! r = Some job ->
  exists job', heap s' !! r = Some job' /\ request job' = request job.
Proof.
  intros Hrun Hjob.
  assert (Hpre : requests s `prefix_of` requests s').
  { clear Hjob. revert s Hrun. induction ls as [|l ls IH]; intros s Hrun;
      simpl in Hrun.
    - injection Hrun as <-. reflexivity.
    - destruct (step l s) as [s1|] eqn:Hstep; [|discriminate].
      etransitivity; [eapply step_requests; eauto|apply IH; exact Hrun]. }
  assert (Hr : requests s' !! r = Some (request job)).
  { eapply prefix_lookup_Some; [|exact Hpre].
    unfold requests. rewrite list_lookup_fmap, Hjob. reflexivity. }
  unfold requests in Hr. rewrite list_lookup_fmap in Hr.
  destruct (heap s' !! r) as [job'|]; [|discriminate].
  exists job'. split; [reflexivity|]. cbn in Hr. congruence.
Qed.

(** X12. No operation rewrites what a job asks for.  The job object behind a
    reference keeps its [jobId], [domain], [depth], [priority] and
    [maxPages] through every schedule; the manager only ever writes its
    status, progress, message and the two timestamps. *)
Theorem the_request_of_a_job_is_never_rewritten ls s s' r job :
  run ls s = Some s' ->
  heap s !! r = Some job ->
  exists job',
    heap s' !! r = Some job' /\
    jobId job' = jobId job /\ domain job' = domain job /\
    depth job' = depth job /\ priority job' = priority job /\
    maxPages job' = maxPages job.
Proof.
  intros Hrun Hjob.
  destruct (run_request ls s s' r job Hrun Hjob) as (job' & Hjob' & Hr).
  exists job'. split; [exact Hjob'|].
  injection Hr as H1 H2 H3 H4 H5. auto.
Qed.

(** ** A whole run *)

Lemma run_app ls1 ls2 s :
  run (ls1 ++ ls2) s =
  match run ls1 s with
  | Some s1 => run ls2 s1
  | None => None
  end.
Proof.
  revert s. induction ls1 as [|l ls1 IH]; intros s; [reflexivity|].
  cbn [app run]. destruct (step l s); [apply IH|reflexivity].
Qed.

(** An invocation of [processJob] never changes the job it works on, and
    no operation removes an invocation. *)
Lemma step_keeps_w_job l s s' k w :
  step l s = Some s' -> workers s !! k = Some w ->
  exists w', workers s' !! k = Some w' /\ w_job w' = w_job w.
Proof.
  intros Hstep Hw.
  assert (Hgrow : forall fuel x w1, workers x !! k = Some w1 ->
            workers (processNextJob_rec fuel x) !! k = Some w1).
  { intros fuel x w1 Hx.
    destruct (processNextJob_rec_keeps fuel x)
      as (_ & _ & _ & _ & _ & _ & (ws & ->) & _).
    apply lookup_app_l_Some. exact Hx. }
  destruct l as [t|pending|job saved|id|k0 resp|k0 resp]; simpl in Hstep.
  - injection Hstep as <-. eauto.
  - injection Hstep as <-. exists w. split; [|reflexivity].
    destruct pending as [msg|jobs]; cbn [init fst]; unfold processNextJob;
      apply Hgrow; [exact Hw|].
    clear -Hw.
    generalize (call GetPendingJobs s)
               (eq_refl : workers (call GetPendingJobs s) = workers s).
    intros x Hx. rewrite <- Hx in Hw. clear Hx. revert x Hw.
    induction jobs as [|job jobs IH]; intros x Hx; [exact Hx|].
    simpl. apply IH. exact Hx.
  - injection Hstep as <-. exists w. split; [|reflexivity]. unfold queueJob.
    destruct saved; (try destruct (tier_of_key (priority job))); cbn [fst];
      try exact Hw;
      (destruct (active_count _ <? MAX_CONCURRENT_JOBS)%Z;
       [unfold processNextJob; apply Hgrow|]); exact Hw.
  - injection Hstep as <-. exists w. split; [|reflexivity].
    unfold cancelJob. repeat case_match; frame; exact Hw.
  - exists w. split; [|reflexivity]. unfold cancelJob_resume in Hstep.
    repeat case_match; simplify_eq; frame; try exact Hw;
      unfold processNextJob; apply Hgrow; exact Hw.
  - destruct (workers s !! k0) as [w0|] eqn:Hw0;
      [|unfold processJob_resume in Hstep; rewrite Hw0 in Hstep; discriminate].
    assert (Hk0 : k0 < length (workers s)) by (eapply lookup_lt_Some; eauto).
    destruct (worker_step_summary _ _ _ _ _ _ _ w0 Hstep Hw0)
      as [[Hend ->]|(_ & _ & _ & _ & w' & Hws & Hr & _)].
    + unfold finish, processNextJob.
      destruct (decide (k0 = k)) as [->|Hne].
      * rewrite Hw in Hw0. injection Hw0 as <-.
        exists (at_pc returned w). split; [|reflexivity]. apply Hgrow.
        destruct (heap _ !! w_job w); frame;
          apply list_lookup_insert_eq; exact Hk0.
      * exists w. split; [|reflexivity]. apply Hgrow.
        destruct (heap _ !! w_job w0); frame;
          rewrite list_lookup_insert_ne by assumption; exact Hw.
    + rewrite Hws. destruct (decide (k0 = k)) as [->|Hne].
      * rewrite Hw in Hw0. injection Hw0 as <-.
        exists w'. split; [apply list_lookup_insert_eq; exact Hk0|exact Hr].
      * exists w. split; [|reflexivity].
        rewrite list_lookup_insert_ne by assumption. exact Hw.
Qed.

Lemma run_keeps_w_job ls s s' k w :
  run ls s = Some s' -> workers s !! k = Some w ->
  exists w', workers s' !! k = Some w' /\ w_job w' = w_job w.
Proof.
  revert s w. induction ls as [|l ls IH]; intros s w Hrun Hw; simpl in Hrun.
  - injection Hrun as <-. eauto.
  - destruct (step l s) as [s1|] eqn:Hstep; [|discriminate].
    destruct (step_keeps_w_job l s s1 k w Hstep Hw) as (w1 & Hw1 & Hr1).
    destruct (IH s1 w1 Hrun Hw1) as (w' & Hw' & Hr'). exists w'.
    split; [exact Hw'|congruence].
Qed.

(** X9. A job on whose domain discovery finds pages runs to its end whatever
    the extractors do.  With the content of every page fetched, each of the
    six extractors settled one way or the other, and the store answering the
    last status write, the invocation returns: the results hold for every
    section the output of its extractor or the fallback, the job is in
    [completedJobs] under its id, and its progress is 100. *)
Theorem a_job_with_pages_runs_to_its_end
    k w job page ps contents (outs : Extractor -> Response) rq v s :
  workers s !! k = Some w ->
  w_pc w = at_discoverPages ->
  heap s !! w_job w = Some job ->
  length contents = S (length ps) ->
  (forall e, settles (outs e)) ->
  settles rq ->
  exists s' w' job',
    run ((resume_processJob k (resolves_pages (page :: ps)) ::
          ((fun c => resume_processJob k (resolves c)) <$> contents)) ++
         (extractor_stage k outs ++
          (if truthy (domainInfoId w) then [resume_processJob k rq] else [])) ++
         [resume_processJob k (resolves v)]) s = Some s' /\
    workers s' !! k = Some w' /\
    w_pc w' = returned /\
    (forall e, get_field (section_key e) (results w') =
               Some (js_or (outcome (outs e)) (section_default (domain job) e))) /\
    completedJobs s' !! jobId job = Some (w_job w) /\
    heap s' !! w_job w = Some job' /\
    progress job' = 100.
Proof.
  intros Hw Hpc Hjob Hlen Houts Hrq.
  destruct (discovery_to_extractors k w job page ps contents s Hw Hpc Hjob Hlen)
    as (w0 & s0 & job0 & Hrun0 & Hk0 & Hr0 & _ & _ & Hd0 & Hj0 & _).
  rewrite <- Hr0 in Hj0.
  destruct (extractor_stage_completes MAX_CONCURRENT_JOBS global_io floor_share
              k s0 w0 job0 outs rq Hk0 Hj0 Houts Hrq)
    as (s2 & w2 & job2 & Hrun2 & Hw2 & Hpc2 & Hj2 & _ & H100 & Hdom & Hres).
  rewrite Hd0 in Hrun2. rewrite Hr0 in Hj2.
  (* the invocation still works on the same job, and the job is the same *)
  assert (Hrun02 : run ((resume_processJob k (resolves_pages (page :: ps)) ::
                         ((fun c => resume_processJob k (resolves c)) <$> contents)) ++
                        (extractor_stage k outs ++
                         (if truthy (domainInfoId w)
                          then [resume_processJob k rq] else []))) s = Some s2).
  { rewrite run_app, Hrun0. exact Hrun2. }
  destruct (run_keeps_w_job _ _ _ k w Hrun02 Hw) as (w2' & Hw2' & Hr2).
  rewrite Hw2 in Hw2'. injection Hw2' as <-.
  destruct (run_request _ _ _ _ _ Hrun02 Hjob) as (job2' & Hj2' & Hreq).
  rewrite Hj2 in Hj2'. injection Hj2' as <-.
  assert (Hid : jobId job2 = jobId job) by (injection Hreq; auto).
  assert (Hdom2 : domain job2 = domain job) by (injection Hreq; auto).
  rewrite <- Hr2 in Hj2.
  destruct (finish_progress k w2 job2 s2 Hw2 Hj2) as (job' & Hwf & Hjf & Hpf).
  exists (finish k w2 s2), (at_pc returned w2), job'.
  split.
  { rewrite app_assoc, run_app, Hrun02. cbn [run step].
    unfold processJob_resume. rewrite Hw2, Hpc2. reflexivity. }
  split; [exact Hwf|]. split; [reflexivity|].
  split.
  { intros e. cbn [results at_pc]. rewrite Hres.
    destruct (run_request _ _ _ _ _ Hrun0 Hjob) as (job0' & Hj0' & Hreq0).
    cbn [heap run_extractor put_worker set_workers call] in Hj0'.
    rewrite <- Hr0, Hj0 in Hj0'. injection Hj0' as <-.
    replace (domain job0) with (domain job) by (injection Hreq0; auto).
    reflexivity. }
  split.
  { unfold finish, processNextJob.
    rewrite (proj1 (proj2 (processNextJob_rec_keeps _ _))). frame.
    rewrite Hj2. frame. rewrite <- Hid, Hr2. apply lookup_insert_eq. }
  rewrite <- Hr2. split; [exact Hjf|]. congruence.
Qed.

End Further.
(** * Publishing does not steer the manager *)

Section Publishing.

Variable MAX_CONCURRENT_JOBS : Z.
Variable floor_share : nat -> nat -> nat.

Lemma modify_job_heap_modify r f s :
  heap (modify_job r f s) = heap_modify r f (heap s).
Proof. unfold modify_job, heap_modify. destruct (heap s !! r); reflexivity. Qed.

Lemma quiet_processJob_start r s :
  quiet (processJob_start r s) = processJob_start r (quiet s).
Proof.
  unfold processJob_start. cbn [heap quiet].
  destruct (heap s !! r); reflexivity.
Qed.

Lemma quiet_processNextJob_rec fuel s :
  quiet (processNextJob_rec MAX_CONCURRENT_JOBS fuel s) =
  processNextJob_rec MAX_CONCURRENT_JOBS fuel (quiet s).
Proof.
  revert s. induction fuel as [|fuel IH]; intros s; [reflexivity|].
  cbn [processNextJob_rec].
  change (active_count (quiet s)) with (active_count s).
  change (jobQueue (quiet s)) with (jobQueue s).
  destruct (active_count s >=? MAX_CONCURRENT_JOBS)%Z; [reflexivity|].
  destruct (shift_next (jobQueue s)) as [[[t r] q']|]; [|reflexivity].
  change (set_jobQueue q' (quiet s)) with (quiet (set_jobQueue q' s)).
  rewrite <- quiet_processJob_start.
  change (active_count (quiet (processJob_start r (set_jobQueue q' s))))
    with (active_count (processJob_start r (set_jobQueue q' s))).
  destruct (active_count _ <? MAX_CONCURRENT_JOBS)%Z; [apply IH|reflexivity].
Qed.

Lemma quiet_processNextJob s :
  quiet (processNextJob MAX_CONCURRENT_JOBS s) =
  processNextJob MAX_CONCURRENT_JOBS (quiet s).
Proof. unfold processNextJob. apply quiet_processNextJob_rec. Qed.

Lemma quiet_foldl_restore jobs s :
  quiet (foldl restore s jobs) = foldl restore (quiet s) jobs.
Proof.
  revert s. induction jobs as [|job jobs IH]; intros s; [reflexivity|].
  simpl. rewrite IH. reflexivity.
Qed.

Lemma quiet_quiet s : quiet (quiet s) = quiet s.
Proof. reflexivity. Qed.
Lemma quiet_job_update io r msg s : quiet (job_update io r msg s) = quiet s.
Proof.
  unfold job_update, emitSocketEvent.
  destruct (heap s !! r); [|reflexivity].
  destruct io as [emit|]; [|reflexivity]. destruct (emit _ _); reflexivity.
Qed.
Lemma quiet_log_error e s : quiet (log_error e s) = quiet s.
Proof. reflexivity. Qed.
Lemma quiet_modify_job r f s : quiet (modify_job r f s) = modify_job r f (quiet s).
Proof. unfold modify_job. cbn [heap quiet]. destruct (heap s !! r); reflexivity. Qed.
Lemma quiet_call c s : quiet (call c s) = call c (quiet s).
Proof. reflexivity. Qed.
Lemma quiet_put_worker k w s : quiet (put_worker k w s) = put_worker k w (quiet s).
Proof. reflexivity. Qed.
Lemma quiet_set_jobQueue q s : quiet (set_jobQueue q s) = set_jobQueue q (quiet s).
Proof. reflexivity. Qed.
Lemma quiet_set_activeJobs m s : quiet (set_activeJobs m s) = set_activeJobs m (quiet s).
Proof. reflexivity. Qed.
Lemma quiet_set_completedJobs m s :
  quiet (set_completedJobs m s) = set_completedJobs m (quiet s).
Proof. reflexivity. Qed.
Lemma quiet_set_now t s : quiet (set_now t s) = set_now t (quiet s).
Proof. reflexivity. Qed.
Lemma quiet_alloc job s : quiet (alloc job s) = alloc job (quiet s).
Proof. reflexivity. Qed.
Lemma quiet_add_cancel c s : quiet (add_cancel c s) = add_cancel c (quiet s).
Proof. reflexivity. Qed.
Lemma quiet_cancel_return k success msg s :
  quiet (cancel_return k success msg s) = cancel_return k success msg (quiet s).
Proof. reflexivity. Qed.
Lemma quiet_cancel_failed k msg s :
  quiet (cancel_failed k msg s) =
  cancel_return k false ("Error cancelling job: " +:+ msg) (quiet s).
Proof. reflexivity. Qed.
Lemma quiet_reject k w msg s :
  quiet (reject k w msg s) =
  put_worker k (at_pc (rejected ("Failed to process job: " +:+ msg)) w) (quiet s).
Proof. reflexivity. Qed.

Create Rewrite HintDb quiet.
#[local] Hint Rewrite quiet_quiet quiet_job_update quiet_log_error quiet_modify_job
  quiet_call quiet_put_worker quiet_set_jobQueue quiet_set_activeJobs
  quiet_set_completedJobs quiet_set_now quiet_alloc quiet_add_cancel
  quiet_cancel_return quiet_cancel_failed quiet_reject quiet_processNextJob : quiet.

(** The fields the manager reads, out of a composition of its
    operations. *)
Ltac read_fields :=
  unfold set_progress;
  repeat (progress
    (cbv zeta;
     cbn [heap jobQueue activeJobs completedJobs workers cancels published
          calls errors now quiet
          set_heap set_jobQueue set_activeJobs set_completedJobs set_workers
          set_cancels set_published set_now call log_error alloc
          put_worker add_cancel cancel_return cancel_failed reject];
     autorewrite with frame quiet;
     rewrite ?modify_job_heap_modify)).

Lemma step_quiet io l s :
  quiet <$> step MAX_CONCURRENT_JOBS io floor_share l s =
  quiet <$> step MAX_CONCURRENT_JOBS None floor_share l (quiet s).
Proof.
  destruct l as [t|pending|job saved|id|k resp|k resp];
    cbn [step fmap option_fmap option_map].
  - reflexivity.
  - f_equal. destruct pending as [msg|jobs]; cbn [init fst];
      rewrite !quiet_processNextJob; f_equal;
      rewrite ?quiet_foldl_restore; reflexivity.
  - f_equal. unfold queueJob.
    destruct saved; (try destruct (tier_of_key (priority job))); cbn [fst];
      try reflexivity;
      change (active_count (set_jobQueue ?q (alloc job (call (SaveJob job) (quiet s)))))
        with (active_count s);
      change (active_count (set_jobQueue ?q (alloc job (call (SaveJob job) s))))
        with (active_count s);
      (destruct (active_count s <? MAX_CONCURRENT_JOBS)%Z;
       [rewrite !quiet_processNextJob|]; reflexivity).
  - f_equal. unfold cancelJob, search_queue, find_queued.
    repeat (read_fields; case_match; simplify_eq); read_fields; reflexivity.
  - unfold cancelJob_resume.
    repeat (read_fields; case_match; simplify_eq);
      cbn [fmap option_fmap option_map];
      try reflexivity; f_equal; read_fields;
      change (cancels (processNextJob MAX_CONCURRENT_JOBS ?x))
        with (cancels (quiet (processNextJob MAX_CONCURRENT_JOBS x)));
      read_fields; reflexivity.
  - unfold processJob_resume. read_fields.
    destruct (workers s !! k) as [w|] eqn:Hw; [|reflexivity].
    destruct (w_pc w) eqn:Hpc; destruct resp; try reflexivity.
    all: try destruct (info_line_raises e v).
    all: unfold_worker; unfold finish;
      repeat (read_fields; case_match; simplify_eq);
      cbn [fmap option_fmap option_map]; try reflexivity.
    all: unfold_worker; repeat (read_fields; case_match; simplify_eq);
      try reflexivity.
    all: f_equal; rewrite ?quiet_processNextJob; read_fields; try reflexivity.
Qed.

(** X4. Whether the socket server is there, delivers, drops or throws makes
    no difference to anything but the list of delivered events and the error
    log.  Two managers that agree on everything else and are taken through
    the same schedule, each with a socket server of its own, can take the
    same steps and agree on everything else afterwards: the job objects, the
    tiers, both maps, the workers and their variables, the pending
    cancellations and the calls issued. *)
Theorem publishing_does_not_steer_the_manager io1 io2 ls s1 s2 :
  quiet s1 = quiet s2 ->
  quiet <$> run MAX_CONCURRENT_JOBS io1 floor_share ls s1 =
  quiet <$> run MAX_CONCURRENT_JOBS io2 floor_share ls s2.
Proof.
  revert s1 s2. induction ls as [|l ls IH]; intros s1 s2 Heq; cbn [run].
  - cbn. f_equal. exact Heq.
  - pose proof (step_quiet io1 l s1) as H1.
    pose proof (step_quiet io2 l s2) as H2.
    rewrite Heq in H1. rewrite <- H2 in H1. clear H2.
    destruct (step MAX_CONCURRENT_JOBS io1 floor_share l s1) as [x1|];
      destruct (step MAX_CONCURRENT_JOBS io2 floor_share l s2) as [x2|];
      cbn in H1; try discriminate; [|reflexivity].
    apply IH. congruence.
Qed.

End Publishing.
(** * The order of dispatch *)

Lemma shift_next_complete q t r rest :
  tier t q = r :: rest ->
  (forall t', tier_rank t' < tier_rank t -> tier t' q = []) ->
  shift_next q = Some (t, r, set_tier t rest q).
Proof.
  destruct q as [h n l]. intros Ht Habove. unfold shift_next.
  destruct t; cbn [tier q_high q_normal q_low set_tier] in *.
  - rewrite Ht. reflexivity.
  - pose proof (Habove high) as Hh. cbn in Hh. rewrite Hh by lia.
    rewrite Ht. reflexivity.
  - pose proof (Habove high) as Hh. pose proof (Habove normal) as Hn.
    cbn in Hh, Hn. rewrite Hh, Hn by lia. rewrite Ht. reflexivity.
Qed.

Lemma shift_next_None_iff q : shift_next q = None <-> forall t, tier t q = [].
Proof.
  destruct q as [h n l]. unfold shift_next. cbn [q_high q_normal q_low]. split.
  - destruct h as [|a h]; [destruct n as [|b n]; [destruct l as [|c l]|]|];
      intros H; try discriminate. intros t. destruct t; reflexivity.
  - intros H. pose proof (H high) as Hh. pose proof (H normal) as Hn.
    pose proof (H low) as Hl. cbn in Hh, Hn, Hl. subst. reflexivity.
Qed.

(** C3.  The head of [processNextJob] takes a job whenever one waits, the
    head of the highest tier that holds one, and leaves the rest of the
    queue as it is; it takes none only when all three tiers are empty.
    [push] appends at the back of its tier.  So one call of the dispatcher
    starts the first jobs of the queue read high tier first and each tier
    front to back, as many as there are free slots (or all, if fewer
    wait), and it stops only on an empty queue or a full [activeJobs].  On
    one slot, with H1 (high), N1 (normal), H2 (high) submitted in this order
    and each job completed as soon as it is started, the jobs are started
    in the order H1, H2, N1; and with L1 (low) running and N1, L2, H1, N2
    submitted meanwhile, in the order L1, H1, N1, N2, L2. *)
Theorem dispatch_is_strict_priority_fifo :
  (forall q t r q',
      shift_next q = Some (t, r, q') ->
      (forall t', tier_rank t' < tier_rank t -> tier t' q = []) /\
      tier t q = r :: tier t q' /\
      (forall t', t' <> t -> tier t' q' = tier t' q)) /\
  (forall q t r rest,
      tier t q = r :: rest ->
      (forall t', tier_rank t' < tier_rank t -> tier t' q = []) ->
      shift_next q = Some (t, r, set_tier t rest q)) /\
  (forall q, shift_next q = None <-> forall t, tier t q = []) /\
  (forall t r q,
      tier t (push t r q) = (tier t q ++ [r])%list /\
      forall t', t' <> t -> tier t' (push t r q) = tier t' q) /\
  (forall MAX s,
      consistent s ->
      (active_count s <= MAX)%Z ->
      w_job <$> workers (processNextJob MAX s) =
        ((w_job <$> workers s) ++
         take (Nat.min (Z.to_nat (MAX - active_count s)) (queue_length (jobQueue s)))
              (queue_order (jobQueue s)))%list /\
      queue_order (jobQueue (processNextJob MAX s)) =
        drop (Nat.min (Z.to_nat (MAX - active_count s)) (queue_length (jobQueue s)))
             (queue_order (jobQueue s))) /\
  (forall MAX s,
      (forall r, r ∈ queue_order (jobQueue s) -> r < length (heap s)) ->
      (exists n,
         w_job <$> workers (processNextJob MAX s) =
           ((w_job <$> workers s) ++ take n (queue_order (jobQueue s)))%list /\
         queue_order (jobQueue (processNextJob MAX s)) =
           drop n (queue_order (jobQueue s))) /\
      (queue_order (jobQueue (processNextJob MAX s)) = [] \/
       (MAX <= active_count (processNextJob MAX s))%Z)) /\
  dispatch_order <$> run 1 delivering_io exact_share priority_schedule initial_state
    = Some ["H1"; "H2"; "N1"] /\
  dispatch_order <$> run 1 delivering_io exact_share tiered_schedule initial_state
    = Some ["L1"; "H1"; "N1"; "N2"; "L2"].
Proof.
  split; [exact shift_next_spec|].
  split; [exact shift_next_complete|].
  split; [exact shift_next_None_iff|].
  split; [intros t r q; apply push_spec|].
  split.
  { intros MAX s Hs Hcap.
    destruct (processNextJob_rec_fills MAX (S (queue_length (jobQueue s))) s Hs)
      as (H1 & H2 & _); [lia|exact Hcap|].
    split; [exact H1|exact H2]. }
  split.
  { intros MAX s Hvalid. split.
    - apply processNextJob_rec_order. exact Hvalid.
    - apply processNextJob_saturates. }
  split; vm_compute; reflexivity.
Qed.

(** * Reloading pending jobs *)

Lemma requeued_priority job : priority (requeued job) = priority job.
Proof. unfold requeued. destruct (decide _); reflexivity. Qed.

Lemma omap_lookup_app (h : list Job) x (l : list nat) :
  (forall r, r ∈ l -> r < length h) ->
  omap (fun r => (h ++ [x])%list !! r) l = omap (fun r => h !! r) l.
Proof.
  induction l as [|r l IH]; intros Hl; [reflexivity|].
  cbn [omap list_omap]. rewrite lookup_app_l by (apply Hl; left).
  rewrite IH; [reflexivity|]. intros y Hy. apply Hl. right. exact Hy.
Qed.

Lemma waiting_restore t s job :
  (forall r, r ∈ queue_order (jobQueue s) -> r < length (heap s)) ->
  waiting t (restore s job) =
    (waiting t s ++
     (if decide (restore_tier job = t) then [requeued job] else []))%list /\
  (forall r, r ∈ queue_order (jobQueue (restore s job)) ->
             r < length (heap (restore s job))).
Proof.
  intros Hvalid. unfold restore. fold (requeued job).
  fold (restore_tier (requeued job)).
  replace (restore_tier (requeued job)) with (restore_tier job)
    by (unfold restore_tier; rewrite requeued_priority; reflexivity).
  split.
  - unfold waiting. cbn [heap jobQueue set_jobQueue alloc set_heap].
    destruct (push_spec (restore_tier job) (length (heap s)) (jobQueue s))
      as [Hsame Hother].
    destruct (decide (restore_tier job = t)) as [<-|Hne].
    + rewrite Hsame, omap_app. f_equal.
      * apply omap_lookup_app. intros r Hr. apply Hvalid.
        eapply queue_order_tier; eauto.
      * cbn. rewrite lookup_app_r by reflexivity. rewrite Nat.sub_diag. reflexivity.
    + rewrite Hother by congruence. rewrite app_nil_r.
      apply omap_lookup_app. intros r Hr. apply Hvalid.
      eapply queue_order_tier; eauto.
  - intros r Hr. cbn [heap jobQueue set_jobQueue alloc set_heap] in *.
    rewrite queue_order_push in Hr. rewrite length_app. cbn.
    apply elem_of_cons in Hr as [->|Hr]; [lia|]. apply Hvalid in Hr. lia.
Qed.

(** X18. The loop of [init] over the pending jobs (lines 46-58) enqueues
    every one of them, behind what a tier already holds and in the order in
    which the store returned them: a tier ends up with the jobs of that
    priority, a priority that names no tier counting as [normal].  A job the
    store has as [processing] is queued again as [queued]; any other job is
    enqueued as it is. *)
Theorem init_enqueues_in_store_order jobs t s :
  (forall r, r ∈ queue_order (jobQueue s) -> r < length (heap s)) ->
  waiting t (foldl restore s jobs) =
    (waiting t s ++
     (requeued <$> filter (fun job => restore_tier job = t) jobs))%list /\
  (forall job, status (requeued job) <> processing /\
               (status job <> processing -> requeued job = job)).
Proof.
  intros Hvalid. split.
  - revert s Hvalid. induction jobs as [|job jobs IH]; intros s Hvalid.
    + cbn. rewrite app_nil_r. reflexivity.
    + cbn [foldl]. destruct (waiting_restore t s job Hvalid) as [Hw Hvalid'].
      rewrite (IH _ Hvalid'), Hw, <- app_assoc. f_equal.
      rewrite filter_cons. destruct (decide (restore_tier job = t)); reflexivity.
  - intros job. unfold requeued.
    destruct (decide (status job = processing)) as [Heq|Hne]; cbn;
      split; congruence.
Qed.

(** * [extractContent] *)

Lemma extractContent_blocks_app sels1 sels2 extractors outs called results :
  extractContent_blocks (sels1 ++ sels2) extractors outs called results =
  match extractContent_blocks sels1 extractors outs called results with
  | (called', inr results') =>
      extractContent_blocks sels2 extractors outs called' results'
  | failure => failure
  end.
Proof.
  revert called results. induction sels1 as [|sel sels1 IH]; intros called results;
    [reflexivity|].
  cbn [app extractContent_blocks].
  destruct (wanted extractors sel); [|apply IH].
  destruct (outs (sel_module sel)) as [msg|v]; [reflexivity|].
  destruct (sel_store sel v); [apply IH|reflexivity].
Qed.

(** X22. [extractContent] has one [try] around all its blocks.  If the
    blocks before one have gone through and the module of that block is
    asked for and rejects, the call stops there: the error is rethrown as it
    is, no module of a later block is called, and what the earlier modules
    returned is dropped. *)
Theorem extractContent_stops_at_the_first_failure
    dom extractors outs before sel after called results msg :
  selections = (before ++ sel :: after)%list ->
  extractContent_blocks before extractors outs [] [("domain", JStr dom)] =
    (called, inr results) ->
  wanted extractors sel = true ->
  outs (sel_module sel) = inl msg ->
  extractContent dom extractors outs = ((called ++ [sel_module sel])%list, inl msg).
Proof.
  intros Hsplit Hbefore Hwanted Hfail. unfold extractContent.
  rewrite Hsplit, extractContent_blocks_app, Hbefore.
  cbn [extractContent_blocks]. rewrite Hwanted, Hfail. reflexivity.
Qed.

Lemma selections_store :
  Forall (fun sel => forall v, nullish v = false -> is_Some (sel_store sel v))
         selections.
Proof.
  unfold selections. repeat constructor; cbn; intros v Hv; eauto.
  unfold store_isbn. destruct v; try discriminate; cbn; eauto.
Qed.

Lemma extractContent_blocks_succeed sels extractors outs called results :
  Forall (fun sel => forall v, nullish v = false -> is_Some (sel_store sel v)) sels ->
  (forall m, exists v, outs m = inr v /\ nullish v = false) ->
  exists fields,
    extractContent_blocks sels extractors outs called results =
      ((called ++
        (sel_module <$> filter (fun sel => wanted extractors sel = true) sels))%list,
       inr (results ++ fields)%list).
Proof.
  intros Hstore Hok. revert called results.
  induction Hstore as [|sel sels Hsel _ IH]; intros called results.
  - exists []. cbn. rewrite !app_nil_r. reflexivity.
  - cbn [extractContent_blocks]. rewrite filter_cons.
    destruct (wanted extractors sel) eqn:Hw.
    + destruct (Hok (sel_module sel)) as (v & -> & Hv).
      destruct (Hsel v Hv) as [fields ->].
      destruct (IH (called ++ [sel_module sel])%list (results ++ fields)%list)
        as [fields' ->].
      exists (fields ++ fields')%list.
      destruct (decide (true = true)); [|congruence].
      cbn. rewrite <- !app_assoc. reflexivity.
    + destruct (IH called results) as [fields ->]. exists fields.
      destruct (decide (false = true)); [discriminate|]. reflexivity.
Qed.

(** X23. When every module resolves to a value other than [null] and
    [undefined], [extractContent] calls the modules that are asked for, each
    once and in the order of the source, whatever the order of the names in
    [extractors] and however often a name occurs there ([rss] and [podcast]
    ask for the same module), and returns an object that starts with
    [domain]. *)
Theorem extractContent_calls_what_is_asked_for dom extractors outs :
  (forall m, exists v, outs m = inr v /\ nullish v = false) ->
  exists fields,
    extractContent dom extractors outs =
      (sel_module <$> filter (fun sel => wanted extractors sel = true) selections,
       inr (JObj (("domain", JStr dom) :: fields))).
Proof.
  intros Hok. unfold extractContent.
  destruct (extractContent_blocks_succeed selections extractors outs []
              [("domain", JStr dom)] selections_store Hok) as [fields ->].
  exists fields. reflexivity.
Qed.

(** * The polling clients *)

Lemma pollJobStatus_loop_gives_up left attempts answers :
  (forall j, attempts <= j < attempts + left -> ending (answers j) = None) ->
  pollJobStatus_loop left attempts answers =
    mkPollResult (attempts + left) None false.
Proof.
  revert attempts. induction left as [|left IH]; intros attempts Hnone.
  - cbn. rewrite Nat.add_0_r. reflexivity.
  - cbn [pollJobStatus_loop].
    pose proof (Hnone attempts ltac:(lia)) as Hhere. unfold ending in Hhere.
    replace (attempts + S left) with (S attempts + left) by lia.
    destruct (answers attempts) as [msg|data].
    { apply IH. intros j Hj. apply Hnone. lia. }
    destruct (get_field "status" data) as [st|].
    2:{ apply IH. intros j Hj. apply Hnone. lia. }
    destruct (ends_polling st); [discriminate|].
    apply IH. intros j Hj. apply Hnone. lia.
Qed.

Lemma pollJobStatus_loop_stops left attempts answers i st :
  attempts <= i < attempts + left ->
  ending (answers i) = Some st ->
  (forall j, attempts <= j < i -> ending (answers j) = None) ->
  pollJobStatus_loop left attempts answers =
    mkPollResult (S i) (Some st) (is_complete st).
Proof.
  revert attempts. induction left as [|left IH]; intros attempts Hi Hend Hnone;
    [lia|].
  cbn [pollJobStatus_loop].
  destruct (decide (attempts = i)) as [->|Hne].
  - unfold ending in Hend. destruct (answers i) as [msg|data]; [discriminate|].
    destruct (get_field "status" data) as [st'|]; [|discriminate].
    destruct (ends_polling st'); [|discriminate].
    injection Hend as ->. reflexivity.
  - pose proof (Hnone attempts ltac:(lia)) as Hhere. unfold ending in Hhere.
    assert (Hrest : pollJobStatus_loop left (S attempts) answers =
                    mkPollResult (S i) (Some st) (is_complete st)).
    { apply IH; [lia|exact Hend|]. intros j Hj. apply Hnone. lia. }
    destruct (answers attempts) as [msg|data]; [exact Hrest|].
    destruct (get_field "status" data) as [st'|]; [|exact Hrest].
    destruct (ends_polling st'); [discriminate|exact Hrest].
Qed.

(** X24. [pollJobStatus] of [queue-domain.js] stops at the first answer
    whose status is [complete], [failed] or [cancelled], having polled once
    per answer up to that one, and fetches the results only on [complete];
    answers that are errors, or carry any other status or none, are polled
    over; after 60 answers none of which ends the polling it gives up. *)
Theorem pollJobStatus_stops_at_the_first_final_status answers :
  (forall i st,
      i < 60 ->
      ending (answers i) = Some st ->
      (forall j, j < i -> ending (answers j) = None) ->
      pollJobStatus answers =
        mkPollResult (S i) (Some st) (is_complete st)) /\
  ((forall j, j < 60 -> ending (answers j) = None) ->
   pollJobStatus answers = mkPollResult 60 None false).
Proof.
  split.
  - intros i st Hi Hend Hnone. unfold pollJobStatus, maxAttempts.
    apply pollJobStatus_loop_stops; [lia|exact Hend|].
    intros j Hj. apply Hnone. lia.
  - intros Hnone. unfold pollJobStatus, maxAttempts.
    rewrite pollJobStatus_loop_gives_up; [reflexivity|].
    intros j Hj. apply Hnone. lia.
Qed.

Lemma testScraping_loop_times_out left attempts answers :
  (forall j, attempts <= j < attempts + left -> polls_again (answers j) = true) ->
  testScraping_loop left attempts answers = timed_out.
Proof.
  revert attempts. induction left as [|left IH]; intros attempts Hagain;
    [reflexivity|].
  cbn [testScraping_loop].
  pose proof (Hagain attempts ltac:(lia)) as Hhere. unfold polls_again in Hhere.
  destruct (answers attempts) as [msg|status]; [discriminate|].
  destruct (get_field "status" status) as [st|]; [|discriminate].
  destruct (ends_test st); [discriminate|].
  apply IH. intros j Hj. apply Hagain. lia.
Qed.

Lemma testScraping_loop_stops left attempts answers i :
  attempts <= i < attempts + left ->
  polls_again (answers i) = false ->
  (forall j, attempts <= j < i -> polls_again (answers j) = true) ->
  testScraping_loop left attempts answers = test_outcome (answers i) i.
Proof.
  revert attempts. induction left as [|left IH]; intros attempts Hi Hstop Hagain;
    [lia|].
  cbn [testScraping_loop].
  destruct (decide (attempts = i)) as [->|Hne].
  - unfold polls_again in Hstop. unfold test_outcome.
    destruct (answers i) as [msg|status]; [reflexivity|].
    destruct (get_field "status" status) as [st|]; [|reflexivity].
    destruct (ends_test st); [reflexivity|discriminate].
  - pose proof (Hagain attempts ltac:(lia)) as Hhere. unfold polls_again in Hhere.
    destruct (answers attempts) as [msg|status]; [discriminate|].
    destruct (get_field "status" status) as [st|]; [|discriminate].
    destruct (ends_test st); [discriminate|].
    apply IH; [lia|exact Hstop|]. intros j Hj. apply Hagain. lia.
Qed.

(** X25. The polling loop of the test script goes on as long as the answers
    carry a status other than [complete] and [failed], [cancelled] included,
    and times out after 60 of them.  The first answer that is not of this
    kind ends it: an error, or a body without a status to read, fails the
    whole test; the status [complete] and the status [failed] alike take the
    test on to the request for the results. *)
Theorem testScraping_polls_until_complete_or_failed answers :
  (forall i,
      i < 60 ->
      polls_again (answers i) = false ->
      (forall j, j < i -> polls_again (answers j) = true) ->
      testScraping_poll answers = test_outcome (answers i) i) /\
  ((forall j, j < 60 -> polls_again (answers j) = true) ->
   testScraping_poll answers = timed_out) /\
  polls_again (inr (JObj [("status", JStr "cancelled")])) = true /\
  test_outcome (inr (JObj [("status", JStr "failed")])) 0 =
    results_requested (JStr "failed") 0.
Proof.
  split; [|split; [|split; reflexivity]].
  - intros i Hi Hstop Hagain. unfold testScraping_poll, maxAttempts.
    apply testScraping_loop_stops; [lia|exact Hstop|].
    intros j Hj. apply Hagain. lia.
  - intros Hagain. unfold testScraping_poll, maxAttempts.
    apply testScraping_loop_times_out. intros j Hj. apply Hagain. lia.
Qed.
(** * Sample runs for the further properties *)

Lemma exact_share_mono d t : exact_share d t <= exact_share (S d) t.
Proof. unfold exact_share. apply Nat.Div0.div_le_mono. lia. Qed.

Lemma two_submissions_unique s :
  run 1 delivering_io exact_share two_submissions initial_state = Some s ->
  reachable_unique 1 delivering_io exact_share s.
Proof.
  intros Hrun. unfold two_submissions in Hrun. cbn [run] in Hrun.
  destruct (step 1 delivering_io exact_share
              (do_queueJob (sample_job "H1" "high") settled) initial_state)
    as [s1|] eqn:H1; [|discriminate].
  destruct (step 1 delivering_io exact_share
              (do_queueJob (sample_job "N1" "normal") settled) s1)
    as [s2|] eqn:H2; [|discriminate].
  injection Hrun as <-.
  eapply reachable_unique_step;
    [eapply reachable_unique_step; [apply reachable_unique_initial| |exact H1]
    | |exact H2].
  - split; [reflexivity|]. intros job Hjob. inversion Hjob.
  - split; [reflexivity|]. intros job Hjob.
    vm_compute in H1. injection H1 as <-.
    apply list_elem_of_singleton in Hjob as ->. discriminate.
Qed.

Lemma reloaded_consistent : consistent reloaded.
Proof.
  apply foldl_restore_consistent; [apply initial_consistent| |].
  - cbn.
    repeat (apply NoDup_cons_2;
            [intros H; repeat (apply elem_of_cons in H as [H|H]; [discriminate H|]);
             inversion H|]).
    apply NoDup_nil_2.
  - intros job _ j Hj. inversion Hj.
Qed.

Lemma dispatch_is_strict_priority_fifo_witness :
  shift_next (mkQueue [] [] [5; 7]) = Some (low, 5, mkQueue [] [] [7]) /\
  w_job <$> workers (processNextJob 2 reloaded) = [1; 2] /\
  queue_order (jobQueue (processNextJob 2 reloaded)) = [0].
Proof.
  destruct dispatch_is_strict_priority_fifo as (_ & Hcomplete & _ & _ & Hfill & _).
  split.
  - apply (Hcomplete (mkQueue [] [] [5; 7]) low 5 [7]); [reflexivity|].
    intros t' Ht'. destruct t'; [reflexivity|reflexivity|simpl in Ht'; lia].
  - destruct (Hfill 2%Z reloaded reloaded_consistent) as [H1 H2];
      [vm_compute; discriminate|].
    rewrite H1, H2. split; vm_compute; reflexivity.
Defined.

Lemma no_slot_is_idle_while_a_job_waits_witness :
  exists s,
    run 1 delivering_io exact_share three_submissions initial_state = Some s /\
    queue_order (jobQueue s) = [2; 1] /\
    (queue_order (jobQueue s) = [] \/ (1 <= active_count s)%Z).
Proof.
  eexists. split; [vm_compute; reflexivity|]. split; [vm_compute; reflexivity|].
  apply (no_slot_is_idle_while_a_job_waits 1 delivering_io exact_share).
  apply (run_reachable 1 delivering_io exact_share three_submissions initial_state);
    [apply reachable_initial|vm_compute; reflexivity].
Defined.

Lemma processNextJob_fills_the_free_slots_witness :
  w_job <$> workers (processNextJob 2 reloaded) = [1; 2] /\
  queue_order (jobQueue (processNextJob 2 reloaded)) = [0] /\
  active_count (processNextJob 2 reloaded) = 2%Z.
Proof.
  destruct (processNextJob_fills_the_free_slots 2 reloaded reloaded_consistent)
    as (H1 & H2 & H3); [vm_compute; discriminate|].
  rewrite H1, H2, H3. repeat split; vm_compute; reflexivity.
Defined.

Lemma completedJobs_is_never_evicted_witness :
  exists s',
    run 1 delivering_io exact_share
        (do_queueJob (sample_job "B" "normal") settled :: complete_minimal 1)
        finished_state = Some s' /\
    completedJobs s' !! "B" = Some 1 /\
    is_Some (completedJobs s' !! "A").
Proof.
  eexists. split; [vm_compute; reflexivity|]. split; [vm_compute; reflexivity|].
  apply (completedJobs_is_never_evicted 1 delivering_io exact_share
           (do_queueJob (sample_job "B" "normal") settled :: complete_minimal 1)
           finished_state _ "A");
    [vm_compute; reflexivity|vm_compute; eauto].
Defined.

Lemma publishing_does_not_steer_the_manager_witness :
  quiet <$> run 1 delivering_io exact_share priority_schedule initial_state =
  quiet <$> run 1 None exact_share priority_schedule initial_state.
Proof. apply publishing_does_not_steer_the_manager. reflexivity. Defined.

Lemma events_go_to_the_room_of_their_job_witness :
  exists s,
    run 1 delivering_io exact_share (before_cancel ++ cancel_A ++ after_cancel)
        initial_state = Some s /\
    length (published s) = 6 /\
    Forall (fun p => pub_event p = "job-update" /\
                     pub_room p = "job-" +:+ ev_jobId (pub_data p))
           (published s).
Proof.
  eexists. split; [vm_compute; reflexivity|]. split; [vm_compute; reflexivity|].
  apply (events_go_to_the_room_of_their_job 1 delivering_io exact_share).
  apply (run_reachable 1 delivering_io exact_share
           (before_cancel ++ cancel_A ++ after_cancel) initial_state);
    [apply reachable_initial|vm_compute; reflexivity].
Defined.

Lemma no_event_reports_a_failure_witness :
  exists s,
    run 1 delivering_io exact_share store_failure_schedule initial_state = Some s /\
    ev_status <$> events_of "A" s = [processing; processing] /\
    Forall (fun p => ev_status (pub_data p) <> failed /\
                     ev_status (pub_data p) <> queued)
           (published s).
Proof.
  eexists. split; [vm_compute; reflexivity|]. split; [vm_compute; reflexivity|].
  apply (no_event_reports_a_failure 1 delivering_io exact_share).
  apply (run_reachable 1 delivering_io exact_share store_failure_schedule
           initial_state);
    [apply reachable_initial|vm_compute; reflexivity].
Defined.

Lemma progress_never_decreases_witness :
  exists s',
    processJob_resume 1 delivering_io exact_share 0
      (resolves_pages [sample_page]) discovering_state = Some s' /\
    exists w' job',
      workers s' !! 0 = Some w' /\
      heap s' !! 0 = Some job' /\
      progress discovering_job <= progress job' /\
      progress job' <= milestone exact_share w'.
Proof.
  eexists. split; [vm_compute; reflexivity|].
  match goal with
  | |- exists w' job', workers ?s' !! 0 = Some w' /\ _ =>
      destruct (progress_never_decreases 1 delivering_io exact_share 0
                  (at_pc at_discoverPages (new_worker 0)) discovering_job
                  (resolves_pages [sample_page]) discovering_state s'
                  exact_share_mono eq_refl eq_refl)
        as (w' & job' & Hw & _ & Hjob & Hle & Hm);
      [vm_compute; lia|vm_compute; reflexivity|]
  end.
  exists w', job'. auto.
Defined.

Lemma processing_job_is_answered_from_memory_witness :
  exists s,
    run 1 delivering_io exact_share two_submissions initial_state = Some s /\
    getJobStatus "H1" (inl "db down") s = inr (job_object 0).
Proof.
  eexists. split; [vm_compute; reflexivity|].
  apply (processing_job_is_answered_from_memory 1 delivering_io exact_share _ 0
           (with_startedAt "" (with_status processing (sample_job "H1" "high")))
           (inl "db down"));
    [apply two_submissions_unique; vm_compute; reflexivity
    |vm_compute; reflexivity
    |reflexivity].
Defined.

Lemma queued_job_is_answered_by_the_store_witness :
  exists s,
    run 1 delivering_io exact_share two_submissions initial_state = Some s /\
    getJobStatus "N1" (inr (JStr "queued")) s = inr (stored_status (JStr "queued")).
Proof.
  eexists. split; [vm_compute; reflexivity|].
  apply (queued_job_is_answered_by_the_store 1 delivering_io exact_share _ 1
           (sample_job "N1" "normal") (inr (JStr "queued")));
    [apply two_submissions_unique; vm_compute; reflexivity
    |vm_compute; constructor
    |vm_compute; reflexivity].
Defined.

Lemma cancelJob_always_answers_witness :
  exists s' success msg,
    cancelJob_resume 1 0 (throws "db down") (cancelJob "A" discovering_state)
      = Some s' /\
    cancels s' !! 0 = Some (cancel_returned success msg) /\
    (success = true -> msg = "Job cancelled successfully") /\
    (success = false ->
       (exists e, throws "db down" = throws e /\
                  msg = "Error cancelling job: " +:+ e) \/
       (cancel_active "A" 0 = cancel_unknown /\ msg = "Job not found")).
Proof.
  apply (cancelJob_always_answers 1 0 (cancel_active "A" 0));
    [reflexivity|intros; discriminate].
Defined.

Lemma failed_cancel_keeps_the_slot_witness :
  exists s',
    cancelJob_resume 1 0 (throws "db down") (cancelJob "A" discovering_state)
      = Some s' /\
    activeJobs s' !! "A" = Some 0 /\
    completedJobs s' !! "A" = None /\
    status <$> heap s' !! 0 = Some cancelled.
Proof.
  destruct (failed_cancel_keeps_the_slot 1 "A" 0 discovering_job "db down"
              discovering_state eq_refl eq_refl)
    as (s' & Hrun & Ha & Hc & _ & _ & Hst & _).
  exists s'. split; [exact Hrun|]. rewrite Ha, Hc. split; [reflexivity|].
  split; [reflexivity|exact Hst].
Defined.

Lemma cancelJob_stops_no_worker_witness :
  workers (cancelJob "A" discovering_state) !! 0 =
    Some (at_pc at_discoverPages (new_worker 0)).
Proof.
  apply (cancelJob_stops_no_worker 1 "A" 0 _ settled discovering_state).
  reflexivity.
Defined.

Lemma queueJob_reply_is_read_after_dispatch_witness :
  snd (queueJob 1 (sample_job "A" "normal") settled initial_state) =
    inr (mkQueueReply "A" processing "30s").
Proof.
  destruct (queueJob_reply_is_read_after_dispatch 1 (sample_job "A" "normal")
              settled normal initial_state) as [Hfree _];
    [reflexivity|intros msg; discriminate|].
  apply Hfree; reflexivity.
Defined.

Lemma unknown_priority_fails_on_submit_and_is_normal_on_reload_witness :
  snd (queueJob 1 (sample_job "C" "constructor") settled initial_state) =
    inl "Failed to queue job: jobQueue[job.priority].push is not a function" /\
  tier normal (jobQueue (restore initial_state (sample_job "C" "constructor"))) = [0].
Proof.
  destruct (unknown_priority_fails_on_submit_and_is_normal_on_reload 1
              (sample_job "C" "constructor") JUndefined initial_state eq_refl)
    as [(H1 & _) (H2 & _)].
  split; [exact H1|]. rewrite H2. reflexivity.
Defined.

Lemma rejection_changes_nothing_witness :
  exists s',
    processJob_resume 1 delivering_io exact_share 0 (resolves JNull) discovering_state
      = Some s' /\
    w_pc <$> workers s' =
      [rejected ("Failed to process job: " +:+
                 "Cannot read properties of null (reading 'length')")] /\
    activeJobs s' !! "A" = Some 0 /\
    status <$> heap s' !! 0 = Some processing /\
    progress <$> heap s' !! 0 = Some 10.
Proof.
  exists (reject 0 (at_pc at_discoverPages (new_worker 0)) (length_TypeError JNull)
            discovering_state).
  split; [reflexivity|]. split; [reflexivity|].
  destruct (rejection_changes_nothing 1 delivering_io exact_share 0
              (resolves JNull) discovering_state
              (reject 0 (at_pc at_discoverPages (new_worker 0)) (length_TypeError JNull)
                 discovering_state)
              (at_pc (rejected ("Failed to process job: " +:+ length_TypeError JNull))
                 (at_pc at_discoverPages (new_worker 0)))
              ("Failed to process job: " +:+ length_TypeError JNull)
              eq_refl eq_refl eq_refl)
    as (Hh & _ & Ha & _).
  rewrite Hh, Ha. repeat split; reflexivity.
Defined.

Lemma failure_is_fatal_iff_unguarded_witness :
  exists s' w',
    processJob_resume 1 delivering_io exact_share 0 (throws "dns failure")
      discovering_state = Some s' /\
    workers s' !! 0 = Some w' /\
    ((exists msg, w_pc w' = rejected msg) <->
     guarded (w_pc (at_pc at_discoverPages (new_worker 0))) = false).
Proof.
  apply (failure_is_fatal_iff_unguarded 1 delivering_io exact_share 0
           (at_pc at_discoverPages (new_worker 0)) "dns failure" discovering_state);
    [reflexivity|discriminate|intros; discriminate].
Defined.

Lemma page_loop_fetches_every_page_witness :
  exists s' w' job',
    run 1 delivering_io exact_share
        [resume_processJob 0 (resolves_pages [sample_page; fresh_page]);
         resume_processJob 0 (resolves (JObj [("content", JStr "<html>1</html>")]));
         resume_processJob 0 (resolves (JObj [("content", JStr "<html>2</html>")]))]
        discovering_state = Some s' /\
    workers s' !! 0 = Some w' /\
    w_pc w' = at_extract enhancedImageExtractor /\
    pageContents w' = [JObj [("content", JStr "<html>1</html>")];
                       JObj [("content", JStr "<html>2</html>")]] /\
    heap s' !! 0 = Some job' /\
    progress job' = 60.
Proof.
  destruct (page_loop_fetches_every_page 1 delivering_io exact_share 0
              (at_pc at_discoverPages (new_worker 0)) discovering_job
              sample_page [fresh_page]
              [JObj [("content", JStr "<html>1</html>")];
               JObj [("content", JStr "<html>2</html>")]]
              discovering_state eq_refl eq_refl eq_refl eq_refl)
    as (s' & w' & job' & Hrun & Hw & Hpc & _ & Hc & Hj & H60 & _).
  exists s', w', job'. auto 10.
Defined.

Lemma a_job_is_started_at_most_once_witness :
  (exists s,
      run 1 delivering_io exact_share two_submissions initial_state = Some s /\
      queue_order (jobQueue s) = [1] /\
      w_job <$> workers s = [0] /\
      handled_ids s = ["N1"; "H1"] /\
      NoDup (handled_ids s)) /\
  w_job <$> workers resubmitted_state = [0] /\
  exists ws, w_job <$> workers (processNextJob 2 resubmitted_state) = 0 :: 0 :: ws.
Proof.
  destruct (a_job_is_started_at_most_once 1 delivering_io exact_share)
    as [Honce _].
  destruct (a_job_is_started_at_most_once 2 delivering_io exact_share)
    as [_ Hhead].
  split; [|split; [reflexivity|]].
  - destruct (run 1 delivering_io exact_share two_submissions initial_state)
      as [s|] eqn:Hrun; [|vm_compute in Hrun; discriminate].
    exists s. split; [reflexivity|].
    destruct (Honce s (two_submissions_unique s Hrun)) as (_ & Hids & _).
    vm_compute in Hrun. injection Hrun as <-.
    split; [reflexivity|]. split; [reflexivity|]. split; [reflexivity|]. exact Hids.
  - apply (Hhead resubmitted_state normal 0 (mkQueue [] [] []) discovering_job);
      [reflexivity|reflexivity|reflexivity].
Defined.

Lemma init_enqueues_in_store_order_witness :
  waiting high reloaded = [sample_job "B" "high"] /\
  waiting normal reloaded = [sample_job "C" "urgent"] /\
  waiting low reloaded = [sample_job "A" "low"].
Proof.
  assert (Hvalid : forall r, r ∈ queue_order (jobQueue initial_state) ->
                             r < length (heap initial_state)).
  { intros r Hr. inversion Hr. }
  unfold reloaded.
  rewrite (proj1 (init_enqueues_in_store_order pending_jobs high initial_state Hvalid)).
  rewrite (proj1 (init_enqueues_in_store_order pending_jobs normal initial_state Hvalid)).
  rewrite (proj1 (init_enqueues_in_store_order pending_jobs low initial_state Hvalid)).
  repeat split; vm_compute; reflexivity.
Defined.

Lemma extractContent_stops_at_the_first_failure_witness :
  extractContent "a.example" ["isbn"; "colors"; "blog"] colors_throw =
    ([pipeline_extractor blogExtractor; pipeline_extractor colorExtractor],
     inl "malformed css").
Proof.
  apply (extractContent_stops_at_the_first_failure "a.example"
           ["isbn"; "colors"; "blog"] colors_throw
           (take 3 selections)
           (mkSelection ["colors"] (pipeline_extractor colorExtractor)
                        (store_under "colors"))
           (drop 4 selections)
           [pipeline_extractor blogExtractor]
           [("domain", JStr "a.example"); ("blog", JObj [])]
           "malformed css");
    vm_compute; reflexivity.
Defined.

Lemma extractContent_calls_what_is_asked_for_witness :
  fst (extractContent "a.example" ["podcast"; "rss"; "podcast"; "general"] all_resolve)
    = [pipeline_extractor generalExtractor; podcastExtractor].
Proof.
  destruct (extractContent_calls_what_is_asked_for "a.example"
              ["podcast"; "rss"; "podcast"; "general"] all_resolve) as [fields ->].
  - intros m. exists (JObj []). split; reflexivity.
  - vm_compute. reflexivity.
Defined.

Lemma the_request_of_a_job_is_never_rewritten_witness :
  exists s',
    run 1 delivering_io exact_share
        (cancel_A ++ [resume_processJob 0 (resolves_pages []);
                      resume_processJob 0 settled;
                      resume_processJob 0 settled])
        discovering_state = Some s' /\
    status <$> heap s' !! 0 = Some complete /\
    exists job',
      heap s' !! 0 = Some job' /\
      jobId job' = "A" /\ domain job' = "A.example" /\
      depth job' = 2 /\ priority job' = "normal" /\ maxPages job' = None.
Proof.
  eexists. split; [vm_compute; reflexivity|]. split; [vm_compute; reflexivity|].
  apply (the_request_of_a_job_is_never_rewritten 1 delivering_io exact_share
           (cancel_A ++ [resume_processJob 0 (resolves_pages []);
                         resume_processJob 0 settled;
                         resume_processJob 0 settled])
           discovering_state _ 0 discovering_job);
    [vm_compute; reflexivity|reflexivity].
Defined.

Lemma a_job_with_pages_runs_to_its_end_witness :
  exists s' w',
    run 1 delivering_io exact_share
        ([resume_processJob 0 (resolves_pages [sample_page]);
          resume_processJob 0 (resolves (JObj [("content", JStr "<html></html>")]))] ++
         extractor_stage 0 color_fails ++ [resume_processJob 0 settled])
        discovering_state = Some s' /\
    workers s' !! 0 = Some w' /\
    w_pc w' = returned /\
    get_field "colors" (results w') = Some default_colors /\
    completedJobs s' !! "A" = Some 0.
Proof.
  destruct (a_job_with_pages_runs_to_its_end 1 delivering_io exact_share 0
              (at_pc at_discoverPages (new_worker 0)) discovering_job
              sample_page [] [JObj [("content", JStr "<html></html>")]]
              color_fails settled JUndefined discovering_state
              eq_refl eq_refl eq_refl eq_refl)
    as (s' & w' & job' & Hrun & Hw & Hpc & Hres & Hdone & _);
    [intros e; destruct e; exact I|exact I|].
  exists s', w'. split; [exact Hrun|]. split; [exact Hw|]. split; [exact Hpc|].
  split; [exact (Hres colorExtractor)|exact Hdone].
Defined.

Lemma pollJobStatus_stops_at_the_first_final_status_witness :
  pollJobStatus (then_status "cancelled") =
    mkPollResult 3 (Some (JStr "cancelled")) false.
Proof.
  apply (proj1 (pollJobStatus_stops_at_the_first_final_status
                  (then_status "cancelled")) 2 (JStr "cancelled"));
    [lia|reflexivity|].
  intros j Hj. destruct j as [|[|j]]; [reflexivity|reflexivity|lia].
Defined.

Lemma testScraping_polls_until_complete_or_failed_witness :
  testScraping_poll (then_status "cancelled") = timed_out /\
  testScraping_poll (then_status "failed") = results_requested (JStr "failed") 2.
Proof.
  split.
  - apply (proj1 (proj2 (testScraping_polls_until_complete_or_failed
                           (then_status "cancelled")))).
    intros j Hj. unfold then_status. destruct (j <? 2)%nat; reflexivity.
  - apply (proj1 (testScraping_polls_until_complete_or_failed
                    (then_status "failed")) 2);
      [lia|reflexivity|].
    intros j Hj. destruct j as [|[|j]]; [reflexivity|reflexivity|lia].
Defined.
